(** * Etherscan ingestor: a shallow embedding of [assignment/ingest.py]

    The development follows the source file top to bottom: the remote ledger
    client ([__call_etherscan]), the identity resolver
    ([__get_or_create_address]), the batch flush ([__save]), the range
    partitioner ([__block_ranges]), the producer ([call_api_and_produce]),
    the consumer ([consume]) and the dispatch loop of the coordinator
    ([start]).  Python integers are [Z], strings are [string],
    raw API records (JSON objects) are [gmap string string], tables of the
    relational store are lists of rows, and exceptions are the [Raise] case of
    [Outcome]. *)

From Stdlib Require Import ZArith Lia Bool Ascii String.
From stdpp Require Import gmap strings list fin_maps.

Open Scope Z_scope.

(** ** Python exceptions and results *)

(** The exception classes the modelled code can meet.  All of them derive from
    [Exception]. *)
Inductive PyExn : Type :=
| ValueError (msg : string)            (* int() on a malformed literal, timestamp out of range *)
| KeyError (key : string)              (* missing key of a JSON object *)
| TypeError (msg : string)             (* indexing a str with a str *)
| IntegrityError (detail : string)     (* sqlalchemy.exc.IntegrityError, str(e) = detail *)
| OperationalError (msg : string)      (* any other sqlalchemy failure *)
| NoResultFound                        (* Query.one() on no row *)
| MultipleResultsFound                 (* Query.one() on several rows *)
| QueueEmpty                           (* queue.Empty *)
| TransportError (msg : string)        (* requests.get failed *)
| JSONDecodeError (msg : string)       (* response.json() failed *)
| PlainException (msg : string).       (* raise Exception(msg) *)

Inductive Outcome (A : Type) : Type :=
| Return (a : A)
| Raise (e : PyExn).
Arguments Return {A} a.
Arguments Raise {A} e.

Definition obind {A B} (m : Outcome A) (k : A -> Outcome B) : Outcome B :=
  match m with
  | Return a => k a
  | Raise e => Raise e
  end.

Notation "'let!' x ':=' m 'in' k" := (obind m (fun x => k))
  (at level 10, x pattern, m at level 100, k at level 200).

(** ** Stateful, fallible, possibly non-terminating code

    A computation over a state [S] either runs out of fuel ([None], the loop
    is still running) or finishes with a result or an exception and a new
    state. *)

Definition M (S A : Type) : Type := S -> option (Outcome A * S).

Definition ret {S A} (a : A) : M S A := fun s => Some (Return a, s).
Definition raise {S A} (e : PyExn) : M S A := fun s => Some (Raise e, s).
Definition still_running {S A} : M S A := fun _ => None.
Definition lift {S A} (o : Outcome A) : M S A := fun s => Some (o, s).

Definition bind {S A B} (m : M S A) (k : A -> M S B) : M S B :=
  fun s =>
    match m s with
    | Some (Return a, s') => k a s'
    | Some (Raise e, s') => Some (Raise e, s')
    | None => None
    end.

Definition gets {S A} (f : S -> A) : M S A := fun s => Some (Return (f s), s).
Definition modify {S} (f : S -> S) : M S unit := fun s => Some (Return tt, f s).

(** [try: m except Exception as e: h e] *)
Definition try_except {S A} (m : M S A) (h : PyExn -> M S A) : M S A :=
  fun s =>
    match m s with
    | Some (Raise e, s') => h e s'
    | r => r
    end.

(** [try: m finally: f] *)
Definition try_finally {S A} (m : M S A) (f : M S unit) : M S A :=
  fun s =>
    match m s with
    | Some (r, s') =>
        match f s' with
        | Some (Return _, s'') => Some (r, s'')
        | Some (Raise e, s'') => Some (Raise e, s'')
        | None => None
        end
    | None => None
    end.

Notation "'do' x <- m ; k" := (bind m (fun x => k))
  (at level 10, x pattern, m at level 100, k at level 200).
Notation "'exec' m ; k" := (bind m (fun _ => k))
  (at level 10, m at level 100, k at level 200).

(** ** Builtins: [int(str)] and [datetime.fromtimestamp] *)

Module Builtins.

(** Blanks [int] skips around the literal.  A character stands for a code
    point below 256: the blanks are tab to carriage return (9..13) and the
    space (32) and, in text that is not ASCII, NEL (133) and the no-break
    space (160).  The separators 28..31 are blanks for [str.isspace] but not
    for [int]: [int("\x1c5")] raises [ValueError]. *)
Definition py_isspace (c : ascii) : bool :=
  let n := nat_of_ascii c in
  ((9 <=? n)%nat && (n <=? 13)%nat) || (n =? 32)%nat
  || (n =? 133)%nat || (n =? 160)%nat.

Definition digit_value (c : ascii) : option Z :=
  let n := nat_of_ascii c in
  if (48 <=? n)%nat && (n <=? 57)%nat then Some (Z.of_nat (n - 48)) else None.

Fixpoint lstrip (s : string) : string :=
  match s with
  | String c s' => if py_isspace c then lstrip s' else s
  | EmptyString => s
  end.

Definition strip (s : string) : string :=
  String.rev (lstrip (String.rev (lstrip s))).

(** Decimal digits, with single underscores allowed between two digits.
    [after_digit] tells whether the previous character was a digit; the
    second component counts the digits read. *)
Fixpoint digits (s : string) (acc : Z) (count : nat) (after_digit : bool)
  : option (Z * nat) :=
  match s with
  | EmptyString => if after_digit then Some (acc, count) else None
  | String c s' =>
      match digit_value c with
      | Some d => digits s' (10 * acc + d) (S count) true
      | None =>
          if Ascii.eqb c "_"%char && after_digit
          then digits s' acc count false
          else None
      end
  end.

(** CPython refuses decimal literals of more than 4300 digits. *)
Definition int_max_str_digits : nat := 4300.

Definition py_int (s : string) : Outcome Z :=
  let t := strip s in
  let '(negative, body) :=
    match t with
    | String "-"%char r => (true, r)
    | String "+"%char r => (false, r)
    | _ => (false, t)
    end in
  match digits body 0 0 false with
  | Some (n, count) =>
      if (count <=? int_max_str_digits)%nat
      then Return (if negative then - n else n)
      else Raise (ValueError "Exceeds the limit for integer string conversion")
  | None => Raise (ValueError ("invalid literal for int() with base 10: " ++ s))
  end.

(** [datetime.fromtimestamp(t, timezone.utc)]: the result is kept as the
    number of seconds since the epoch; years outside 1..9999 are refused. *)
Definition min_timestamp : Z := -62135596800.
Definition max_timestamp : Z := 253402300799.

Definition fromtimestamp_utc (t : Z) : Outcome Z :=
  if (min_timestamp <=? t) && (t <=? max_timestamp)
  then Return t
  else Raise (ValueError "year is out of range").

End Builtins.

(** ** Configuration and raw records *)

(** Modelled from the spec: [assignment/config.py] is not among the sources;
    the constants [ingest.py] imports from it are the injected parameters of
    section 6 of the specification. *)
Record Config : Type := {
  RECORD_RETRIEVAL_LIMIT : Z;
  API_KEY : string;
  API_RATE_LIMIT_DELAY : Z;
  BASE_BLOCK_ATTEMPT : Z;
  BLOCK_ATTEMPTS : list Z;
  DEV_MODE : bool;
  DEV_STEP : Z;
  SAVE_BATCH_LIMIT : Z
}.

(** One element of the API's result list: a JSON object whose values are
    strings. *)
Abbreviation RawRecord := (gmap string string).

(** [d[key]] *)
Definition getitem (d : RawRecord) (key : string) : Outcome string :=
  match d !! key with
  | Some v => Return v
  | None => Raise (KeyError key)
  end.

(** Structured log lines; the message text is not modelled, its arguments
    are. *)
Inductive LogEntry : Type :=
| CallingApi (thread_id : option Z) (current_block ending_block : Z)
| ThreadError (thread_id : option Z) (current_block ending_block : Z)
| NewLoop (thread_id : option Z) (current_block ending_block : Z)
| NoTransactionsFound (address : string) (current_block ending_block : Z)
| TooManyRecords (window count : Z)
| AdjustingRange (window new_end_block : Z)
| ApiCallSuccess (count window : Z)
| ChangingCurrentBlock (current_block : Z)
| NewCurrentBlock (current_block : Z)
| ProduceFailed (e : PyExn)
| ReachedEndblock (current_block ending_block : Z)
| ConsumerStarting (thread_id : Z)
| AboutToSave (count : nat) (thread_id : Z)
| DuplicateKeyError (e : PyExn)
| ConflictDetected (conflicting_hash : string)
| ConflictingTransaction (tx_hash : string)
| ExistingTransaction (tx_hash : string)
| UnexpectedSaveError (e : PyExn) (thread_id : Z)
| ResolverError (e : PyExn)
| BatchSaved (queue_size : nat) (db_size : nat)
| ProducersFinished (thread_id : Z)
| QueueEmptyWaiting (thread_id : Z)
| FinalBatchSaved (batch_size : nat)
| ConsumerShuttingDown (e : PyExn)
| SessionClosed (thread_id : Z).

(** ** Remote ledger client: [__call_etherscan] *)

Module Ledger.

Inductive ApiResult : Type :=
| ResultList (records : list RawRecord)
| ResultMessage (msg : string).

(** The decoded response body; [result = None] when the key is absent. *)
Record ApiData : Type := { result : option ApiResult }.

Record ApiRequest : Type := {
  req_address : string;
  req_startblock : Z;
  req_endblock : Z;
  req_offset : Z;
  req_sort : string;
  req_apikey : string
}.

Inductive Event : Type :=
| SemAcquire
| SemRelease
| HttpGet (r : ApiRequest)
| Sleep (delay : Z)
| Log (entry : LogEntry).

(** What a producer thread can touch: the number of HTTP calls it made so
    far, its trace of effects, the shared queue, and its two loop
    variables. *)
Record State : Type := {
  calls : nat;
  trace : list Event;
  queue : list RawRecord;
  current_block : Z;
  block_window_amount : Z
}.

Definition emit (ev : Event) (s : State) : State :=
  {| calls := calls s; trace := trace s ++ [ev]; queue := queue s;
     current_block := current_block s;
     block_window_amount := block_window_amount s |}.

Definition count_call (s : State) : State :=
  {| calls := S (calls s); trace := trace s; queue := queue s;
     current_block := current_block s;
     block_window_amount := block_window_amount s |}.

Definition rate_limit_message : string := "Max rate limit reached".

(** [data['result'] != 'Max rate limit reached'] *)
Definition is_rate_limited (r : ApiResult) : bool :=
  match r with
  | ResultMessage m => String.eqb m rate_limit_message
  | ResultList _ => false
  end.

(** [data['result']] *)
Definition data_result (data : ApiData) : Outcome ApiResult :=
  match result data with
  | Some r => Return r
  | None => Raise (KeyError "result")
  end.

Section Client.
Variable cfg : Config.
(** The remote API: the answer to the [n]-th HTTP call of this thread,
    [requests.get(api_url)] followed by [response.json()]; a [Raise] is a
    transport or decoding failure. *)
Variable api : nat -> ApiRequest -> Outcome ApiData.

Definition request (address : string) (startblock endblock : Z)
           (sort : string) : ApiRequest :=
  {| req_address := address; req_startblock := startblock;
     req_endblock := endblock; req_offset := RECORD_RETRIEVAL_LIMIT cfg;
     req_sort := sort; req_apikey := API_KEY cfg |}.

(** The body of [with api_call_semaphore: ...]: the permit is given back
    on every way out. *)
Definition guarded_request (req : ApiRequest) (thread_id : option Z)
  : M State ApiData :=
  exec modify (emit SemAcquire) ;
  try_finally
    (exec modify (emit (Log (CallingApi thread_id (req_startblock req)
                                        (req_endblock req)))) ;
     exec modify (emit (HttpGet req)) ;
     do n <- gets calls ;
     exec modify count_call ;
     do data <- lift (api n req) ;
     exec modify (emit (Sleep (API_RATE_LIMIT_DELAY cfg))) ;
     ret data)
    (modify (emit SemRelease)).

(** [for attempt in range(retries): ...] followed by the error exit. *)
Fixpoint call_etherscan_attempts (attempts : nat) (req : ApiRequest)
         (thread_id : option Z) : M State ApiData :=
  match attempts with
  | O =>
      exec modify (emit (Log (ThreadError thread_id (req_startblock req)
                                          (req_endblock req)))) ;
      raise (PlainException "Max rate limit reached after retrying")
  | S attempts' =>
      do data <- guarded_request req thread_id ;
      do r <- lift (data_result data) ;
      if is_rate_limited r
      then call_etherscan_attempts attempts' req thread_id
      else ret data
  end.

Definition default_retries : Z := 4.

Definition call_etherscan_with (address : string) (thread_id : option Z)
           (startblock endblock : Z) (sort : string) (retries : Z)
  : M State ApiData :=
  call_etherscan_attempts (Z.to_nat retries)
                          (request address startblock endblock sort)
                          thread_id.

(** [__call_etherscan(address, thread_id, startblock=.., endblock=..)] *)
Definition call_etherscan (address : string) (thread_id : option Z)
           (startblock endblock : Z) : M State ApiData :=
  call_etherscan_with address thread_id startblock endblock "asc"
                      default_retries.

End Client.

(** The response body of the application-level rate limit. *)
Definition rate_limited_body : ApiData :=
  {| result := Some (ResultMessage rate_limit_message) |}.

(** The effects of one attempt that got a response, and of one whose
    request or decoding failed. *)
Definition completed_attempt (cfg : Config) (req : ApiRequest)
           (thread_id : option Z) : list Event :=
  [SemAcquire;
   Log (CallingApi thread_id (req_startblock req) (req_endblock req));
   HttpGet req; Sleep (API_RATE_LIMIT_DELAY cfg); SemRelease].

Definition failed_attempt (req : ApiRequest) (thread_id : option Z)
  : list Event :=
  [SemAcquire;
   Log (CallingApi thread_id (req_startblock req) (req_endblock req));
   HttpGet req; SemRelease].

(** The thread's state after [n] more HTTP calls with effects [events]. *)
Definition advance (n : nat) (events : list Event) (s : State) : State :=
  {| calls := calls s + n; trace := trace s ++ events; queue := queue s;
     current_block := current_block s;
     block_window_amount := block_window_amount s |}.

End Ledger.

(** ** The relational store *)

Module Store.

Record Address : Type := { address_id : Z; address : string }.

Record Transaction : Type := {
  block_number : Z;
  time_stamp : Z;
  hash : string;
  from_address_id : option Z;     (* [None] is Python's None *)
  to_address_id : option Z;
  value : Z;
  gas : Z;
  gas_used : Z;
  is_error : Z
}.

(** A failure the database answers a statement with, and the exception
    SQLAlchemy raises for it. *)
Inductive DbFault : Type :=
| ConstraintFault (detail : string)
| ConnectionFault (msg : string).

Definition fault_exn (f : DbFault) : PyExn :=
  match f with
  | ConstraintFault detail => IntegrityError detail
  | ConnectionFault msg => OperationalError msg
  end.

(** Modelled from the spec: [assignment/models.py] and [assignment/db.py]
    are not among the sources.  Section 6 of the specification gives the
    schema, [addresses(id PK, address UNIQUE)] and
    [transactions(..., hash UNIQUE)]; the surrogate id comes from a counter.
    [faults] is the plan of failures the database will answer the coming
    statements with ([None]: the statement is executed); an exhausted plan
    means no failure. *)
Record Db : Type := {
  addresses : list Address;
  next_address_id : Z;
  transactions : list Transaction;
  faults : list (option DbFault)
}.

Definition set_addresses (rows : list Address) (next : Z) (d : Db) : Db :=
  {| addresses := rows; next_address_id := next;
     transactions := transactions d; faults := faults d |}.

Definition set_transactions (rows : list Transaction) (d : Db) : Db :=
  {| addresses := addresses d; next_address_id := next_address_id d;
     transactions := rows; faults := faults d |}.

Definition pop_fault (d : Db) : option DbFault * Db :=
  match faults d with
  | [] => (None, d)
  | f :: rest =>
      (f, {| addresses := addresses d; next_address_id := next_address_id d;
             transactions := transactions d; faults := rest |})
  end.

(** The [UNIQUE] constraint of [addresses.address]. *)
Definition unique_addresses (d : Db) : Prop :=
  NoDup (address <$> addresses d).

(** The [UNIQUE] constraint of [transactions.hash]. *)
Definition unique_hashes (d : Db) : Prop :=
  NoDup (hash <$> transactions d).

(** One statement sent to the database: it fails as planned, or runs. *)
Definition statement {A} (run : Db -> Outcome A * Db) (d : Db)
  : Outcome A * Db :=
  match pop_fault d with
  | (Some f, d') => (Raise (fault_exn f), d')
  | (None, d') => run d'
  end.

Definition address_rows (a : string) (d : Db) : list Address :=
  filter (fun row => address row = a) (addresses d).

Definition hash_rows (h : string) (rows : list Transaction)
  : list Transaction :=
  filter (fun row => hash row = h) rows.

Definition unique_violation (column key : string) : PyExn :=
  IntegrityError ("duplicate key value violates unique constraint. Key ("
                    ++ column ++ ")=(" ++ key ++ ") already exists.").

(** [session.query(Address).filter_by(address=a).one_or_none()] *)
Definition query_address_one_or_none (a : string)
  : Db -> Outcome (option Address) * Db :=
  statement (fun d =>
    match address_rows a d with
    | [] => (Return None, d)
    | [row] => (Return (Some row), d)
    | _ => (Raise MultipleResultsFound, d)
    end).

(** [session.query(Address).filter_by(address=a).one()] *)
Definition query_address_one (a : string) : Db -> Outcome Address * Db :=
  statement (fun d =>
    match address_rows a d with
    | [] => (Raise NoResultFound, d)
    | [row] => (Return row, d)
    | _ => (Raise MultipleResultsFound, d)
    end).

(** [session.add(Address(address=a)); session.commit()]: the insert is
    refused when the address is already there. *)
Definition insert_address (a : string) : Db -> Outcome Address * Db :=
  statement (fun d =>
    match address_rows a d with
    | [] =>
        let row := {| address_id := next_address_id d; address := a |} in
        (Return row,
         set_addresses (addresses d ++ [row]) (next_address_id d + 1) d)
    | _ => (Raise (unique_violation "address" a), d)
    end).

(** [session.query(Transaction).filter_by(hash=h).first()] *)
Definition query_transaction_first (h : string)
  : Db -> Outcome (option Transaction) * Db :=
  statement (fun d => (Return (head (hash_rows h (transactions d))), d)).

(** [session.query(Transaction).count()] *)
Definition count_transactions : Db -> Outcome nat * Db :=
  statement (fun d => (Return (length (transactions d)), d)).

(** The inserts of [session.bulk_save_objects(rows)], in order, inside the
    session's open transaction: [pending] are the rows inserted and not yet
    committed.  The first row whose hash is already committed or pending is
    refused and the statement stops there. *)
Fixpoint insert_rows (rows : list Transaction) (committed pending : list Transaction)
  : Outcome unit * list Transaction :=
  match rows with
  | [] => (Return tt, pending)
  | row :: rest =>
      match hash_rows (hash row) (committed ++ pending) with
      | [] => insert_rows rest committed (pending ++ [row])
      | _ => (Raise (unique_violation "hash" (hash row)), pending)
      end
  end.

(** Whether the bulk insert of [rows] is refused. *)
Definition has_conflict (rows committed : list Transaction) : bool :=
  match insert_rows rows committed [] with
  | (Return _, _) => false
  | (Raise _, _) => true
  end.

End Store.

(** ** What a consumer thread can touch *)

Module Env.
Import Store.

(** What the rest of the system does while a consumer is blocked in
    [queue.get]: a producer puts a record, the coordinator sets the
    "producers done" event, or one unit of time passes. *)
Inductive EnvEvent : Type :=
| Put (raw : RawRecord)
| SetDone
| Tick.

(** [db], [log], [queue], [done] and [env] are shared with the other
    threads; [pending], [session_closed] are the state of the thread's
    session (the registry [Session] hands every call of one thread the same
    session) and [batch] is [transactions_to_batch]. *)
Record World : Type := {
  db : Db;
  log : list LogEntry;
  queue : list RawRecord;
  done : bool;
  env : list EnvEvent;
  clock : Z;
  pending : list Transaction;
  session_closed : bool;
  batch : list Transaction
}.

Definition set_db (d : Db) (w : World) : World :=
  {| db := d; log := log w; queue := queue w; done := done w; env := env w;
     clock := clock w; pending := pending w;
     session_closed := session_closed w; batch := batch w |}.

Definition add_logs (entries : list LogEntry) (w : World) : World :=
  {| db := db w; log := log w ++ entries; queue := queue w; done := done w;
     env := env w; clock := clock w; pending := pending w;
     session_closed := session_closed w; batch := batch w |}.

Definition add_log (entry : LogEntry) (w : World) : World :=
  add_logs [entry] w.

Definition set_channel (q : list RawRecord) (d : bool) (e : list EnvEvent)
           (c : Z) (w : World) : World :=
  {| db := db w; log := log w; queue := q; done := d; env := e; clock := c;
     pending := pending w; session_closed := session_closed w;
     batch := batch w |}.

Definition set_pending (rows : list Transaction) (w : World) : World :=
  {| db := db w; log := log w; queue := queue w; done := done w;
     env := env w; clock := clock w; pending := rows;
     session_closed := session_closed w; batch := batch w |}.

Definition set_session_closed (b : bool) (w : World) : World :=
  {| db := db w; log := log w; queue := queue w; done := done w;
     env := env w; clock := clock w; pending := pending w;
     session_closed := b; batch := batch w |}.

Definition set_batch (rows : list Transaction) (w : World) : World :=
  {| db := db w; log := log w; queue := queue w; done := done w;
     env := env w; clock := clock w; pending := pending w;
     session_closed := session_closed w; batch := rows |}.

Definition logger (entry : LogEntry) : M World unit := modify (add_log entry).

(** The coordinator has set the event, or will while the consumer waits. *)
Definition signal_coming (w : World) : Prop :=
  done w = true \/ SetDone ∈ env w.

(** The producers are finished: nothing will be put on the queue. *)
Definition no_more_puts (events : list EnvEvent) : Prop :=
  forall raw : RawRecord, Put raw ∉ events.

(** Passes through the consumer's loop that are enough to drain [w]. *)
Definition drain_fuel (w : World) : nat :=
  S (length (queue w) + length (env w)).

(** The computation [m] always finishes, and relates the world it ends in to
    the one it started from by [R]. *)
Definition steady {A} (R : World -> World -> Prop) (m : M World A) : Prop :=
  forall w : World, exists (r : Outcome A) (w' : World), m w = Some (r, w') /\ R w w'.

(** Whatever [m] raises, it is not [queue.Empty]. *)
Definition not_empty_raised {A} (m : M World A) : Prop :=
  forall (w w' : World) (e : PyExn), m w = Some (Raise e, w') -> e <> QueueEmpty.

(** Nothing was taken from or put on the queue, the event was not touched and
    no time has passed. *)
Definition same_channel (w w' : World) : Prop :=
  queue w' = queue w /\ done w' = done w /\ env w' = env w /\ clock w' = clock w.

(** The stored transactions and the thread's batch are as they were. *)
Definition same_rows (w w' : World) : Prop :=
  transactions (db w') = transactions (db w) /\ batch w' = batch w.

(** A statement sent through the thread's session: the session is in use
    again, and the statement runs against the shared store. *)
Definition execute {A} (stmt : Db -> Outcome A * Db) : M World A :=
  fun w =>
    let '(r, d) := stmt (db w) in
    Some (r, set_db d (set_session_closed false w)).

(** [session.rollback()] and [session.close()] of the thread's session. *)
Definition session_rollback : M World unit := modify (set_pending []).
Definition session_close : M World unit :=
  modify (fun w => set_session_closed true (set_pending [] w)).

(** [session.bulk_save_objects(rows)] *)
Definition bulk_save_objects (rows : list Transaction) : M World unit :=
  do p <- gets pending ;
  do r <- execute (statement (fun d =>
                     (Return (insert_rows rows (transactions d) p), d))) ;
  exec modify (set_pending (snd r)) ;
  lift (fst r).

(** [session.commit()] *)
Definition session_commit : M World unit :=
  do p <- gets pending ;
  exec execute (statement (fun d =>
                  (Return tt, set_transactions (transactions d ++ p) d))) ;
  modify (set_pending []).

End Env.

(** ** Identity resolver: [__get_or_create_address] *)

Module Resolver.
Import Store Env.

(** Lines 64-71, the body of the [try]: look the address up, insert it when
    it is not there, return the row's id. *)
Definition find_or_insert (address : string) : M World (option Z) :=
  do found <- execute (query_address_one_or_none address) ;
  do addr_obj <- match found with
                 | Some row => ret row
                 | None => execute (insert_address address)
                 end ;
  ret (Some (address_id addr_obj)).

(** Lines 73-76, [except IntegrityError]: roll back and read the row the
    other worker created. *)
Definition on_integrity_error (address : string) : M World (option Z) :=
  exec session_rollback ;
  do addr_obj <- execute (query_address_one address) ;
  ret (Some (address_id addr_obj)).

(** Lines 78-80, [except Exception as e]: log, roll back, return [None]. *)
Definition on_other_error (e : PyExn) : M World (option Z) :=
  exec logger (ResolverError e) ;
  exec session_rollback ;
  ret None.

(** [__get_or_create_address(address)] as the source has it. *)
Definition get_or_create_address (address : string) : M World (option Z) :=
  try_finally
    (try_except
       (find_or_insert address)
       (fun e =>
          match e with
          | IntegrityError _ => on_integrity_error address
          | _ => on_other_error e
          end))
    session_close.

(** The same function, one worker among several.  It is cut at its calls on
    the session: each statement is executed atomically by the store, and
    between two steps of one worker the statements of another may run. *)
Inductive Pc : Type :=
| AtQuery                               (* before line 64 *)
| AtInsert                              (* before lines 67-69 *)
| AtRollback                            (* before line 73 *)
| AtReread                              (* before line 74 *)
| AtError (e : PyExn)                   (* before lines 78-79 *)
| AtClose (r : Outcome (option Z))      (* before line 82 *)
| Finished (r : Outcome (option Z)).    (* returned, or raised *)

(** A worker between two steps: where it stands, the state of its session
    and what it has logged.  [needs_rollback] says that the database refused
    a statement of the session's transaction and that [session.rollback()]
    has not been called since.  The transaction is then aborted: a session
    whose flush failed raises [PendingRollbackError] on every statement
    until it is rolled back, and the database ignores the statements of an
    aborted transaction. *)
Record Worker : Type := {
  position : Pc;
  needs_rollback : bool;
  closed_session : bool;
  logged : list LogEntry
}.

Definition new_worker : Worker :=
  {| position := AtQuery; needs_rollback := false; closed_session := false;
     logged := [] |}.

Definition goto (p : Pc) (wk : Worker) : Worker :=
  {| position := p; needs_rollback := needs_rollback wk;
     closed_session := closed_session wk; logged := logged wk |}.

(** The session after a statement was sent through it. *)
Definition after_statement (refused : bool) (wk : Worker) : Worker :=
  {| position := position wk; needs_rollback := refused;
     closed_session := false; logged := logged wk |}.

(** [session.rollback()]: the aborted transaction is given up. *)
Definition rolled_back (wk : Worker) : Worker :=
  {| position := position wk; needs_rollback := false;
     closed_session := closed_session wk; logged := logged wk |}.

(** [session.close()] *)
Definition closed (wk : Worker) : Worker :=
  {| position := position wk; needs_rollback := false;
     closed_session := true; logged := logged wk |}.

Definition add_logged (entry : LogEntry) (wk : Worker) : Worker :=
  {| position := position wk; needs_rollback := needs_rollback wk;
     closed_session := closed_session wk; logged := logged wk ++ [entry] |}.

(** Whether the database refused the statement.  The exceptions of [one()]
    and [one_or_none()] follow a statement that was executed. *)
Definition refused {A} (r : Outcome A) : bool :=
  match r with
  | Raise (IntegrityError _) | Raise (OperationalError _) => true
  | _ => false
  end.

(** What a session whose transaction is aborted answers:
    [sqlalchemy.exc.PendingRollbackError], one of the other sqlalchemy
    failures. *)
Definition pending_rollback : PyExn :=
  OperationalError
    "This Session's transaction has been rolled back due to a previous exception during flush".

(** A statement sent through the worker's session. *)
Definition session_execute {A} (stmt : Db -> Outcome A * Db) (wk : Worker)
           (d : Db) : Outcome A * Worker * Db :=
  if needs_rollback wk then (Raise pending_rollback, wk, d)
  else let '(r, d') := stmt d in (r, after_statement (refused r) wk, d').

Definition resolver_step (address : string) (wk : Worker) (d : Db)
  : Worker * Db :=
  match position wk with
  | AtQuery =>
      let '(r, wk', d') :=
        session_execute (query_address_one_or_none address) wk d in
      (match r with
       | Return (Some row) => goto (AtClose (Return (Some (address_id row)))) wk'
       | Return None => goto AtInsert wk'
       | Raise (IntegrityError _) => goto AtRollback wk'
       | Raise e => goto (AtError e) wk'
       end, d')
  | AtInsert =>
      let '(r, wk', d') := session_execute (insert_address address) wk d in
      (match r with
       | Return row => goto (AtClose (Return (Some (address_id row)))) wk'
       | Raise (IntegrityError _) => goto AtRollback wk'
       | Raise e => goto (AtError e) wk'
       end, d')
  | AtRollback => (goto AtReread (rolled_back wk), d)
  | AtReread =>
      let '(r, wk', d') := session_execute (query_address_one address) wk d in
      (match r with
       | Return row => goto (AtClose (Return (Some (address_id row)))) wk'
       | Raise e => goto (AtClose (Raise e)) wk'
       end, d')
  | AtError e =>
      (goto (AtClose (Return None))
            (rolled_back (add_logged (ResolverError e) wk)), d)
  | AtClose r => (goto (Finished r) (closed wk), d)
  | Finished r => (wk, d)
  end.

(** One worker alone: its next [n] steps. *)
Fixpoint resolver_run (address : string) (n : nat) (wk : Worker) (d : Db)
  : Worker * Db :=
  match n with
  | O => (wk, d)
  | S n' =>
      let '(wk', d') := resolver_step address wk d in
      resolver_run address n' wk' d'
  end.

(** Two workers resolving [address]; [true] in the schedule lets the first
    one take its next step, [false] the second one. *)
Fixpoint run_schedule (address : string) (schedule : list bool)
         (wk1 wk2 : Worker) (d : Db) : Worker * Worker * Db :=
  match schedule with
  | [] => (wk1, wk2, d)
  | true :: rest =>
      let '(wk1', d') := resolver_step address wk1 d in
      run_schedule address rest wk1' wk2 d'
  | false :: rest =>
      let '(wk2', d') := resolver_step address wk2 d in
      run_schedule address rest wk1 wk2' d'
  end.

(** What a worker may rely on where it stands, on a store that plans no
    failure: its transaction is usable when it is about to send a statement,
    and once it has seen a row, or has been refused an insert, the row is
    there. *)
Definition settled (a : string) (wk : Worker) (d : Db) : Prop :=
  match position wk with
  | AtQuery | AtInsert => needs_rollback wk = false
  | AtRollback => exists row, address_rows a d = [row]
  | AtReread =>
      needs_rollback wk = false /\ exists row, address_rows a d = [row]
  | AtError _ => False
  | AtClose r | Finished r =>
      exists row, address_rows a d = [row]
                  /\ r = Return (Some (address_id row))
  end.

Definition at_most_one (a : string) (d : Db) : Prop :=
  address_rows a d = [] \/ exists row, address_rows a d = [row].

(** Steps left, at most, before a worker has returned. *)
Definition rank (p : Pc) : nat :=
  match p with
  | AtQuery => 5
  | AtInsert => 4
  | AtRollback => 3
  | AtReread => 2
  | AtError _ => 2
  | AtClose _ => 1
  | Finished _ => 0
  end.

End Resolver.

(** ** Batch flush: [__save] *)

Module Flush.
Import Store Env.

(** [re.search(r'\(hash\)=\((.*?)\)', text)], group 1: the first place
    where ["(hash)=("] is followed, on the same line, by [")"]. *)
Fixpoint until_close (s : string) : option string :=
  match s with
  | EmptyString => None
  | String c rest =>
      if Ascii.eqb c ")"%char then Some EmptyString
      else if Ascii.eqb c (ascii_of_nat 10) then None
      else match until_close rest with
           | Some g => Some (String c g)
           | None => None
           end
  end.

Fixpoint string_drop (n : nat) (s : string) : string :=
  match n, s with
  | S n', String _ rest => string_drop n' rest
  | _, _ => s
  end.

Fixpoint search_hash (s : string) : option string :=
  match s with
  | EmptyString => None
  | String _ rest =>
      if String.prefix "(hash)=(" s
      then match until_close (string_drop 8 s) with
           | Some g => Some g
           | None => search_hash rest
           end
      else search_hash rest
  end.

Fixpoint log_conflicting (rows : list Transaction) : M World unit :=
  match rows with
  | [] => ret tt
  | tx :: rest =>
      exec logger (ConflictingTransaction (hash tx)) ; log_conflicting rest
  end.

(** [__save(session, transactions_to_batch, thread_id)] *)
Definition save (thread_id : Z) : M World unit :=
  try_except
    (do b <- gets batch ;
     exec logger (AboutToSave (length b) thread_id) ;
     exec bulk_save_objects b ;
     exec session_commit ;
     modify (set_batch []))
    (fun e =>
       match e with
       | IntegrityError detail =>
           exec session_rollback ;
           exec logger (DuplicateKeyError e) ;
           match search_hash detail with
           | Some conflicting_hash =>
               exec logger (ConflictDetected conflicting_hash) ;
               do b <- gets batch ;
               exec log_conflicting (hash_rows conflicting_hash b) ;
               do existing <-
                  execute (query_transaction_first conflicting_hash) ;
               match existing with
               | Some row => logger (ExistingTransaction (hash row))
               | None => ret tt
               end
           | None => ret tt
           end
       | _ =>
           exec logger (UnexpectedSaveError e thread_id) ;
           session_rollback
       end).

(** Lines 216-217: the flush of a full batch, and the [clear()] after it. *)
Definition flush_full_batch (thread_id : Z) : M World unit :=
  exec save thread_id ; modify (set_batch []).

End Flush.

(** ** Range partitioner: [__block_ranges] *)

Module Partitioner.

(** The generator's only state is its cursor [current].  One call of
    [next()] either yields a pair and moves the cursor, or stops. *)
Definition block_ranges_next (current end_ step : Z)
  : option ((Z * Z) * Z) :=
  if current <=? end_
  then Some ((current, Z.min (current + step - 1) end_), current + step)
  else None.

(** Draining the generator ([list(__block_ranges(...))]).  The Python loop
    does not stop when [step <= 0], hence the fuel: [None] is "still
    running". *)
Fixpoint block_ranges (fuel : nat) (start end_ step : Z)
  : option (list (Z * Z)) :=
  match fuel with
  | O => None
  | S fuel' =>
      match block_ranges_next start end_ step with
      | None => Some []
      | Some (r, current') =>
          match block_ranges fuel' current' end_ step with
          | Some rs => Some (r :: rs)
          | None => None
          end
      end
  end.

(** The block numbers of an inclusive range. *)
Definition blocks_of (r : Z * Z) : list Z :=
  seqZ (fst r) (snd r - fst r + 1).

(** Enough fuel to drain the generator when [step >= 1]. *)
Definition enough_fuel (start end_ : Z) : nat :=
  S (Z.to_nat (end_ - start + 1)).

End Partitioner.

(** ** Producer: [call_api_and_produce] *)

Module Producer.
Import Ledger Builtins.

Definition set_current_block (b : Z) (s : State) : State :=
  {| calls := calls s; trace := trace s; queue := queue s;
     current_block := b; block_window_amount := block_window_amount s |}.

Definition set_block_window_amount (w : Z) (s : State) : State :=
  {| calls := calls s; trace := trace s; queue := queue s;
     current_block := current_block s; block_window_amount := w |}.

(** [transaction_queue.put(tx)] *)
Definition queue_put (tx : RawRecord) (s : State) : State :=
  {| calls := calls s; trace := trace s; queue := queue s ++ [tx];
     current_block := current_block s;
     block_window_amount := block_window_amount s |}.

Definition log (entry : LogEntry) : M State unit := modify (emit (Log entry)).

(** [len(r)] and the truth value of [r], for a list or a string. *)
Definition result_len (r : ApiResult) : Z :=
  match r with
  | ResultList records => Z.of_nat (length records)
  | ResultMessage m => Z.of_nat (String.length m)
  end.

Definition truthy (r : ApiResult) : bool := negb (result_len r =? 0).

(** [len(data.get("result", []))] *)
Definition get_result_len (data : ApiData) : Z :=
  match result data with
  | Some r => result_len r
  | None => 0
  end.

(** [int(tx["value"]) > 0 and tx["isError"] != "1"] *)
Definition keep (tx : RawRecord) : Outcome bool :=
  let! value := getitem tx "value" in
  let! v := py_int value in
  if v >? 0
  then let! is_error := getitem tx "isError" in
       Return (negb (String.eqb is_error "1"))
  else Return false.

(** The body of [for tx in data["result"]] for one record. *)
Definition filter_and_put (tx : RawRecord) : M State unit :=
  do k <- lift (keep tx) ;
  if k then modify (queue_put tx) else ret tt.

Fixpoint enqueue_records (records : list RawRecord) : M State unit :=
  match records with
  | [] => ret tt
  | tx :: rest => exec filter_and_put tx ; enqueue_records rest
  end.

(** [for tx in data["result"]: ...]; iterating over a non-empty string
    yields one-character strings, and indexing one with ["value"] fails. *)
Definition enqueue_result (r : ApiResult) : M State unit :=
  match r with
  | ResultList records => enqueue_records records
  | ResultMessage EmptyString => ret tt
  | ResultMessage (String _ _) =>
      raise (TypeError "string indices must be integers")
  end.

Section Loop.
Variable cfg : Config.
Variable api : nat -> ApiRequest -> Outcome ApiData.
Variables (address : string) (ending_block : Z) (thread_id : Z).

(** [BLOCK_ATTEMPTS[i] if i < len(BLOCK_ATTEMPTS) else 20] *)
Definition next_window (block_attempt_index : nat) : Z :=
  match BLOCK_ATTEMPTS cfg !! block_attempt_index with
  | Some w => w
  | None => 20
  end.

(** The inner [while len(data.get("result", [])) >= RECORD_RETRIEVAL_LIMIT]
    loop; returns the last response and [tentative_end_block]. *)
Fixpoint overflow_loop (fuel : nat) (data : ApiData)
         (tentative_end_block : Z) (block_attempt_index : nat)
  : M State (ApiData * Z) :=
  if get_result_len data >=? RECORD_RETRIEVAL_LIMIT cfg then
    match fuel with
    | O => still_running
    | S fuel' =>
        do window <- gets block_window_amount ;
        exec log (TooManyRecords window (get_result_len data)) ;
        let window := next_window block_attempt_index in
        exec modify (set_block_window_amount window) ;
        do current <- gets current_block ;
        let tentative_end_block := Z.min (current + window) ending_block in
        exec log (AdjustingRange window tentative_end_block) ;
        do data <- call_etherscan cfg api address (Some thread_id)
                                  current tentative_end_block ;
        overflow_loop fuel' data tentative_end_block (S block_attempt_index)
    end
  else ret (data, tentative_end_block).

(** The outer [while current_block <= ending_block] loop. *)
Fixpoint produce_loop (fuel : nat) : M State unit :=
  do current <- gets current_block ;
  if current <=? ending_block then
    match fuel with
    | O => still_running
    | S fuel' =>
        exec log (NewLoop (Some thread_id) current ending_block) ;
        let tentative_end_block :=
          Z.min (current + BASE_BLOCK_ATTEMPT cfg) ending_block in
        do data <- call_etherscan cfg api address (Some thread_id)
                                  current tentative_end_block ;
        do r <- lift (data_result data) ;
        if negb (truthy r) then
          exec log (NoTransactionsFound address current tentative_end_block) ;
          exec modify (set_current_block (tentative_end_block + 1)) ;
          produce_loop fuel'
        else
          do (data, tentative_end_block) <-
             overflow_loop fuel' data tentative_end_block 0 ;
          do r <- lift (data_result data) ;
          do window <- gets block_window_amount ;
          exec log (ApiCallSuccess (result_len r) window) ;
          exec enqueue_result r ;
          exec (if truthy r then
                  exec log (ChangingCurrentBlock current) ;
                  exec modify (set_current_block (tentative_end_block + 1)) ;
                  exec log (NewCurrentBlock (tentative_end_block + 1)) ;
                  modify (set_block_window_amount (BASE_BLOCK_ATTEMPT cfg))
                else ret tt) ;
          produce_loop fuel'
    end
  else ret tt.

(** The whole worker: initialisation, the loop under
    [try: ... except Exception: log; raise; finally: log]. *)
Definition call_api_and_produce (fuel : nat) (starting_block : Z)
  : M State unit :=
  exec modify (set_current_block starting_block) ;
  exec modify (set_block_window_amount
                 (if negb (DEV_MODE cfg) then BASE_BLOCK_ATTEMPT cfg
                  else DEV_STEP cfg)) ;
  try_finally
    (try_except (produce_loop fuel)
                (fun e => exec log (ProduceFailed e) ; raise e))
    (do current <- gets current_block ;
     log (ReachedEndblock current ending_block)).

End Loop.

(** A record the filter can read: its value is an integer literal and it
    carries an error flag. *)
Definition well_formed (tx : RawRecord) : Prop :=
  exists (value is_error : string) (v : Z),
    tx !! "value" = Some value /\ py_int value = Return v
    /\ tx !! "isError" = Some is_error.

Definition kept (tx : RawRecord) : bool :=
  match keep tx with
  | Return true => true
  | _ => false
  end.

Definition set_queue (q : list RawRecord) (s : State) : State :=
  {| calls := calls s; trace := trace s; queue := q;
     current_block := current_block s;
     block_window_amount := block_window_amount s |}.

(** The response body that carries the list [records]. *)
Definition response_of (records : list RawRecord) : Outcome ApiData :=
  Return {| result := Some (ResultList records) |}.

End Producer.

(** ** Consumer: [consume] *)

Module Consumer.
Import Store Env Builtins Resolver Flush.

(** [transaction_queue.get(timeout=5)] *)
Definition queue_timeout : nat := 5.

(** Waiting on an empty queue for at most [remaining] units of time: the
    first record a producer puts is taken at once; without one the wait
    ends when the time is up. *)
Fixpoint wait_for_item (events : list EnvEvent) (remaining : nat)
         (is_set : bool) (now : Z) {struct events}
  : option RawRecord * list EnvEvent * bool * Z :=
  match remaining with
  | O => (None, events, is_set, now)
  | S remaining' =>
      match events with
      | [] => (None, [], is_set, now + Z.of_nat remaining)
      | Put raw :: rest => (Some raw, rest, is_set, now)
      | SetDone :: rest => wait_for_item rest remaining true now
      | Tick :: rest => wait_for_item rest remaining' is_set (now + 1)
      end
  end.

Definition queue_get (timeout : nat) : M World RawRecord :=
  fun w =>
    match queue w with
    | raw :: rest =>
        Some (Return raw, set_channel rest (done w) (env w) (clock w) w)
    | [] =>
        let '(got, events, is_set, now) :=
          wait_for_item (env w) timeout (done w) (clock w) in
        let w' := set_channel [] is_set events now w in
        match got with
        | Some raw => Some (Return raw, w')
        | None => Some (Raise QueueEmpty, w')
        end
    end.

(** [int(transaction[key])] *)
Definition int_field (raw : RawRecord) (key : string) : Outcome Z :=
  let! s := getitem raw key in py_int s.

(** The [Transaction(...)] call of lines 203-213, its arguments evaluated
    in the order written. *)
Definition make_transaction (raw : RawRecord)
           (from_id to_id : option Z) : Outcome Transaction :=
  let! bn := int_field raw "blockNumber" in
  let! ts := int_field raw "timeStamp" in
  let! ts := fromtimestamp_utc ts in
  let! h := getitem raw "hash" in
  let! v := int_field raw "value" in
  let! g := int_field raw "gas" in
  let! gu := int_field raw "gasUsed" in
  let! ie := int_field raw "isError" in
  Return {| block_number := bn; time_stamp := ts; hash := h;
            from_address_id := from_id; to_address_id := to_id;
            value := v; gas := g; gas_used := gu; is_error := ie |}.

(** The fields [make_transaction] reads with [int]. *)
Definition int_fields : list string :=
  ["blockNumber"; "timeStamp"; "value"; "gas"; "gasUsed"; "isError"].

(** A record one of whose integer fields is not an integer literal. *)
Definition malformed (raw : RawRecord) : Prop :=
  exists (key s : string) (e : PyExn),
    key ∈ int_fields /\ raw !! key = Some s /\ py_int s = Raise e.

Inductive Ctl : Type := Continue | Break.

Section Worker.
Variable cfg : Config.
Variable thread_id : Z.

(** Lines 200-222: what is done with one dequeued record. *)
Definition process_record (raw : RawRecord) : M World unit :=
  do from_address <- lift (getitem raw "from") ;
  do from_id <- get_or_create_address from_address ;
  do to_address <- lift (getitem raw "to") ;
  do to_id <- get_or_create_address to_address ;
  do tx <- lift (make_transaction raw from_id to_id) ;
  do b <- gets batch ;
  exec modify (set_batch (b ++ [tx])) ;
  do b <- gets batch ;
  if Z.of_nat (length b) >=? SAVE_BATCH_LIMIT cfg then
    exec save thread_id ;
    exec modify (set_batch []) ;
    do q <- gets queue ;
    do n <- execute count_transactions ;
    logger (BatchSaved (length q) n)
  else ret tt.

(** The [except queue.Empty] clause of lines 223-232; any other exception
    goes on. *)
Definition on_exception (e : PyExn) : M World Ctl :=
  match e with
  | QueueEmpty =>
      do is_set <- gets done ;
      if is_set
      then exec logger (ProducersFinished thread_id) ; ret Break
      else exec logger (QueueEmptyWaiting thread_id) ; ret Continue
  | _ => raise e
  end.

(** One pass through the body of the [while], lines 198-232. *)
Definition loop_body : M World Ctl :=
  try_except
    (do raw <- queue_get queue_timeout ;
     exec process_record raw ;
     ret Continue)
    on_exception.

(** [not producers_all_done_event.is_set() or not transaction_queue.empty()] *)
Definition keep_running (w : World) : bool :=
  negb (done w) || negb (bool_decide (queue w = [])).

Fixpoint consume_loop (fuel : nat) : M World unit :=
  do go <- gets keep_running ;
  if go then
    match fuel with
    | O => still_running
    | S fuel' =>
        do c <- loop_body ;
        match c with
        | Continue => consume_loop fuel'
        | Break => ret tt
        end
    end
  else ret tt.

(** Lines 234-236: the last, possibly short, flush. *)
Definition final_flush : M World unit :=
  do b <- gets batch ;
  match b with
  | [] => ret tt
  | _ :: _ =>
      exec save thread_id ;
      do b <- gets batch ;
      logger (FinalBatchSaved (length b))
  end.

(** The [try: ... except Exception: ... finally: ...] of lines 195-241,
    entered with the batch and session as they are. *)
Definition consume_guarded (fuel : nat) : M World unit :=
  try_finally
    (try_except
       (exec consume_loop fuel ; final_flush)
       (fun e => logger (ConsumerShuttingDown e)))
    (exec session_close ; logger (SessionClosed thread_id)).

(** The world the [finally] clause leaves. *)
Definition closed_world (w : World) : World :=
  add_log (SessionClosed thread_id) (set_session_closed true (set_pending [] w)).

(** The world in which the [try] statement is entered (lines 191-193). *)
Definition started_world (w : World) : World :=
  set_batch [] (set_session_closed false (add_log (ConsumerStarting thread_id) w)).

Definition consume (fuel : nat) : M World unit :=
  exec logger (ConsumerStarting thread_id) ;
  exec modify (set_session_closed false) ;
  exec modify (set_batch []) ;
  consume_guarded fuel.

End Worker.

End Consumer.

(** ** Concrete inputs *)

Module Examples.
Import Ledger Store Env.

(** The page limit is Etherscan's 10000 (docstring of
    [call_api_and_produce]); the windows are those of the overflow scenario
    of section 8 of the specification. *)
Definition sample_cfg : Config :=
  {| RECORD_RETRIEVAL_LIMIT := 10000; API_KEY := "key";
     API_RATE_LIMIT_DELAY := 1; BASE_BLOCK_ATTEMPT := 100;
     BLOCK_ATTEMPTS := [50; 20]; DEV_MODE := false; DEV_STEP := 10;
     SAVE_BATCH_LIMIT := 2 |}.

Definition sample_record (block h sender receiver v flag : string) : RawRecord :=
  list_to_map
    [("blockNumber", block); ("timeStamp", "1700000000"); ("hash", h);
     ("from", sender); ("to", receiver); ("value", v); ("gas", "21000");
     ("gasUsed", "20000"); ("isError", flag)].

(** A remote API that answers from a fixed ledger: the records of the asked
    block range, in ledger order, cut at the page size. *)
Definition ledger_api (ledger : list (Z * RawRecord))
  : nat -> ApiRequest -> Outcome ApiData :=
  fun _ req =>
    Return {| result := Some (ResultList
       (take (Z.to_nat (req_offset req))
             (snd <$> List.filter
                    (fun entry => (req_startblock req <=? fst entry)
                                  && (fst entry <=? req_endblock req))
                    ledger))) |}.

(** 10000 transfers, all of them in block 80. *)
Definition busy_block_ledger : list (Z * RawRecord) :=
  replicate (Z.to_nat 10000) (80, sample_record "80" "0xh" "0xa" "0xb" "5" "0").

(** What [ledger_api ledger] returns for a block range. *)
Definition ledger_page (limit : Z) (ledger : list (Z * RawRecord))
           (startblock endblock : Z) : list RawRecord :=
  take (Z.to_nat limit)
       (snd <$> List.filter
              (fun entry => (startblock <=? fst entry) && (fst entry <=? endblock))
              ledger).

(** Three transfers: a good one in block 80, one of value 0 in block 150 and
    a failed one in block 260. *)
Definition small_ledger : list (Z * RawRecord) :=
  [(80, sample_record "80" "0xh" "0xa" "0xb" "5" "0");
   (150, sample_record "150" "0xi" "0xa" "0xb" "0" "0");
   (260, sample_record "260" "0xj" "0xa" "0xb" "5" "1")].


(** An API that always answers with the rate-limit body. *)
Definition always_rate_limited : nat -> ApiRequest -> Outcome ApiData :=
  fun _ _ => Return rate_limited_body.

Definition idle_thread : State :=
  {| calls := O; trace := []; Ledger.queue := []; current_block := 0;
     block_window_amount := 0 |}.

Definition empty_db : Db :=
  {| addresses := []; next_address_id := 1; transactions := []; faults := [] |}.

(** A store whose next statement fails with an error that is not an
    integrity error. *)
Definition failing_db : Db :=
  {| addresses := []; next_address_id := 1; transactions := [];
     faults := [Some (ConnectionFault "server closed the connection")] |}.

(** A transfer of 5 from ["0xa"] to ["0xb"] in block 80, as the API returns
    it, with the given hash. *)
Definition transfer (h : string) : RawRecord :=
  sample_record "80" h "0xa" "0xb" "5" "0".

(** The same transfer with a value that is not an integer literal. *)
Definition malformed_transfer (h : string) : RawRecord :=
  sample_record "80" h "0xa" "0xb" "five" "0".


(** The entity built from [transfer h] once both addresses are resolved. *)
Definition stored_transfer (h : string) : Transaction :=
  {| block_number := 80; time_stamp := 1700000000; hash := h;
     from_address_id := Some 1; to_address_id := Some 2; value := 5;
     gas := 21000; gas_used := 20000; is_error := 0 |}.

(** A store that already holds the transfer with hash ["0xh"]. *)
Definition stored_db : Db :=
  {| addresses := [{| address_id := 1; address := "0xa" |};
                   {| address_id := 2; address := "0xb" |}];
     next_address_id := 3; transactions := [stored_transfer "0xh"];
     faults := [] |}.

(** A consumer's world once the producers are done, with [q] left in the
    queue. *)
Definition drained_world (d : Db) (q : list RawRecord) : World :=
  {| db := d; log := []; Env.queue := q; done := true; env := [];
     clock := 0; pending := []; session_closed := true; batch := [] |}.

(** A consumer's world while the producers are still at work, with [q] in
    the queue. *)
Definition working_world (q : list RawRecord) : World :=
  {| db := empty_db; log := []; Env.queue := q; done := false; env := [];
     clock := 0; pending := []; session_closed := false; batch := [] |}.

(** A consumer blocked on the empty queue before the event is set, with
    [events] to come. *)
Definition waiting_world (events : list EnvEvent) : World :=
  {| db := empty_db; log := []; Env.queue := []; done := false; env := events;
     clock := 0; pending := []; session_closed := false; batch := [] |}.

End Examples.

(** ** The permit pool seen through a thread's trace *)

Module Permits.
Import Ledger.

(** Where a thread stands with [api_call_semaphore]: it holds no permit, or
    it holds one permit under which it has sent [sent] requests so far. *)
Inductive Permit : Type :=
| Free
| Held (sent : nat).

(** Where the thread stands after [events], starting from [p]; [None] when
    it takes a permit while it holds one, sends a request while it holds
    none or a second request under the same permit, or gives back a permit
    it does not hold or under which it sent no request. *)
Fixpoint permits_held (events : list Event) (p : Permit) : option Permit :=
  match events with
  | [] => Some p
  | SemAcquire :: rest =>
      match p with
      | Free => permits_held rest (Held 0)
      | Held _ => None
      end
  | HttpGet _ :: rest =>
      match p with
      | Held O => permits_held rest (Held 1)
      | _ => None
      end
  | SemRelease :: rest =>
      match p with
      | Held 1 => permits_held rest Free
      | _ => None
      end
  | _ :: rest => permits_held rest p
  end.

(** The requests sent in [events], in order. *)
Fixpoint requests_sent (events : list Event) : list ApiRequest :=
  match events with
  | [] => []
  | HttpGet r :: rest => r :: requests_sent rest
  | _ :: rest => requests_sent rest
  end.

End Permits.

(** ** What a producer run collects *)

Module ProducerRuns.
Import Ledger Producer.

(** The records of the range [r] that the filter keeps, for a ledger that
    holds [held a b] between the blocks [a] and [b]. *)
Definition kept_of (held : Z -> Z -> list RawRecord) (r : Z * Z)
  : list RawRecord :=
  List.filter kept (held (fst r) (snd r)).


(** [s'] is [s] with some records put on the queue, every one of which the
    filter keeps. *)
Definition only_kept_added (s s' : State) : Prop :=
  exists added : list RawRecord,
    queue s' = queue s ++ added /\ Forall (fun tx => kept tx = true) added.

(** The loop variables are those of [s]. *)
Definition same_cursor (s s' : State) : Prop :=
  current_block s' = current_block s.

End ProducerRuns.

(** ** Labels the conflict report can read back *)

Module FlushRuns.

(** A label without a closing parenthesis and without a line feed, the two
    characters at which the pattern of [__save] stops reading. *)
Definition plain_label (h : string) : Prop :=
  forall c : ascii,
    In c (list_ascii_of_string h) -> c <> ")"%char /\ c <> ascii_of_nat 10.

(** The store [d] with the plan of failures [plan]. *)
Definition set_faults (plan : list (option Store.DbFault)) (d : Store.Db)
  : Store.Db :=
  {| Store.addresses := Store.addresses d;
     Store.next_address_id := Store.next_address_id d;
     Store.transactions := Store.transactions d; Store.faults := plan |}.

(** [str(e)] of an [IntegrityError]. *)
Definition detail_of (e : PyExn) : string :=
  match e with
  | IntegrityError detail => detail
  | _ => EmptyString
  end.

End FlushRuns.

(** ** Records the consumer can store *)

Module ConsumerRuns.
Import Store Env Consumer.

(** [transaction["hash"]], for a record that has one. *)
Definition record_hash (raw : RawRecord) : string :=
  default EmptyString (raw !! "hash").

(** A record with a sender, a receiver and the fields of a transaction. *)
Definition readable (raw : RawRecord) : Prop :=
  exists (sender receiver : string) (tx : Transaction),
    raw !! "from" = Some sender /\ raw !! "to" = Some receiver
    /\ make_transaction raw None None = Return tx.

(** [tx] is the entity of [raw], pointing at the rows that the store [d]
    holds for its two addresses. *)
Definition stored_as (d : Db) (raw : RawRecord) (tx : Transaction) : Prop :=
  exists sender receiver : Address,
    sender ∈ addresses d /\ receiver ∈ addresses d
    /\ raw !! "from" = Some (address sender)
    /\ raw !! "to" = Some (address receiver)
    /\ make_transaction raw (Some (address_id sender))
                         (Some (address_id receiver)) = Return tx.

(** A store that plans no failure and keeps addresses unique, seen through a
    session with nothing pending. *)
Definition healthy (w : World) : Prop :=
  faults (db w) = [] /\ pending w = [] /\ unique_addresses (db w).

(** No hash stands twice among the stored rows and the rows the session
    has inserted and not yet committed. *)
Definition distinct_hashes (w : World) : Prop :=
  NoDup (hash <$> transactions (db w) ++ pending w).

Definition keeps_hashes_distinct (w w' : World) : Prop :=
  distinct_hashes w -> distinct_hashes w'.

(** The batch is as it was, or empty. *)
Definition batch_kept_or_cleared (w w' : World) : Prop :=
  batch w' = batch w \/ batch w' = [].

(** The length the batch stays below between two records. *)
Definition batch_bound (cfg : Config) : Z := Z.max (SAVE_BATCH_LIMIT cfg) 1.

End ConsumerRuns.

(** ** Coordinator: the dispatch loop of [start] *)

Module Coordinator.
Import Partitioner.

(** What lines 262-301 keep track of: the cursor of [block_generator], the
    list [futures] of producers in flight (a future is named by the thread
    id of its producer), the counter [thread_id], and the calls of
    [executor.submit(call_api_and_produce, DEFAULT_ADDRESS, *new_range,
    queue_for_transactions, thread_id)] made so far. *)
Record Dispatch : Type := {
  cursor : Z;
  futures : list Z;
  thread_id : Z;
  submitted : list (Z * (Z * Z))
}.

(** [futures.remove(future)] *)
Fixpoint remove_future (future : Z) (fs : list Z) : list Z :=
  match fs with
  | [] => []
  | f :: rest => if f =? future then rest else f :: remove_future future rest
  end.

Definition forget (future : Z) (d : Dispatch) : Dispatch :=
  {| cursor := cursor d; futures := remove_future future (futures d);
     thread_id := thread_id d; submitted := submitted d |}.

Section Dispatch.
Variable cfg : Config.
Variable ending_block : Z.
(** [PRODUCER_THREAD_COUNT] *)
Variable producer_thread_count : nat.
(** [as_completed(fs)]: the futures of [fs] that complete, in the order in
    which they do.  Once they are used up the iterator stops if every future
    of [fs] has completed, and blocks otherwise. *)
Variable as_completed : list Z -> list Z.

(** [BASE_BLOCK_ATTEMPT if not DEV_MODE else DEV_STEP] *)
Definition generator_step : Z :=
  if negb (DEV_MODE cfg) then BASE_BLOCK_ATTEMPT cfg else DEV_STEP cfg.

(** [new_range = next(block_generator)], the submission of a producer for
    it and [thread_id += 1]; [None] is [StopIteration]. *)
Definition submit_next (d : Dispatch) : option Dispatch :=
  match block_ranges_next (cursor d) ending_block generator_step with
  | Some (new_range, current) =>
      Some {| cursor := current; futures := futures d ++ [thread_id d];
              thread_id := thread_id d + 1;
              submitted := submitted d ++ [(thread_id d, new_range)] |}
  | None => None
  end.

(** Lines 279-288: [for _ in range(PRODUCER_THREAD_COUNT)], left at the
    first [StopIteration]. *)
Fixpoint initial_fill (n : nat) (d : Dispatch) : Dispatch :=
  match n with
  | O => d
  | S n' =>
      match submit_next d with
      | Some d' => initial_fill n' d'
      | None => d
      end
  end.

(** Lines 291-301, for the futures that complete: each is taken off the
    list and replaced by a producer for the next range; [true] tells that
    the loop was left by [break]. *)
Fixpoint replace_completed (completed : list Z) (d : Dispatch)
  : Dispatch * bool :=
  match completed with
  | [] => (d, false)
  | future :: rest =>
      match submit_next (forget future d) with
      | Some d' => replace_completed rest d'
      | None => (forget future d, true)
      end
  end.

(** One [for future in as_completed(futures)]; [None] when the iterator
    blocks on a future that never completes. *)
Definition for_as_completed (d : Dispatch) : option Dispatch :=
  let completed := as_completed (futures d) in
  match replace_completed completed d with
  | (d', true) => Some d'
  | (d', false) =>
      if (length completed <? length (futures d))%nat then None else Some d'
  end.

(** Line 290: [while futures]. *)
Fixpoint drain (fuel : nat) (d : Dispatch) : option Dispatch :=
  match futures d with
  | [] => Some d
  | _ :: _ =>
      match fuel with
      | O => None
      | S fuel' =>
          match for_as_completed d with
          | Some d' => drain fuel' d'
          | None => None
          end
      end
  end.

(** Lines 266-301; what follows ([producers_all_done_event.set()]) is
    reached when the result is not [None]. *)
Definition dispatch (fuel : nat) (starting_block : Z) : option Dispatch :=
  drain fuel
        (initial_fill producer_thread_count
                      {| cursor := starting_block; futures := [];
                         thread_id := 0; submitted := [] |}).

(** The states the dispatch goes through: the one the first loop leaves,
    and, from a state in which the [for] loop is entered, the state after
    each of its passes ([completed] is what [as_completed] has yielded up to
    that pass). *)
Inductive visited (starting_block : Z) : Dispatch -> Prop :=
| visited_after_fill :
    visited starting_block
            (initial_fill producer_thread_count
                          {| cursor := starting_block; futures := [];
                             thread_id := 0; submitted := [] |})
| visited_after_pass (d : Dispatch) (completed later : list Z) :
    visited starting_block d ->
    as_completed (futures d) = completed ++ later ->
    visited starting_block (fst (replace_completed completed d)).

End Dispatch.

(** The ranges the generator has still to yield from the cursor [c]. *)
Definition pending_ranges (ending_block step c : Z) (rest : list (Z * Z))
  : Prop :=
  forall fuel : nat,
    (Z.to_nat (ending_block - c + 1) < fuel)%nat ->
    block_ranges fuel c ending_block step = Some rest.

(** Futures in flight and ranges not yet handed out. *)
Definition work_left (all : list (Z * Z)) (d : Dispatch) : nat :=
  length (futures d) + (length all - length (submitted d)).

(** The dispatch so far has handed out the first ranges of [all], one per
    producer, numbering the producers from 0, and [rest] is left. *)
Definition handed_out (ending_block step : Z) (all rest : list (Z * Z))
           (d : Dispatch) : Prop :=
  pending_ranges ending_block step (cursor d) rest
  /\ (snd <$> submitted d) ++ rest = all
  /\ fst <$> submitted d = seqZ 0 (thread_id d)
  /\ 0 <= thread_id d
  /\ NoDup (futures d)
  /\ Forall (fun f => f < thread_id d) (futures d)
  /\ (futures d = [] -> rest = []).

End Coordinator.

(** ** The worker pool of [start] *)

Module Executor.
Import Coordinator.

(** What [start] submits: [consume(queue, event, consumer_thread_id)] and
    [call_api_and_produce(address, *new_range, queue, thread_id)]. *)
Inductive Task : Type :=
| ConsumerTask (consumer_thread_id : Z)
| ProducerTask (thread_id : Z).

(** [ThreadPoolExecutor(max_workers=n)] while no task has finished: the
    tasks are taken in submission order by at most [max_workers] workers, and
    a task that finds every worker busy waits. *)
Record Pool : Type := {
  max_workers : nat;
  running : list Task;
  waiting : list Task
}.

Definition new_pool (n : nat) : Pool :=
  {| max_workers := n; running := []; waiting := [] |}.

(** [executor.submit(task)] *)
Definition submit (p : Pool) (t : Task) : Pool :=
  if (length (running p) <? max_workers p)%nat
  then {| max_workers := max_workers p; running := running p ++ [t];
          waiting := waiting p |}
  else {| max_workers := max_workers p; running := running p;
          waiting := waiting p ++ [t] |}.

Section Start.
Variable cfg : Config.
Variable ending_block : Z.
(** [PRODUCER_THREAD_COUNT], [DEV_PRODUCER_THREAD_COUNT] and
    [CONSUMER_THREAD_COUNT] *)
Variables (producer_thread_count dev_producer_thread_count
           consumer_thread_count : nat).

(** [PRODUCER_THREAD_COUNT if not DEV_MODE else DEV_PRODUCER_THREAD_COUNT] *)
Definition pool_size : nat :=
  if negb (DEV_MODE cfg) then producer_thread_count
  else dev_producer_thread_count.

(** The state of the dispatch when the first loop is left (line 288). *)
Definition first_round (starting_block : Z) : Dispatch :=
  initial_fill cfg ending_block producer_thread_count
               {| cursor := starting_block; futures := []; thread_id := 0;
                  submitted := [] |}.

(** Lines 269-288: the pool after the consumers, then the producers of the
    first round, are submitted. *)
Definition started_pool (starting_block : Z) : Pool :=
  foldl submit (new_pool pool_size)
        ((ConsumerTask <$> seqZ 0 (Z.of_nat consumer_thread_count))
           ++ (ProducerTask <$> (fst <$> submitted (first_round starting_block)))).

End Start.

End Executor.

(** * Properties *)

(** ** The range partitioner *)

Module PartitionerFacts.
Import Partitioner.

Lemma block_ranges_more_fuel (end_ step : Z) (fuel : nat) :
  forall (start : Z) (rs : list (Z * Z)) (fuel' : nat),
    block_ranges fuel start end_ step = Some rs ->
    (fuel <= fuel')%nat ->
    block_ranges fuel' start end_ step = Some rs.
Proof.
  induction fuel as [|fuel IH]; intros start rs fuel' Hrun Hle; [discriminate|].
  destruct fuel' as [|fuel']; [lia|].
  simpl in *.
  destruct (block_ranges_next start end_ step) as [[r current']|]; [|exact Hrun].
  destruct (block_ranges fuel current' end_ step) as [rs'|] eqn:Hrest;
    [|discriminate].
  rewrite (IH current' rs' fuel' Hrest); [exact Hrun | lia].
Qed.

(** What the generator yields from a cursor [current], whether or not the
    cursor is still inside the span. *)
Lemma block_ranges_from (end_ step : Z) (Hstep : 1 <= step) (fuel : nat) :
  forall current : Z,
    (Z.to_nat (end_ - current + 1) < fuel)%nat ->
    exists rs : list (Z * Z),
      block_ranges fuel current end_ step = Some rs
      /\ (forall (k : nat) (r : Z * Z),
            rs !! k = Some r ->
            r = (current + Z.of_nat k * step,
                 Z.min (current + Z.of_nat k * step + step - 1) end_)
            /\ current + Z.of_nat k * step <= end_)
      /\ length rs = Z.to_nat ((end_ - current) / step + 1)
      /\ concat (blocks_of <$> rs) = seqZ current (end_ - current + 1).
Proof.
  induction fuel as [|fuel IH]; intros current Hfuel; [lia|].
  simpl. unfold block_ranges_next.
  destruct (Z.leb_spec current end_) as [Hin|Hout].
  - destruct (IH (current + step)) as (rs & Hrun & Hnth & Hlen & Hcover); [lia|].
    rewrite Hrun. eexists; split; [reflexivity|].
    split; [|split].
    + intros [|k] r Hk; simpl in Hk.
      * inversion Hk; subst. split; [f_equal; f_equal; lia | lia].
      * destruct (Hnth k r Hk) as [-> Hle].
        split; [f_equal; [|f_equal]; lia | lia].
    + simpl. rewrite Hlen.
      replace (end_ - (current + step)) with (end_ - current + (-1) * step) by lia.
      rewrite Z.div_add by lia.
      assert (0 <= (end_ - current) / step) by (apply Z.div_pos; lia).
      lia.
    + rewrite fmap_cons. cbn [concat]. rewrite Hcover.
      unfold blocks_of; cbn [fst snd].
      destruct (Z.le_gt_cases (current + step - 1) end_) as [Hfull|Hshort].
      * rewrite Z.min_l by lia.
        replace (current + step - 1 - current + 1) with step by lia.
        replace (seqZ current (end_ - current + 1))
          with (seqZ current (step + (end_ - (current + step) + 1)))
          by (f_equal; lia).
        now rewrite (seqZ_app current step) by lia.
      * rewrite Z.min_r by lia.
        rewrite (seqZ_nil (current + step)) by lia.
        now rewrite app_nil_r.
  - exists []. split; [reflexivity|]. split; [|split].
    + intros k r Hk. destruct k; discriminate.
    + assert ((end_ - current) / step < 0) by (apply Z.div_lt_upper_bound; lia).
      simpl. lia.
    + simpl. now rewrite seqZ_nil by lia.
Qed.

(** C3.  For [start <= end_] and [step >= 1] the generator stops, and what it
    yields is the successive inclusive pairs
    [(start + k*step, min (start + k*step + step - 1) end_)], one for every
    cursor [start + k*step] that does not exceed [end_]; their block numbers,
    put end to end, are exactly [start, ..., end_], each once and in order.
    [(100, 250, 100)] yields [(100,199), (200,250)]. *)
Theorem block_ranges_cover (start end_ step : Z) :
  start <= end_ -> 1 <= step ->
  exists rs : list (Z * Z),
    (forall fuel : nat, (enough_fuel start end_ <= fuel)%nat ->
                        block_ranges fuel start end_ step = Some rs)
    /\ (forall (k : nat) (r : Z * Z),
          rs !! k = Some r ->
          r = (start + Z.of_nat k * step,
               Z.min (start + Z.of_nat k * step + step - 1) end_)
          /\ start + Z.of_nat k * step <= end_)
    /\ length rs = Z.to_nat ((end_ - start) / step + 1)
    /\ concat (blocks_of <$> rs) = seqZ start (end_ - start + 1)
    /\ block_ranges (enough_fuel 100 250) 100 250 100
       = Some [(100, 199); (200, 250)].
Proof.
  intros Hspan Hstep.
  destruct (block_ranges_from end_ step Hstep (enough_fuel start end_) start)
    as (rs & Hrun & Hnth & Hlen & Hcover); [unfold enough_fuel; lia|].
  exists rs. split; [|split; [|split; [|split]]]; try assumption.
  - intros fuel Hfuel. now apply (block_ranges_more_fuel _ _ _ _ _ _ Hrun).
  - vm_compute. reflexivity.
Qed.

Lemma block_ranges_cover_witness :
  exists rs : list (Z * Z),
    (forall fuel : nat, (enough_fuel 100 250 <= fuel)%nat ->
                        block_ranges fuel 100 250 100 = Some rs)
    /\ (forall (k : nat) (r : Z * Z),
          rs !! k = Some r ->
          r = (100 + Z.of_nat k * 100,
               Z.min (100 + Z.of_nat k * 100 + 100 - 1) 250)
          /\ 100 + Z.of_nat k * 100 <= 250)
    /\ length rs = Z.to_nat ((250 - 100) / 100 + 1)
    /\ concat (blocks_of <$> rs) = seqZ 100 (250 - 100 + 1)
    /\ block_ranges (enough_fuel 100 250) 100 250 100
       = Some [(100, 199); (200, 250)].
Proof. apply (block_ranges_cover 100 250 100); lia. Defined.

End PartitionerFacts.

(** ** The remote ledger client *)

Module LedgerFacts.
Import Ledger.

Section Client.
Variable cfg : Config.
Variable api : nat -> ApiRequest -> Outcome ApiData.
Variables (req : ApiRequest) (thread_id : option Z).

Lemma advance_0 (s : State) : advance 0 [] s = s.
Proof.
  destruct s; unfold advance; simpl. now rewrite Nat.add_0_r, app_nil_r.
Qed.

Lemma advance_advance (n m : nat) (e1 e2 : list Event) (s : State) :
  advance m e2 (advance n e1 s) = advance (n + m) (e1 ++ e2) s.
Proof.
  unfold advance; simpl. f_equal; [lia | now rewrite app_assoc].
Qed.

Lemma guarded_request_returns (s : State) (data : ApiData) :
  api (calls s) req = Return data ->
  guarded_request cfg api req thread_id s
  = Some (Return data, advance 1 (completed_attempt cfg req thread_id) s).
Proof.
  intros Hapi.
  unfold guarded_request, try_finally, bind, modify, gets, lift, ret; simpl.
  rewrite Hapi; simpl. unfold advance, emit; simpl.
  do 2 f_equal. f_equal; [lia | now rewrite <- !app_assoc].
Qed.

Lemma guarded_request_raises (s : State) (e : PyExn) :
  api (calls s) req = Raise e ->
  guarded_request cfg api req thread_id s
  = Some (Raise e, advance 1 (failed_attempt req thread_id) s).
Proof.
  intros Hapi.
  unfold guarded_request, try_finally, bind, modify, gets, lift, ret; simpl.
  rewrite Hapi; simpl. unfold advance, emit; simpl.
  do 2 f_equal. f_equal; [lia | now rewrite <- !app_assoc].
Qed.

(** An answer that is not the rate-limit body ends the call. *)
Lemma call_etherscan_attempts_answer (attempts : nat) (s : State)
      (data : ApiData) (r : ApiResult) :
  api (calls s) req = Return data ->
  result data = Some r -> is_rate_limited r = false ->
  call_etherscan_attempts cfg api (S attempts) req thread_id s
  = Some (Return data, advance 1 (completed_attempt cfg req thread_id) s).
Proof.
  intros Hapi Hres Hnot.
  cbn [call_etherscan_attempts]. unfold bind at 1.
  rewrite (guarded_request_returns s data Hapi).
  unfold bind, lift, data_result, ret. now rewrite Hres, Hnot.
Qed.

(** [k] rate-limited answers use up [k] attempts and nothing else. *)
Lemma rate_limited_attempts (k : nat) :
  forall (attempts : nat) (s : State),
    (forall i : nat, (i < k)%nat ->
                     api (calls s + i) req = Return rate_limited_body) ->
    call_etherscan_attempts cfg api (k + attempts) req thread_id s
    = call_etherscan_attempts cfg api attempts req thread_id
        (advance k (concat (replicate k (completed_attempt cfg req thread_id))) s).
Proof.
  induction k as [|k IH]; intros attempts s Hlimited.
  - simpl. now rewrite advance_0.
  - cbn [Nat.add call_etherscan_attempts]. unfold bind at 1.
    rewrite (guarded_request_returns s rate_limited_body)
      by (rewrite <- (Hlimited O) by lia; f_equal; lia).
    cbn [lift data_result result rate_limited_body bind is_rate_limited].
    replace (String.eqb rate_limit_message rate_limit_message) with true
      by (symmetry; apply String.eqb_refl).
    rewrite IH.
    + rewrite advance_advance. reflexivity.
    + intros i Hi. cbn [advance calls].
      rewrite <- (Hlimited (S i)) by lia. f_equal; lia.
Qed.

End Client.

Section Policy.
Variable cfg : Config.
Variable api : nat -> ApiRequest -> Outcome ApiData.
Variable thread_id : option Z.
Variables (address : string) (startblock endblock : Z) (sort : string).

(** C8.  A call with [retries] attempts whose first [k] answers are the
    rate-limit body: each of them is one attempt under its own permit
    (acquire, request, sleep, release) and leads to the next attempt.
    - If the next answer is a body with any other result, it is returned.
    - If the next request fails (transport, decoding, missing key), that
      very exception reaches the caller and no further request is made.
    - If all [retries] answers were the rate-limit body, the block range
      and thread id are logged and the rate-limit exception is raised. *)
Theorem call_etherscan_retry_policy (retries : Z) (k : nat) (s : State) :
  let req := request cfg address startblock endblock sort in
  let limited := concat (replicate k (completed_attempt cfg req thread_id)) in
  let call := call_etherscan_with cfg api address thread_id startblock
                                  endblock sort retries s in
  (forall i : nat, (i < k)%nat ->
                   api (calls s + i) req = Return rate_limited_body) ->
  (forall (data : ApiData) (r : ApiResult),
      (k < Z.to_nat retries)%nat ->
      api (calls s + k) req = Return data ->
      result data = Some r -> is_rate_limited r = false ->
      call = Some (Return data,
                   advance (S k) (limited ++ completed_attempt cfg req thread_id) s))
  /\ (forall e : PyExn,
        (k < Z.to_nat retries)%nat ->
        api (calls s + k) req = Raise e ->
        call = Some (Raise e,
                     advance (S k) (limited ++ failed_attempt req thread_id) s))
  /\ (forall data : ApiData,
        (k < Z.to_nat retries)%nat ->
        api (calls s + k) req = Return data -> result data = None ->
        call = Some (Raise (KeyError "result"),
                     advance (S k) (limited ++ completed_attempt cfg req thread_id) s))
  /\ (k = Z.to_nat retries ->
      call = Some (Raise (PlainException "Max rate limit reached after retrying"),
                   advance k (limited ++ [Log (ThreadError thread_id startblock endblock)]) s)).
Proof.
  intros req limited call Hlimited.
  pose proof (rate_limited_attempts cfg api req thread_id k) as Hsplit.
  assert (Hattempts : forall n : nat, (k < n)%nat -> exists m, n = (k + S m)%nat)
    by (intros n Hn; exists (n - S k)%nat; lia).
  unfold call, call_etherscan_with. fold req.
  split; [|split; [|split]].
  - intros data r Hk Hapi Hres Hnot.
    destruct (Hattempts _ Hk) as [m ->]. rewrite Hsplit by assumption.
    cbn [call_etherscan_attempts]. unfold bind at 1.
    rewrite (guarded_request_returns cfg api req thread_id _ data)
      by exact Hapi.
    unfold bind, lift, data_result, ret. rewrite Hres, Hnot.
    now rewrite advance_advance, Nat.add_1_r.
  - intros e Hk Hapi.
    destruct (Hattempts _ Hk) as [m ->]. rewrite Hsplit by assumption.
    cbn [call_etherscan_attempts]. unfold bind at 1.
    rewrite (guarded_request_raises cfg api req thread_id _ e)
      by exact Hapi.
    now rewrite advance_advance, Nat.add_1_r.
  - intros data Hk Hapi Hres.
    destruct (Hattempts _ Hk) as [m ->]. rewrite Hsplit by assumption.
    cbn [call_etherscan_attempts]. unfold bind at 1.
    rewrite (guarded_request_returns cfg api req thread_id _ data)
      by exact Hapi.
    unfold bind, lift, data_result. rewrite Hres.
    now rewrite advance_advance, Nat.add_1_r.
  - intros Hk. rewrite <- Hk.
    replace k with (k + 0)%nat at 1 by lia. rewrite Hsplit by assumption.
    cbn [call_etherscan_attempts]. unfold bind, modify, raise.
    do 2 f_equal. unfold advance, emit; simpl.
    f_equal. now rewrite <- !app_assoc.
Qed.

End Policy.

Lemma call_etherscan_retry_policy_witness :
  call_etherscan_with Examples.sample_cfg Examples.always_rate_limited
                      "0xTEST" (Some 1) 100 200 "asc" 4 Examples.idle_thread
  = Some (Raise (PlainException "Max rate limit reached after retrying"),
          advance 4
            (concat (replicate 4
               (completed_attempt Examples.sample_cfg
                  (request Examples.sample_cfg "0xTEST" 100 200 "asc") (Some 1)))
             ++ [Log (ThreadError (Some 1) 100 200)])
            Examples.idle_thread).
Proof.
  apply (call_etherscan_retry_policy
           Examples.sample_cfg Examples.always_rate_limited (Some 1)
           "0xTEST" 100 200 "asc" 4 4 Examples.idle_thread).
  - intros i Hi. reflexivity.
  - reflexivity.
Defined.

End LedgerFacts.

(** ** The producer *)

Module ProducerFacts.
Import Ledger Builtins Producer.

Lemma keep_well_formed (tx : RawRecord) (value is_error : string) (v : Z) :
  tx !! "value" = Some value -> py_int value = Return v ->
  tx !! "isError" = Some is_error ->
  keep tx = Return ((v >? 0) && negb (String.eqb is_error "1")).
Proof.
  intros Hvalue Hint Herr. unfold keep, getitem, obind.
  rewrite Hvalue, Hint. destruct (v >? 0); [|reflexivity].
  now rewrite Herr.
Qed.

Lemma set_queue_queue (s : State) : set_queue (queue s) s = s.
Proof. now destruct s. Qed.

Lemma enqueue_records_well_formed (records : list RawRecord) :
  Forall well_formed records ->
  forall s : State,
    enqueue_records records s
    = Some (Return tt, set_queue (queue s ++ List.filter kept records) s).
Proof.
  induction 1 as [|tx rest Htx _ IH]; intros s.
  - simpl. unfold ret. now rewrite app_nil_r, set_queue_queue.
  - destruct Htx as (value & is_error & v & Hvalue & Hint & Herr).
    cbn [enqueue_records List.filter]. unfold bind at 1, filter_and_put, kept.
    rewrite (keep_well_formed tx value is_error v Hvalue Hint Herr).
    unfold bind, lift.
    destruct ((v >? 0) && negb (String.eqb is_error "1")).
    + unfold modify. rewrite IH. do 2 f_equal.
      unfold set_queue, queue_put; simpl. f_equal. now rewrite <- app_assoc.
    + unfold ret. now rewrite IH.
Qed.

Section Stall.
Variable cfg : Config.
Variable api : nat -> ApiRequest -> Outcome ApiData.
Variables (address : string) (ending_block : Z) (thread_id : Z).
Variable current : Z.
Variable page : list RawRecord.

Let first_end := Z.min (current + BASE_BLOCK_ATTEMPT cfg) ending_block.
Let shrunk_end := Z.min (current + next_window cfg 0) ending_block.

Hypothesis in_range : current <= ending_block.
Hypothesis limit_positive : 0 < RECORD_RETRIEVAL_LIMIT cfg.
Hypothesis page_full :
  RECORD_RETRIEVAL_LIMIT cfg <= Z.of_nat (length page).
Hypothesis base_window_overflows :
  forall n : nat,
    api n (request cfg address current first_end "asc") = response_of page.
Hypothesis shrunk_window_empty :
  forall n : nat,
    api n (request cfg address current shrunk_end "asc") = response_of [].

(** When the base window answers with a full page and the first shrunk
    window with no record at all, an iteration of the outer loop leaves
    the cursor where it was: line 175 skips the advance on an empty
    result, so the loop asks the same two questions for ever. *)
Lemma produce_loop_stalls (fuel : nat) :
  forall s : State,
    current_block s = current ->
    produce_loop cfg api address ending_block thread_id fuel s = None.
Proof.
  induction fuel as [|fuel IH]; intros s Hcur.
  - simpl. unfold bind, gets. rewrite Hcur.
    destruct (Z.leb_spec current ending_block); [reflexivity | lia].
  - cbn [produce_loop]. unfold bind at 1, gets. rewrite Hcur.
    destruct (Z.leb_spec current ending_block) as [_|]; [|lia].
    unfold log. unfold bind at 1, modify. unfold bind at 1.
    unfold call_etherscan, call_etherscan_with, default_retries.
    change (Z.to_nat 4) with 4%nat. fold first_end.
    erewrite (LedgerFacts.call_etherscan_attempts_answer cfg api _ _ 3);
      [|apply base_window_overflows|reflexivity|reflexivity].
    unfold bind at 1. cbn [lift data_result result].
    assert (Htruthy : truthy (ResultList page) = true).
    { unfold truthy, result_len.
      destruct (Z.eqb_spec (Z.of_nat (length page)) 0); [lia | reflexivity]. }
    rewrite Htruthy. cbn [negb]. unfold bind at 1.
    destruct fuel as [|fuel'].
    + cbn [overflow_loop]. unfold get_result_len; cbn [result result_len].
      destruct (Z.geb_spec (Z.of_nat (length page)) (RECORD_RETRIEVAL_LIMIT cfg));
        [reflexivity | lia].
    + cbn [overflow_loop]. unfold get_result_len at 1; cbn [result result_len].
      destruct (Z.geb_spec (Z.of_nat (length page)) (RECORD_RETRIEVAL_LIMIT cfg))
        as [_|]; [|lia].
      unfold bind at 1, gets. unfold log. unfold bind at 1, modify.
      unfold bind at 1. unfold bind at 1.
      cbn [current_block set_block_window_amount emit advance].
      rewrite Hcur. fold shrunk_end.
      unfold bind at 1. unfold bind at 1.
      unfold call_etherscan, call_etherscan_with, default_retries.
      change (Z.to_nat 4) with 4%nat.
      erewrite (LedgerFacts.call_etherscan_attempts_answer cfg api _ _ 3);
        [|apply shrunk_window_empty|reflexivity|reflexivity].
      assert (Hdone : forall (n : nat) (t : State),
                 overflow_loop cfg api address ending_block thread_id n
                   {| result := Some (ResultList []) |} shrunk_end 1 t
                 = Some (Return ({| result := Some (ResultList []) |}, shrunk_end), t)).
      { intros n t. destruct n; cbn [overflow_loop];
          unfold get_result_len; cbn [result result_len length];
          (destruct (Z.geb_spec (Z.of_nat 0) (RECORD_RETRIEVAL_LIMIT cfg));
           [simpl in *; lia | reflexivity]). }
      rewrite Hdone.
      unfold bind at 1. cbn [lift data_result result].
      unfold bind at 1, gets. unfold bind at 1, modify.
      unfold bind at 1. cbn [enqueue_result enqueue_records ret].
      unfold bind at 1. cbn [truthy result_len length negb ret].
      change (Z.of_nat 0 =? 0) with true. cbn [negb].
      apply IH. exact Hcur.
Qed.

Lemma call_api_and_produce_stalls (fuel : nat) (s : State) :
  call_api_and_produce cfg api address ending_block thread_id fuel current s
  = None.
Proof.
  unfold call_api_and_produce, bind, modify, try_finally, try_except.
  now rewrite produce_loop_stalls.
Qed.

End Stall.

(** The answers of a ledger that holds [k] copies of one transfer. *)
Lemma ledger_api_one_block (k : nat) (block : Z) (tx : RawRecord)
      (n : nat) (req : ApiRequest) :
  Examples.ledger_api (replicate k (block, tx)) n req
  = response_of
      (if (req_startblock req <=? block) && (block <=? req_endblock req)
       then replicate (Z.to_nat (req_offset req) `min` k) tx
       else []).
Proof.
  unfold Examples.ledger_api, response_of. do 4 f_equal.
  assert (Hfilter : forall p : Z * RawRecord -> bool,
             List.filter p (replicate k (block, tx))
             = if p (block, tx) then replicate k (block, tx) else []).
  { intros p. induction k as [|k' IH]; simpl.
    - now destruct (p (block, tx)).
    - rewrite IH. now destruct (p (block, tx)). }
  rewrite Hfilter. cbn [fst].
  destruct ((req_startblock req <=? block) && (block <=? req_endblock req)).
  - now rewrite fmap_replicate, take_replicate.
  - now rewrite fmap_nil, take_nil.
Qed.

(** C4.  The producer on the sub-range [0, 1000] of a ledger whose 10000
    transfers all sit in block 80: the base window [0, 100] returns a full
    page, the shrunk window [0, 50] returns nothing, which is fewer than the
    page limit, and the worker never finishes, whatever the fuel. *)
Theorem producer_stalls_on_empty_shrunk_window (fuel : nat) :
  call_api_and_produce Examples.sample_cfg
                       (Examples.ledger_api Examples.busy_block_ledger)
                       "0xTEST" 1000 0 fuel 0 Examples.idle_thread
  = None.
Proof.
  apply (call_api_and_produce_stalls
           Examples.sample_cfg (Examples.ledger_api Examples.busy_block_ledger)
           "0xTEST" 1000 0 0
           (replicate (Z.to_nat 10000)
              (Examples.sample_record "80" "0xh" "0xa" "0xb" "5" "0"))).
  - lia.
  - reflexivity.
  - rewrite length_replicate. cbn [RECORD_RETRIEVAL_LIMIT Examples.sample_cfg]. lia.
  - intros n. unfold Examples.busy_block_ledger.
    rewrite ledger_api_one_block. reflexivity.
  - intros n. unfold Examples.busy_block_ledger.
    rewrite ledger_api_one_block. reflexivity.
Qed.

End ProducerFacts.

(** ** Rows selected by a unique column *)

Module TableFacts.

Lemma unique_key_rows {A : Type} (key : A -> string) (k : string)
      (rows : list A) :
  NoDup (key <$> rows) ->
  filter (fun row => key row = k) rows = []
  \/ exists row, filter (fun row => key row = k) rows = [row].
Proof.
  induction rows as [|row rows IH]; intros Hnodup; [now left|].
  rewrite fmap_cons in Hnodup. apply NoDup_cons in Hnodup as [Hfresh Hnodup].
  rewrite filter_cons. destruct (decide (key row = k)) as [Heq|Hne].
  - right. exists row. f_equal.
    destruct (filter (fun r => key r = k) rows) as [|other rest] eqn:Hrest;
      [reflexivity|].
    exfalso. apply Hfresh.
    assert (Hin : other ∈ filter (fun r => key r = k) rows)
      by (rewrite Hrest; left).
    apply list_elem_of_filter in Hin as [Hother Hin].
    rewrite Heq, <- Hother. now apply list_elem_of_fmap_2.
  - now apply IH.
Qed.

Lemma key_rows_nil {A : Type} (key : A -> string) (k : string) (rows : list A) :
  filter (fun row => key row = k) rows = [] <-> k ∉ key <$> rows.
Proof.
  split.
  - intros Hnil Hin. apply list_elem_of_fmap in Hin as (row & -> & Hin).
    assert (Hrow : row ∈ filter (fun r => key r = key row) rows)
      by (apply list_elem_of_filter; auto).
    rewrite Hnil in Hrow. inversion Hrow.
  - intros Hnot. destruct (filter (fun r => key r = k) rows) as [|row rest] eqn:Hf;
      [reflexivity|].
    exfalso. apply Hnot.
    assert (Hrow : row ∈ filter (fun r => key r = k) rows) by (rewrite Hf; left).
    apply list_elem_of_filter in Hrow as [<- Hin]. now apply list_elem_of_fmap_2.
Qed.

End TableFacts.

(** ** The identity resolver *)

Module ResolverFacts.
Import Store Env Resolver.

Lemma address_rows_unique (a : string) (d : Db) :
  unique_addresses d ->
  address_rows a d = [] \/ exists row, address_rows a d = [row].
Proof. apply TableFacts.unique_key_rows. Qed.

Lemma address_rows_address (a : string) (d : Db) (row : Address) :
  address_rows a d = [row] -> address row = a.
Proof.
  intros Hrows.
  assert (Hin : row ∈ address_rows a d) by (rewrite Hrows; left).
  now apply list_elem_of_filter in Hin as [Ha _].
Qed.

Lemma query_address_one_raises (a : string) (d d' : Db) (e : PyExn) :
  query_address_one a d = (Raise e, d') -> e <> QueueEmpty.
Proof.
  unfold query_address_one, statement, pop_fault.
  destruct (faults d) as [|[f|] rest]; cbn [fst snd].
  - destruct (address_rows a d) as [|row [|row' rows]];
      intros H; inversion H; discriminate.
  - intros H; inversion H. destruct f; discriminate.
  - match goal with
    | |- context [address_rows a ?d0] =>
        destruct (address_rows a d0) as [|row [|row' rows]]
    end; intros H; inversion H; discriminate.
Qed.

(** An exception that leaves the resolver comes from its re-read. *)
Lemma get_or_create_address_raises (a : string) (w w' : World) (e : PyExn) :
  get_or_create_address a w = Some (Raise e, w') -> e <> QueueEmpty.
Proof.
  unfold get_or_create_address, find_or_insert, on_integrity_error,
    on_other_error, try_finally, try_except, bind, execute,
    session_close, session_rollback, logger, modify, ret.
  destruct (query_address_one_or_none a (db w)) as [[[row|]|e0] d1];
    cbn [db set_db set_pending set_session_closed add_log].
  - discriminate.
  - destruct (insert_address a d1) as [[row|e0] d2];
      cbn [db set_db set_pending set_session_closed add_log];
      [discriminate|].
    destruct e0; try discriminate.
    cbn [db set_db set_pending set_session_closed add_log].
    destruct (query_address_one a d2) as [[row|e'] d3] eqn:Hq;
      intros H; inversion H; subst.
    now apply (query_address_one_raises a d2 d3).
  - destruct e0; try discriminate.
    cbn [db set_db set_pending set_session_closed add_log].
    destruct (query_address_one a d1) as [[row|e'] d3] eqn:Hq;
      intros H; inversion H; subst.
    now apply (query_address_one_raises a d1 d3).
Qed.

Section Steps.
Variable a : string.
Abbreviation settled := (settled a).
Abbreviation at_most_one := (at_most_one a).

Ltac statement_norm Hfaults :=
  unfold resolver_step, session_execute, query_address_one_or_none,
    insert_address, query_address_one, statement, pop_fault;
  cbn [position needs_rollback]; rewrite ?Hfaults.

Lemma address_rows_inserted (d : Db) :
  address_rows a d = [] ->
  address_rows a
    (set_addresses
       (addresses d ++ [{| address_id := next_address_id d; address := a |}])
       (next_address_id d + 1) d)
  = [{| address_id := next_address_id d; address := a |}].
Proof.
  intros Hnone. unfold address_rows in *; cbn [addresses set_addresses].
  rewrite filter_app, Hnone, filter_cons. cbn [address].
  destruct (decide (a = a)); [reflexivity | congruence].
Qed.

(** A step either leaves the store alone or creates the first row. *)
Lemma resolver_step_sound (wk : Worker) (d : Db) :
  faults d = [] -> at_most_one d -> settled wk d ->
  faults (snd (resolver_step a wk d)) = []
  /\ settled (fst (resolver_step a wk d)) (snd (resolver_step a wk d))
  /\ (snd (resolver_step a wk d) = d
      \/ (address_rows a d = []
          /\ exists row, address_rows a (snd (resolver_step a wk d)) = [row])).
Proof.
  intros Hfaults Hone Hwk.
  destruct wk as [p nr cl lg]. unfold Resolver.settled in Hwk.
  cbn [position needs_rollback] in Hwk.
  destruct p as [| | | |e|r|r]; statement_norm Hfaults.
  - subst nr. destruct Hone as [Hnone|[row Hrow]].
    + rewrite Hnone. cbn. auto.
    + rewrite Hrow. cbn. split; [assumption|]. split; [|now left].
      exists row. now rewrite Hrow.
  - subst nr. destruct Hone as [Hnone|[row Hrow]].
    + rewrite Hnone. cbn [fst snd goto after_statement refused].
      pose proof (address_rows_inserted d Hnone) as Hnew.
      split; [assumption|]. split.
      * eexists; split; [exact Hnew | reflexivity].
      * right. split; [reflexivity|]. eexists; exact Hnew.
    + rewrite Hrow. cbn. split; [assumption|]. split; [|now left].
      exists row. exact Hrow.
  - cbn. split; [assumption|]. split; [|now left]. now split.
  - destruct Hwk as [-> [row Hrow]]. rewrite Hrow. cbn.
    split; [assumption|]. split; [|now left].
    exists row. now rewrite Hrow.
  - contradiction.
  - cbn. split; [assumption|]. split; [assumption | now left].
  - cbn. split; [assumption|]. split; [assumption | now left].
Qed.

Lemma settled_stable (wk : Worker) (d d' : Db) :
  settled wk d ->
  (d' = d \/ (address_rows a d = [] /\ exists row, address_rows a d' = [row])) ->
  settled wk d'.
Proof.
  intros Hwk [->|[Hnone _]]; [assumption|].
  unfold Resolver.settled in *.
  destruct (position wk) as [| | | |e|r|r]; try assumption.
  - destruct Hwk as [row Hrow]. congruence.
  - destruct Hwk as (_ & row & Hrow). congruence.
  - destruct Hwk as (row & Hrow & _). congruence.
  - destruct Hwk as (row & Hrow & _). congruence.
Qed.

Lemma at_most_one_step (wk : Worker) (d : Db) :
  faults d = [] -> at_most_one d -> settled wk d ->
  at_most_one (snd (resolver_step a wk d)).
Proof.
  intros Hfaults Hone Hwk.
  destruct (resolver_step_sound wk d Hfaults Hone Hwk) as (_ & _ & [->|[_ Hrow]]);
    [assumption | now right].
Qed.

Lemma run_schedule_sound (schedule : list bool) :
  forall (wk1 wk2 : Worker) (d : Db),
    faults d = [] -> at_most_one d -> settled wk1 d -> settled wk2 d ->
    let '(wk1', wk2', d') := run_schedule a schedule wk1 wk2 d in
    faults d' = [] /\ at_most_one d' /\ settled wk1' d' /\ settled wk2' d'
    /\ (d' = d \/ (address_rows a d = [] /\ exists row, address_rows a d' = [row])).
Proof.
  induction schedule as [|[|] rest IH]; intros wk1 wk2 d Hf Hone H1 H2;
    cbn [run_schedule]; [auto 6| |].
  - pose proof (resolver_step_sound wk1 d Hf Hone H1) as (Hf' & H1' & Hd').
    pose proof (at_most_one_step wk1 d Hf Hone H1) as Hone'.
    destruct (resolver_step a wk1 d) as [wk1' d']; cbn [fst snd] in *.
    specialize (IH wk1' wk2 d' Hf' Hone' H1' (settled_stable wk2 d d' H2 Hd')).
    destruct (run_schedule a rest wk1' wk2 d') as [[q1 q2] d''].
    destruct IH as (? & ? & ? & ? & Hd'').
    repeat (split; [assumption|]).
    destruct Hd' as [->|[Hnone Hrow]]; [assumption|].
    destruct Hd'' as [->|[Hnone' _]]; [now right|].
    destruct Hrow as [row Hrow]. congruence.
  - pose proof (resolver_step_sound wk2 d Hf Hone H2) as (Hf' & H2' & Hd').
    pose proof (at_most_one_step wk2 d Hf Hone H2) as Hone'.
    destruct (resolver_step a wk2 d) as [wk2' d']; cbn [fst snd] in *.
    specialize (IH wk1 wk2' d' Hf' Hone' (settled_stable wk1 d d' H1 Hd') H2').
    destruct (run_schedule a rest wk1 wk2' d') as [[q1 q2] d''].
    destruct IH as (? & ? & ? & ? & Hd'').
    repeat (split; [assumption|]).
    destruct Hd' as [->|[Hnone Hrow]]; [assumption|].
    destruct Hd'' as [->|[Hnone' _]]; [now right|].
    destruct Hrow as [row Hrow]. congruence.
Qed.

Lemma resolver_step_rank (wk : Worker) (d : Db) :
  (rank (position (fst (resolver_step a wk d))) <= pred (rank (position wk)))%nat.
Proof.
  destruct wk as [p nr cl lg]. unfold resolver_step, session_execute.
  cbn [position needs_rollback].
  destruct p as [| | | |e|r|r]; cbn [rank pred].
  - destruct nr; [cbn; lia|].
    destruct (query_address_one_or_none a d) as [[[row|]|e] d'];
      [| |destruct e]; cbn; lia.
  - destruct nr; [cbn; lia|].
    destruct (insert_address a d) as [[row|e] d']; [|destruct e]; cbn; lia.
  - cbn; lia.
  - destruct nr; [cbn; lia|].
    destruct (query_address_one a d) as [[row|e] d']; cbn; lia.
  - cbn; lia.
  - cbn; lia.
  - cbn; lia.
Qed.

Lemma run_schedule_rank (schedule : list bool) :
  forall (wk1 wk2 : Worker) (d : Db),
    let '(wk1', wk2', _) := run_schedule a schedule wk1 wk2 d in
    (rank (position wk1')
     <= rank (position wk1) - length (List.filter (fun b => b) schedule))%nat
    /\ (rank (position wk2')
        <= rank (position wk2) - length (List.filter negb schedule))%nat.
Proof.
  induction schedule as [|[|] rest IH]; intros wk1 wk2 d;
    cbn [run_schedule List.filter negb length]; [lia| |].
  - pose proof (resolver_step_rank wk1 d) as Hrank.
    destruct (resolver_step a wk1 d) as [wk1' d']; cbn [fst] in Hrank.
    specialize (IH wk1' wk2 d').
    destruct (run_schedule a rest wk1' wk2 d') as [[q1 q2] d'']. lia.
  - pose proof (resolver_step_rank wk2 d) as Hrank.
    destruct (resolver_step a wk2 d) as [wk2' d']; cbn [fst] in Hrank.
    specialize (IH wk1 wk2' d').
    destruct (run_schedule a rest wk1 wk2' d') as [[q1 q2] d'']. lia.
Qed.

(** Where a worker ends: with its session closed and its transaction
    given up. *)
Lemma resolver_step_finished (wk : Worker) (d : Db) (r : Outcome (option Z)) :
  (forall r0, position wk = Finished r0 ->
              needs_rollback wk = false /\ closed_session wk = true) ->
  position (fst (resolver_step a wk d)) = Finished r ->
  needs_rollback (fst (resolver_step a wk d)) = false
  /\ closed_session (fst (resolver_step a wk d)) = true.
Proof.
  destruct wk as [p nr cl lg]. unfold resolver_step, session_execute.
  cbn [position needs_rollback].
  destruct p as [| | | |e|r0|r0]; intros Hwk.
  - destruct nr; [cbn; discriminate|].
    destruct (query_address_one_or_none a d) as [[[row|]|e] d'];
      [| |destruct e]; cbn; discriminate.
  - destruct nr; [cbn; discriminate|].
    destruct (insert_address a d) as [[row|e] d']; [|destruct e]; cbn; discriminate.
  - cbn; discriminate.
  - destruct nr; [cbn; discriminate|].
    destruct (query_address_one a d) as [[row|e] d']; cbn; discriminate.
  - cbn; discriminate.
  - cbn. auto.
  - cbn. intros _. now apply (Hwk r0).
Qed.

Lemma run_schedule_finished (schedule : list bool) :
  forall (wk1 wk2 : Worker) (d : Db),
    (forall r0, position wk1 = Finished r0 ->
                needs_rollback wk1 = false /\ closed_session wk1 = true) ->
    (forall r0, position wk2 = Finished r0 ->
                needs_rollback wk2 = false /\ closed_session wk2 = true) ->
    let '(wk1', wk2', _) := run_schedule a schedule wk1 wk2 d in
    (forall r, position wk1' = Finished r ->
               needs_rollback wk1' = false /\ closed_session wk1' = true)
    /\ (forall r, position wk2' = Finished r ->
                  needs_rollback wk2' = false /\ closed_session wk2' = true).
Proof.
  induction schedule as [|[|] rest IH]; intros wk1 wk2 d H1 H2;
    cbn [run_schedule]; [auto| |].
  - pose proof (fun r => resolver_step_finished wk1 d r H1) as H1'.
    destruct (resolver_step a wk1 d) as [wk1' d']; cbn [fst] in H1'.
    apply IH; assumption.
  - pose proof (fun r => resolver_step_finished wk2 d r H2) as H2'.
    destruct (resolver_step a wk2 d) as [wk2' d']; cbn [fst] in H2'.
    apply IH; assumption.
Qed.

(** A worker running alone is a schedule that never lets the other one in. *)
Lemma run_schedule_alone (n : nat) :
  forall (wk wk2 : Worker) (d : Db),
    run_schedule a (replicate n true) wk wk2 d
    = (fst (resolver_run a n wk d), wk2, snd (resolver_run a n wk d)).
Proof.
  induction n as [|n IH]; intros wk wk2 d; cbn [replicate run_schedule resolver_run];
    [reflexivity|].
  destruct (resolver_step a wk d) as [wk' d']. apply IH.
Qed.

Lemma filter_replicate_true (n : nat) :
  length (List.filter (fun b : bool => b) (replicate n true)) = n
  /\ length (List.filter negb (replicate n true)) = O.
Proof. induction n as [|n [IH1 IH2]]; cbn; auto. Qed.

(** One worker alone, on a store without planned failures: it returns the id
    of the one row of its address, which it created only if there was none. *)
Lemma resolver_run_alone (d : Db) :
  faults d = [] -> at_most_one d ->
  exists (id : Z) (wk' : Worker) (d' : Db),
    resolver_run a 5 new_worker d = (wk', d')
    /\ position wk' = Finished (Return (Some id))
    /\ address_rows a d' = [{| address_id := id; address := a |}]
    /\ faults d' = [] /\ at_most_one d'
    /\ (forall row, address_rows a d = [row] -> d' = d /\ id = address_id row).
Proof.
  intros Hf Hone.
  pose proof (run_schedule_sound (replicate 5 true) new_worker new_worker d
                Hf Hone eq_refl eq_refl) as Hsound.
  pose proof (run_schedule_rank (replicate 5 true) new_worker new_worker d) as Hrank.
  rewrite run_schedule_alone in Hsound, Hrank.
  destruct (resolver_run a 5 new_worker d) as [wk' d'] eqn:Hrun; cbn [fst snd] in *.
  destruct (filter_replicate_true 5) as [-> _] in Hrank.
  destruct Hsound as (Hf' & Hone' & Hwk' & _ & Hd').
  cbn [rank position new_worker] in Hrank. destruct Hrank as [Hrank _].
  unfold Resolver.settled in Hwk'. revert Hwk' Hrank.
  destruct (position wk') as [| | | |e|r|r] eqn:Hpos; cbn [rank];
    intros Hwk' Hrank; try lia.
  destruct Hwk' as (row & Hrow & ->).
  exists (address_id row), wk', d'. split; [reflexivity|]. split; [exact Hpos|].
  pose proof (address_rows_address a d' row Hrow) as Ha.
  split; [rewrite Hrow; destruct row; cbn in *; now subst|].
  repeat (split; [assumption|]).
  intros row0 Hrow0. destruct Hd' as [->|[Hnone _]]; [|congruence].
  split; [reflexivity | congruence].
Qed.

End Steps.

Ltac step_norm :=
  cbn [db log set_db set_pending set_session_closed add_log add_logs
       session_closed pending
       resolver_step session_execute position needs_rollback new_worker goto
       after_statement rolled_back closed add_logged refused closed_session
       logged].

(** The source function is the machine run alone: same result, same store,
    same log lines, and the session closed. *)
Lemma get_or_create_address_run (a : string) (w : World) :
  exists (r : Outcome (option Z)) (w' : World) (wk' : Worker),
    get_or_create_address a w = Some (r, w')
    /\ resolver_run a 5 new_worker (db w) = (wk', db w')
    /\ position wk' = Finished r
    /\ log w' = log w ++ logged wk'
    /\ session_closed w' = closed_session wk'
    /\ closed_session wk' = true /\ needs_rollback wk' = false
    /\ pending w' = [].
Proof.
  unfold get_or_create_address, find_or_insert, on_integrity_error,
    on_other_error, try_finally, try_except, bind, execute,
    session_close, session_rollback, logger, modify, ret.
  cbn [resolver_run]. step_norm.
  destruct (query_address_one_or_none a (db w)) as [[[row|]|e] d1]; step_norm.
  - do 3 eexists. split; [reflexivity|]. split; [reflexivity|]. cbn.
    rewrite app_nil_r. auto 10.
  - destruct (insert_address a d1) as [[row|e] d2]; step_norm.
    + do 3 eexists. split; [reflexivity|]. split; [reflexivity|]. cbn.
      rewrite app_nil_r. auto 10.
    + destruct e; step_norm;
        try (do 3 eexists; split; [reflexivity|]; split; [reflexivity|]; cbn;
             auto 10; fail).
      destruct (query_address_one a d2) as [[row|e'] d3]; step_norm;
        do 3 eexists; (split; [reflexivity|]); (split; [reflexivity|]); cbn;
        rewrite app_nil_r; auto 10.
  - destruct e; step_norm;
      try (do 3 eexists; split; [reflexivity|]; split; [reflexivity|]; cbn;
           auto 10; fail).
    destruct (query_address_one a d1) as [[row|e'] d3]; step_norm;
      do 3 eexists; (split; [reflexivity|]); (split; [reflexivity|]); cbn;
      rewrite app_nil_r; auto 10.
Qed.

(** Whatever else goes wrong is logged, the session's transaction is given
    up, and the resolver answers [None] (lines 78-80). *)
Lemma on_other_error_rolls_back (e : PyExn) (w : World) :
  exists w' : World,
    on_other_error e w = Some (Return None, w')
    /\ pending w' = [] /\ db w' = db w
    /\ log w' = log w ++ [ResolverError e].
Proof.
  unfold on_other_error, logger, session_rollback, bind, modify, ret.
  eexists. split; [reflexivity|]. cbn. auto.
Qed.

(** The same handler in the machine: one step logs the error and rolls the
    transaction back, and the worker goes on to close its session and
    return [None]. *)
Lemma resolver_step_at_error (a : string) (wk : Worker) (d : Db) (e : PyExn) :
  position wk = AtError e ->
  exists wk' : Worker,
    resolver_step a wk d = (wk', d)
    /\ position wk' = AtClose (Return None)
    /\ needs_rollback wk' = false
    /\ logged wk' = logged wk ++ [ResolverError e].
Proof.
  intros Hpos. unfold resolver_step. rewrite Hpos.
  eexists. split; [reflexivity|]. cbn. auto.
Qed.

(** C6.  Resolving an address [a] on a store that keeps [address] unique and
    plans no failure.
    - Two workers whose steps interleave in any order, each getting to take
      its (at most five) steps, both return the same id, with their sessions
      closed, and afterwards exactly one row has the address [a]: the one
      with that id.
    - The worker whose insert finds the row already there, another worker
      having created it first, is refused: the store is left as it was and
      the worker's transaction is aborted.  Line 73 rolls the transaction
      back, after which the session takes statements again; the re-read
      returns the id of the existing row, and the session is closed.  A
      re-read sent without the rollback would be refused.
    - In the source function the handler of the refused insert, lines 73-76,
      gives up whatever the session's transaction holds and returns the id
      of the existing row, the store being left as it was.
    - [__get_or_create_address] is this machine run alone, with the same
      result, store and log, and it leaves the session closed.  Two calls of
      it one after the other return the same id, the second leaves the store
      unchanged, and one row exists. *)
Theorem resolution_idempotent (a : string) (d : Db) :
  unique_addresses d -> faults d = [] ->
  (forall schedule : list bool,
      (5 <= length (List.filter (fun b => b) schedule))%nat ->
      (5 <= length (List.filter negb schedule))%nat ->
      exists (id : Z) (wk1 wk2 : Worker) (d' : Db),
        run_schedule a schedule new_worker new_worker d = (wk1, wk2, d')
        /\ position wk1 = Finished (Return (Some id))
        /\ position wk2 = Finished (Return (Some id))
        /\ address_rows a d' = [{| address_id := id; address := a |}]
        /\ needs_rollback wk1 = false /\ closed_session wk1 = true
        /\ needs_rollback wk2 = false /\ closed_session wk2 = true)
  /\ (forall (row : Address) (wk : Worker),
        address_rows a d = [row] ->
        position wk = AtInsert -> needs_rollback wk = false ->
        exists wk1 wk2 wk3 wk4 : Worker,
          resolver_step a wk d = (wk1, d)
          /\ position wk1 = AtRollback /\ needs_rollback wk1 = true
          /\ resolver_step a wk1 d = (wk2, d)
          /\ position wk2 = AtReread /\ needs_rollback wk2 = false
          /\ resolver_step a wk2 d = (wk3, d)
          /\ position wk3 = AtClose (Return (Some (address_id row)))
          /\ resolver_step a wk3 d = (wk4, d)
          /\ position wk4 = Finished (Return (Some (address_id row)))
          /\ needs_rollback wk4 = false /\ closed_session wk4 = true
          /\ resolver_step a (goto AtReread wk1) d
             = (goto (AtClose (Raise pending_rollback)) wk1, d))
  /\ (forall (row : Address) (w : World),
        db w = d -> address_rows a d = [row] ->
        exists w' : World,
          on_integrity_error a w = Some (Return (Some (address_id row)), w')
          /\ pending w' = [] /\ db w' = d)
  /\ (forall w : World,
        db w = d ->
        exists (r : Outcome (option Z)) (w' : World) (wk' : Worker),
          get_or_create_address a w = Some (r, w')
          /\ resolver_run a 5 new_worker d = (wk', db w')
          /\ position wk' = Finished r
          /\ log w' = log w ++ logged wk'
          /\ session_closed w' = true /\ pending w' = [])
  /\ (forall w : World,
        db w = d ->
        exists (id : Z) (w1 w2 : World),
          get_or_create_address a w = Some (Return (Some id), w1)
          /\ get_or_create_address a w1 = Some (Return (Some id), w2)
          /\ db w2 = db w1
          /\ address_rows a (db w2) = [{| address_id := id; address := a |}]).
Proof.
  intros Hunique Hf.
  pose proof (address_rows_unique a d Hunique) as Hone.
  split; [|split; [|split; [|split]]].
  - intros schedule H1 H2.
    pose proof (run_schedule_sound a schedule new_worker new_worker d Hf Hone
                  eq_refl eq_refl) as Hsound.
    pose proof (run_schedule_rank a schedule new_worker new_worker d) as Hrank.
    pose proof (run_schedule_finished a schedule new_worker new_worker d
                  ltac:(discriminate) ltac:(discriminate)) as Hclosed.
    destruct (run_schedule a schedule new_worker new_worker d) as [[wk1 wk2] d'].
    destruct Hsound as (_ & _ & Hwk1 & Hwk2 & _). destruct Hrank as [Hr1 Hr2].
    destruct Hclosed as [Hc1 Hc2].
    cbn [rank position new_worker] in Hr1, Hr2.
    unfold settled in Hwk1, Hwk2.
    destruct (position wk1) as [| | | |e1|r1|r1] eqn:Hpos1; cbn [rank] in Hr1;
      try lia.
    destruct (position wk2) as [| | | |e2|r2|r2] eqn:Hpos2; cbn [rank] in Hr2;
      try lia.
    destruct Hwk1 as (row1 & Hrow1 & ->). destruct Hwk2 as (row2 & Hrow2 & ->).
    assert (row2 = row1) by congruence. subst row2.
    destruct (Hc1 _ eq_refl) as [Hn1 Hcl1]. destruct (Hc2 _ eq_refl) as [Hn2 Hcl2].
    exists (address_id row1), wk1, wk2, d'. split; [reflexivity|].
    pose proof (address_rows_address a d' row1 Hrow1) as Ha.
    repeat (split; [assumption || reflexivity|]).
    split; [|auto].
    rewrite Hrow1. destruct row1; cbn in *; now subst.
  - intros row [p nr cl lg] Hrow Hp Hnr. cbn [position needs_rollback] in Hp, Hnr.
    subst p nr.
    unfold resolver_step, session_execute, insert_address, query_address_one,
      statement, pop_fault.
    cbn [position needs_rollback goto after_statement rolled_back closed].
    rewrite Hf, Hrow.
    cbn [position needs_rollback goto after_statement rolled_back closed
         refused unique_violation].
    do 4 eexists.
    repeat (split; [reflexivity|]). reflexivity.
  - intros row w Hw Hrow. subst d.
    unfold on_integrity_error, session_rollback, bind, modify, execute,
      query_address_one, statement, pop_fault, ret.
    cbn [db set_pending]. rewrite Hf, Hrow.
    eexists. split; [reflexivity|]. split; reflexivity.
  - intros w Hw. subst d.
    destruct (get_or_create_address_run a w)
      as (r & w' & wk' & Hcall & Hrun & Hpos & Hlog & Hcl & Hcl' & _ & Hp).
    exists r, w', wk'. rewrite Hcl, Hcl'. auto 10.
  - intros w Hw. subst d.
    destruct (resolver_run_alone a (db w) Hf Hone)
      as (id & wk1 & d1 & Hrun1 & Hpos1 & Hrow1 & Hf1 & Hone1 & _).
    destruct (get_or_create_address_run a w)
      as (r1 & w1 & wk1' & Hcall1 & Hm1 & Hp1 & _).
    rewrite Hrun1 in Hm1. inversion Hm1; subst wk1'.
    rewrite Hpos1 in Hp1. inversion Hp1; subst r1.
    destruct (resolver_run_alone a (db w1))
      as (id2 & wk2 & d2 & Hrun2 & Hpos2 & Hrow2 & _ & _ & Hsame);
      [congruence | congruence |].
    destruct (get_or_create_address_run a w1)
      as (r2 & w2 & wk2' & Hcall2 & Hm2 & Hp2 & _).
    rewrite Hrun2 in Hm2. inversion Hm2; subst wk2'.
    rewrite Hpos2 in Hp2. inversion Hp2; subst r2.
    destruct (Hsame {| address_id := id; address := a |}) as [Hd2 Hid2];
      [congruence|].
    cbn in Hid2. subst id2.
    exists id, w1, w2. repeat split; try assumption; congruence.
Qed.

Lemma resolution_idempotent_witness :
  exists (id : Z) (wk1 wk2 : Worker) (d' : Db),
    run_schedule "0xabc"
                 [true; false; true; false; false; false; false; true; true; true]
                 new_worker new_worker Examples.empty_db
    = (wk1, wk2, d')
    /\ position wk1 = Finished (Return (Some id))
    /\ position wk2 = Finished (Return (Some id))
    /\ address_rows "0xabc" d' = [{| address_id := id; address := "0xabc" |}]
    /\ needs_rollback wk1 = false /\ closed_session wk1 = true
    /\ needs_rollback wk2 = false /\ closed_session wk2 = true.
Proof.
  apply (proj1 (resolution_idempotent "0xabc" Examples.empty_db
                  (NoDup_nil_2 : unique_addresses Examples.empty_db) eq_refl)).
  - cbn. lia.
  - cbn. lia.
Defined.

End ResolverFacts.

(** ** Computations that always finish *)

Module SteadyFacts.
Import Store Env.

Section Steady.
Variable R : World -> World -> Prop.
Hypothesis R_refl : forall w, R w w.
Hypothesis R_trans : forall w1 w2 w3, R w1 w2 -> R w2 w3 -> R w1 w3.

Lemma steady_ret {A} (a : A) : steady R (ret a).
Proof. intros w. unfold ret. eauto. Qed.

Lemma steady_raise {A} (e : PyExn) : steady R (@raise World A e).
Proof. intros w. unfold raise. eauto. Qed.

Lemma steady_lift {A} (o : Outcome A) : steady R (lift o).
Proof. intros w. unfold lift. eauto. Qed.

Lemma steady_gets {A} (f : World -> A) : steady R (gets f).
Proof. intros w. unfold gets. eauto. Qed.

Lemma steady_modify (f : World -> World) :
  (forall w, R w (f w)) -> steady R (modify f).
Proof. intros Hf w. unfold modify. eauto. Qed.

Lemma steady_bind {A B} (m : M World A) (k : A -> M World B) :
  steady R m -> (forall a, steady R (k a)) -> steady R (bind m k).
Proof.
  intros Hm Hk w. unfold bind.
  destruct (Hm w) as ([a|e] & w1 & -> & H1); [|eauto].
  destruct (Hk a w1) as (r & w2 & -> & H2). eauto.
Qed.

Lemma steady_try_except {A} (m : M World A) (h : PyExn -> M World A) :
  steady R m -> (forall e, steady R (h e)) -> steady R (try_except m h).
Proof.
  intros Hm Hh w. unfold try_except.
  destruct (Hm w) as ([a|e] & w1 & -> & H1); [eauto|].
  destruct (Hh e w1) as (r & w2 & -> & H2). eauto.
Qed.

Lemma steady_try_finally {A} (m : M World A) (f : M World unit) :
  steady R m -> steady R f -> steady R (try_finally m f).
Proof.
  intros Hm Hf w. unfold try_finally.
  destruct (Hm w) as (r & w1 & -> & H1).
  destruct (Hf w1) as ([[]|e] & w2 & -> & H2); eauto.
Qed.

Lemma steady_execute {A} (stmt : Db -> Outcome A * Db) :
  (forall w d, R w (set_db d (set_session_closed false w))) ->
  steady R (execute stmt).
Proof.
  intros Hdb w. unfold execute. destruct (stmt (db w)) as [r d]. eauto.
Qed.

End Steady.

Lemma steady_weaken {A} (R R' : World -> World -> Prop) (m : M World A) :
  (forall w w', R w w' -> R' w w') -> steady R m -> steady R' m.
Proof.
  intros Himp Hm w. destruct (Hm w) as (r & w' & -> & HR). eauto.
Qed.

Lemma steady_and {A} (R R' : World -> World -> Prop) (m : M World A) :
  steady R m -> steady R' m -> steady (fun w w' => R w w' /\ R' w w') m.
Proof.
  intros Hm Hm' w. destruct (Hm w) as (r & w' & Hrun & HR).
  destruct (Hm' w) as (r' & w'' & Hrun' & HR').
  rewrite Hrun in Hrun'. inversion Hrun'; subst. eauto.
Qed.

Lemma same_channel_refl (w : World) : same_channel w w.
Proof. unfold same_channel; auto. Qed.

Lemma same_channel_trans (w1 w2 w3 : World) :
  same_channel w1 w2 -> same_channel w2 w3 -> same_channel w1 w3.
Proof. unfold same_channel; intuition congruence. Qed.

Lemma same_rows_refl (w : World) : same_rows w w.
Proof. unfold same_rows; auto. Qed.

Lemma same_rows_trans (w1 w2 w3 : World) :
  same_rows w1 w2 -> same_rows w2 w3 -> same_rows w1 w3.
Proof. unfold same_rows; intuition congruence. Qed.

(** A statement that leaves the transactions table alone. *)
Lemma steady_execute_rows {A} (stmt : Db -> Outcome A * Db) :
  (forall d, transactions (snd (stmt d)) = transactions d) ->
  steady same_rows (execute stmt).
Proof.
  intros Hstmt w. unfold execute. specialize (Hstmt (db w)).
  destruct (stmt (db w)) as [r d]. do 2 eexists. split; [reflexivity|].
  split; [exact Hstmt | reflexivity].
Qed.

Lemma statement_transactions {A} (run : Db -> Outcome A * Db) :
  (forall d, transactions (snd (run d)) = transactions d) ->
  forall d, transactions (snd (statement run d)) = transactions d.
Proof.
  intros Hrun d. unfold statement, pop_fault.
  destruct (faults d) as [|[e|] rest]; cbn [snd]; try apply Hrun.
  - reflexivity.
  - rewrite Hrun. reflexivity.
Qed.

Lemma raised_ret {A} (a : A) : not_empty_raised (ret a).
Proof. intros w w' e H. inversion H. Qed.

Lemma raised_raise {A} (e : PyExn) :
  e <> QueueEmpty -> not_empty_raised (@raise World A e).
Proof. intros Hne w w' e' H. inversion H; now subst. Qed.

Lemma raised_lift {A} (o : Outcome A) :
  (forall e, o = Raise e -> e <> QueueEmpty) -> not_empty_raised (lift o).
Proof. intros Ho w w' e H. inversion H; subst. now apply Ho. Qed.

Lemma raised_gets {A} (f : World -> A) : not_empty_raised (gets f).
Proof. intros w w' e H. inversion H. Qed.

Lemma raised_modify (f : World -> World) : not_empty_raised (modify f).
Proof. intros w w' e H. inversion H. Qed.

Lemma raised_bind {A B} (m : M World A) (k : A -> M World B) :
  not_empty_raised m -> (forall a, not_empty_raised (k a)) ->
  not_empty_raised (bind m k).
Proof.
  intros Hm Hk w w' e. unfold bind.
  destruct (m w) as [[[a|e0] w1]|] eqn:Hrun; [| |discriminate].
  - apply Hk.
  - intros H; inversion H; subst. now apply (Hm w w').
Qed.

Lemma raised_try_except {A} (m : M World A) (h : PyExn -> M World A) :
  (forall e, not_empty_raised (h e)) -> not_empty_raised (try_except m h).
Proof.
  intros Hh w w' e. unfold try_except.
  destruct (m w) as [[[a|e0] w1]|] eqn:Hrun; [| |discriminate].
  - intros H; inversion H.
  - apply Hh.
Qed.

Lemma raised_execute {A} (stmt : Db -> Outcome A * Db) :
  (forall d d' e, stmt d = (Raise e, d') -> e <> QueueEmpty) ->
  not_empty_raised (execute stmt).
Proof.
  intros Hstmt w w' e. unfold execute.
  destruct (stmt (db w)) as [r d] eqn:Hrun. intros H; inversion H; subst.
  now apply (Hstmt (db w) d).
Qed.

Lemma fault_exn_not_empty (f : DbFault) : fault_exn f <> QueueEmpty.
Proof. destruct f; discriminate. Qed.

Lemma statement_raises {A} (run : Db -> Outcome A * Db) :
  (forall d d' e, run d = (Raise e, d') -> e <> QueueEmpty) ->
  forall d d' e, statement run d = (Raise e, d') -> e <> QueueEmpty.
Proof.
  intros Hrun d d' e. unfold statement.
  destruct (pop_fault d) as [[f|] d1].
  - intros H; inversion H. apply fault_exn_not_empty.
  - apply Hrun.
Qed.

End SteadyFacts.

Ltac raised_step :=
  first
    [ assumption
    | apply SteadyFacts.raised_ret
    | apply SteadyFacts.raised_gets
    | apply SteadyFacts.raised_modify
    | apply SteadyFacts.raised_raise; discriminate
    | match goal with
      | |- Env.not_empty_raised (try_except _ _) =>
          apply SteadyFacts.raised_try_except
      | |- Env.not_empty_raised (bind _ _) => apply SteadyFacts.raised_bind
      | |- Env.not_empty_raised (match ?x with _ => _ end) => destruct x
      | |- Env.not_empty_raised (if ?x then _ else _) => destruct x
      | |- forall _ : _, Env.not_empty_raised _ => intro
      | H : forall _, Env.not_empty_raised _ |- Env.not_empty_raised _ => apply H
      end ].

Ltac steady_rows :=
  repeat first
    [ assumption
    | apply (SteadyFacts.steady_ret _ SteadyFacts.same_rows_refl)
    | apply (SteadyFacts.steady_raise _ SteadyFacts.same_rows_refl)
    | apply (SteadyFacts.steady_lift _ SteadyFacts.same_rows_refl)
    | apply (SteadyFacts.steady_gets _ SteadyFacts.same_rows_refl)
    | apply SteadyFacts.steady_modify;
      intros; unfold Env.same_rows; cbn; tauto
    | apply SteadyFacts.steady_execute_rows;
      apply SteadyFacts.statement_transactions; intros;
      repeat match goal with
             | |- context [match ?x with _ => _ end] => destruct x
             end; reflexivity
    | match goal with
      | |- Env.steady _ (try_except _ _) =>
          apply (SteadyFacts.steady_try_except _ SteadyFacts.same_rows_trans)
      | |- Env.steady _ (try_finally _ _) =>
          apply (SteadyFacts.steady_try_finally _ SteadyFacts.same_rows_trans)
      | |- Env.steady _ (bind _ _) =>
          apply (SteadyFacts.steady_bind _ SteadyFacts.same_rows_trans)
      | |- Env.steady _ (match ?x with _ => _ end) => destruct x
      | |- Env.steady _ (if ?x then _ else _) => destruct x
      | |- forall _ : _, Env.steady _ _ => intro
      | H : forall _, Env.steady _ _ |- Env.steady _ _ => apply H
      end ].

Ltac steady_channel :=
  repeat first
    [ assumption
    | apply (SteadyFacts.steady_ret _ SteadyFacts.same_channel_refl)
    | apply (SteadyFacts.steady_raise _ SteadyFacts.same_channel_refl)
    | apply (SteadyFacts.steady_lift _ SteadyFacts.same_channel_refl)
    | apply (SteadyFacts.steady_gets _ SteadyFacts.same_channel_refl)
    | apply SteadyFacts.steady_modify;
      intros; unfold Env.same_channel; cbn; tauto
    | apply SteadyFacts.steady_execute;
      intros; unfold Env.same_channel; cbn; tauto
    | match goal with
      | |- Env.steady _ (try_except _ _) =>
          apply (SteadyFacts.steady_try_except _ SteadyFacts.same_channel_trans)
      | |- Env.steady _ (try_finally _ _) =>
          apply (SteadyFacts.steady_try_finally _ SteadyFacts.same_channel_trans)
      | |- Env.steady _ (bind _ _) =>
          apply (SteadyFacts.steady_bind _ SteadyFacts.same_channel_trans)
      | |- Env.steady _ (match ?x with _ => _ end) => destruct x
      | |- Env.steady _ (if ?x then _ else _) => destruct x
      | |- forall _ : _, Env.steady _ _ => intro
      | H : forall _, Env.steady _ _ |- Env.steady _ _ => apply H
      end ].

(** ** The batch flush *)

Module FlushFacts.
Import Store Env Flush.

Lemma hash_rows_nil (h : string) (rows : list Transaction) :
  hash_rows h rows = [] <-> h ∉ hash <$> rows.
Proof. apply TableFacts.key_rows_nil. Qed.

(** An accepted bulk insert appends the rows and keeps the hashes distinct. *)
Lemma insert_rows_accepted (rows : list Transaction) :
  forall (committed pending p : list Transaction),
    insert_rows rows committed pending = (Return tt, p) ->
    p = pending ++ rows
    /\ (NoDup (hash <$> committed ++ pending) -> NoDup (hash <$> committed ++ p)).
Proof.
  induction rows as [|row rest IH]; intros committed pending p Hins;
    cbn [insert_rows] in Hins.
  - inversion Hins; subst. now rewrite app_nil_r.
  - destruct (hash_rows (hash row) (committed ++ pending)) as [|x xs] eqn:Hfresh;
      [|discriminate].
    destruct (IH _ _ _ Hins) as [-> Hnodup]. split; [now rewrite <- app_assoc|].
    intros Hbefore. apply Hnodup.
    rewrite app_assoc, fmap_app. cbn [fmap list_fmap].
    apply NoDup_app. split; [assumption|]. split.
    + intros h Hin Hnew. apply list_elem_of_singleton in Hnew. subst h.
      now apply hash_rows_nil in Hfresh.
    + apply NoDup_singleton.
Qed.

(** A refused bulk insert fails with the unique violation of a hash of the
    batch. *)
Lemma insert_rows_refused (rows : list Transaction) :
  forall (committed pending p : list Transaction) (e : PyExn),
    insert_rows rows committed pending = (Raise e, p) ->
    exists h : string, e = unique_violation "hash" h /\ h ∈ hash <$> rows.
Proof.
  induction rows as [|row rest IH]; intros committed pending p e Hins;
    cbn [insert_rows] in Hins; [discriminate|].
  destruct (hash_rows (hash row) (committed ++ pending)) as [|x xs] eqn:Hfresh.
  - destruct (IH _ _ _ _ Hins) as (h & -> & Hin).
    exists h. split; [reflexivity|]. rewrite fmap_cons; now right.
  - inversion Hins; subst. exists (hash row).
    split; [reflexivity|]. rewrite fmap_cons; left.
Qed.

(** A batch that holds a hash already committed is refused. *)
Lemma insert_rows_committed_hash (rows : list Transaction) :
  forall (committed pending : list Transaction) (h : string),
    h ∈ hash <$> rows -> h ∈ hash <$> committed ->
    exists (e : PyExn) (p : list Transaction),
      insert_rows rows committed pending = (Raise e, p).
Proof.
  induction rows as [|row rest IH]; intros committed pending h Hin Hcommitted;
    [rewrite fmap_nil in Hin; inversion Hin|].
  cbn [insert_rows].
  destruct (hash_rows (hash row) (committed ++ pending)) as [|x xs] eqn:Hfresh;
    [|eauto].
  rewrite fmap_cons in Hin. apply elem_of_cons in Hin as [->|Hin].
  - apply hash_rows_nil in Hfresh. exfalso. apply Hfresh.
    rewrite fmap_app. apply elem_of_app. now left.
  - now apply (IH committed (pending ++ [row]) h).
Qed.

Ltac world_norm :=
  cbn [db log queue done env clock pending session_closed batch
       add_log add_logs set_db set_channel set_pending set_session_closed
       set_batch faults transactions addresses next_address_id
       set_transactions set_addresses fst snd].

Lemma log_conflicting_logs (rows : list Transaction) :
  forall w : World,
    log_conflicting rows w
    = Some (Return tt,
            add_logs ((fun tx => ConflictingTransaction (hash tx)) <$> rows) w).
Proof.
  induction rows as [|tx rest IH]; intros w; cbn [log_conflicting].
  - unfold ret, add_logs. destruct w; cbn. now rewrite app_nil_r.
  - unfold bind, logger, modify. rewrite IH. do 2 f_equal.
    unfold add_log, add_logs; cbn. f_equal. now rewrite <- app_assoc.
Qed.

(** [__save] on a store that plans no failure: the batch is committed whole
    and cleared, or, when the insert is refused, nothing is committed, the
    conflict is logged and the batch is left as it was. *)
Lemma save_without_failure (thread_id : Z) (w : World) :
  faults (db w) = [] -> pending w = [] ->
  exists w' : World,
    save thread_id w = Some (Return tt, w')
    /\ pending w' = [] /\ faults (db w') = []
    /\ addresses (db w') = addresses (db w)
    /\ queue w' = queue w /\ done w' = done w /\ env w' = env w
    /\ clock w' = clock w
    /\ (has_conflict (batch w) (transactions (db w)) = false ->
        transactions (db w') = transactions (db w) ++ batch w /\ batch w' = [])
    /\ (has_conflict (batch w) (transactions (db w)) = true ->
        transactions (db w') = transactions (db w) /\ batch w' = batch w
        /\ exists h : string,
            h ∈ hash <$> batch w
            /\ In (DuplicateKeyError (unique_violation "hash" h)) (log w')).
Proof.
  intros Hf Hp.
  unfold has_conflict, save, bulk_save_objects, session_commit,
    session_rollback, logger, execute, statement, pop_fault,
    try_except, bind, gets, modify, lift, ret.
  world_norm. rewrite Hf, Hp.
  destruct (insert_rows (batch w) (transactions (db w)) []) as [[[]|e] p] eqn:Hins;
    world_norm.
  - rewrite Hf. cbn.
    destruct (insert_rows_accepted _ _ _ _ Hins) as [-> _].
    eexists; split; [reflexivity|]. cbn. repeat split; auto; discriminate.
  - destruct (insert_rows_refused _ _ _ _ _ Hins) as (h & -> & Hin).
    unfold unique_violation at 1.
    match goal with
    | |- context [search_hash ?m] => destruct (search_hash m) as [hh|]
    end.
    + rewrite log_conflicting_logs.
      unfold query_transaction_first, statement, pop_fault.
      world_norm. rewrite Hf.
      destruct (head (hash_rows hh (transactions (db w)))) as [row|];
        (eexists; split; [reflexivity|]); cbn;
        (repeat split; auto; try discriminate);
        exists h; (split; [assumption|]); rewrite !in_app_iff; cbn; auto 8.
    + eexists; split; [reflexivity|]. cbn.
      repeat split; auto; try discriminate.
      exists h. split; [assumption|]. rewrite !in_app_iff; cbn; auto.
Qed.

Lemma log_conflicting_steady (rows : list Transaction) :
  steady same_channel (log_conflicting rows).
Proof.
  intros w. rewrite log_conflicting_logs. do 2 eexists.
  split; [reflexivity|]. unfold same_channel; cbn; tauto.
Qed.

(** [__save] always returns to its caller or raises; it leaves the queue, the
    event and the clock alone. *)
Lemma save_steady (thread_id : Z) : steady same_channel (save thread_id).
Proof.
  unfold save, bulk_save_objects, session_commit, session_rollback, logger.
  steady_channel; apply log_conflicting_steady.
Qed.

Lemma flush_full_batch_steady (thread_id : Z) :
  steady same_channel (flush_full_batch thread_id).
Proof.
  unfold flush_full_batch. pose proof (save_steady thread_id). steady_channel.
Qed.

Lemma bulk_save_objects_raised (rows : list Transaction) :
  not_empty_raised (bulk_save_objects rows).
Proof.
  intros w w' e. unfold bulk_save_objects, bind, gets, execute, statement, modify, lift.
  destruct (pop_fault (db w)) as [[f|] d1]; cbn.
  - intros H; inversion H. apply SteadyFacts.fault_exn_not_empty.
  - destruct (insert_rows rows (transactions d1) (pending w)) as [[[]|e0] p] eqn:Hins;
      cbn; intros H; inversion H; subst.
    destruct (insert_rows_refused _ _ _ _ _ Hins) as (h & -> & _). discriminate.
Qed.

Lemma session_commit_raised : not_empty_raised session_commit.
Proof.
  unfold session_commit. repeat raised_step.
  apply SteadyFacts.raised_execute, SteadyFacts.statement_raises.
  intros d d' e H; inversion H.
Qed.

Lemma log_conflicting_raised (rows : list Transaction) :
  not_empty_raised (log_conflicting rows).
Proof. intros w w' e. rewrite log_conflicting_logs. intros H; inversion H. Qed.

Lemma save_raised (thread_id : Z) : not_empty_raised (save thread_id).
Proof.
  pose proof log_conflicting_raised as Hlog.
  unfold save, session_rollback, logger. repeat raised_step.
  apply SteadyFacts.raised_execute, SteadyFacts.statement_raises.
  intros d d' e H; inversion H.
Qed.

Lemma flush_full_batch_raised (thread_id : Z) :
  not_empty_raised (flush_full_batch thread_id).
Proof.
  pose proof (save_raised thread_id) as Hsave.
  unfold flush_full_batch. repeat raised_step.
Qed.

(** C1 (amended).  The flush of a full batch on a store that keeps [hash]
    unique and plans no failure.  When the insert is refused for a duplicate
    hash, nothing of the batch is committed (the whole flush is rolled back),
    the conflict is logged, and the batch is dropped whole: no record of it
    is tried again.  A flush never stores a hash twice: the hashes stay
    distinct, so a hash has at most one row.  And when a hash of the batch is
    already stored, the flush is refused and exactly one row keeps that
    hash. *)
Theorem conflicting_flush_drops_batch (thread_id : Z) (w : World) :
  faults (db w) = [] -> pending w = [] -> unique_hashes (db w) ->
  exists w' : World,
    flush_full_batch thread_id w = Some (Return tt, w')
    /\ batch w' = [] /\ pending w' = []
    /\ unique_hashes (db w')
    /\ (has_conflict (batch w) (transactions (db w)) = true ->
        transactions (db w') = transactions (db w)
        /\ exists h : string,
            h ∈ hash <$> batch w
            /\ In (DuplicateKeyError (unique_violation "hash" h)) (log w'))
    /\ (has_conflict (batch w) (transactions (db w)) = false ->
        transactions (db w') = transactions (db w) ++ batch w)
    /\ (forall h : string,
          h ∈ hash <$> batch w -> h ∈ hash <$> transactions (db w) ->
          has_conflict (batch w) (transactions (db w)) = true
          /\ length (hash_rows h (transactions (db w'))) = 1%nat).
Proof.
  intros Hf Hp Hunique.
  destruct (save_without_failure thread_id w Hf Hp)
    as (w1 & Hsave & Hp1 & _ & _ & _ & _ & _ & _ & Hok & Hbad).
  unfold flush_full_batch, bind, modify. rewrite Hsave.
  eexists; split; [reflexivity|]. world_norm.
  split; [reflexivity|]. split; [assumption|].
  assert (Hrows : unique_hashes (db w1)
                  /\ (has_conflict (batch w) (transactions (db w)) = true ->
                      transactions (db w1) = transactions (db w))).
  { unfold has_conflict in *.
    destruct (insert_rows (batch w) (transactions (db w)) []) as [[[]|e] p] eqn:Hins.
    - destruct (Hok eq_refl) as [Htx _]. split; [|discriminate].
      destruct (insert_rows_accepted _ _ _ _ Hins) as [-> Hnodup].
      unfold unique_hashes in *. rewrite Htx. apply Hnodup.
      now rewrite app_nil_r.
    - destruct (Hbad eq_refl) as [Htx _]. split; [|auto].
      unfold unique_hashes in *. now rewrite Htx. }
  destruct Hrows as [Hunique1 Hsame].
  split; [assumption|]. split; [|split].
  - intros Hc. destruct (Hbad Hc) as (Htx & _ & Hlog). auto.
  - intros Hc. now destruct (Hok Hc).
  - intros h Hin Hstored.
    destruct (insert_rows_committed_hash (batch w) (transactions (db w)) [] h Hin Hstored)
      as (e & p & Hins).
    assert (Hc : has_conflict (batch w) (transactions (db w)) = true)
      by (unfold has_conflict; now rewrite Hins).
    split; [assumption|]. rewrite (Hsame Hc).
    destruct (TableFacts.unique_key_rows hash h (transactions (db w)) Hunique)
      as [Hnone|[row Hrow]].
    + apply hash_rows_nil in Hnone. contradiction.
    + unfold hash_rows. now rewrite Hrow.
Qed.

Lemma conflicting_flush_drops_batch_witness :
  exists w' : World,
    flush_full_batch 7
      (set_batch [Examples.stored_transfer "0xk"; Examples.stored_transfer "0xh"]
                 (Examples.drained_world Examples.stored_db []))
    = Some (Return tt, w')
    /\ batch w' = [] /\ pending w' = []
    /\ transactions (db w') = [Examples.stored_transfer "0xh"].
Proof.
  destruct (conflicting_flush_drops_batch
              7 (set_batch [Examples.stored_transfer "0xk"; Examples.stored_transfer "0xh"]
                           (Examples.drained_world Examples.stored_db []))
              eq_refl eq_refl)
    as (w' & Hrun & Hbatch & Hpending & _ & Hconflict & _).
  - apply NoDup_singleton.
  - exists w'. repeat (split; [assumption|]).
    now destruct (Hconflict eq_refl) as [-> _].
Defined.

End FlushFacts.

(** ** The consumer *)

Module ConsumerFacts.
Import Store Env Builtins Resolver Flush Consumer.

(** A run that is evaluated: it is enough to look at what it evaluates to. *)
Lemma evaluated_run {A} (res : option (Outcome A * World)) (r : Outcome A)
      (P : World -> Prop) :
  match res with
  | Some (r', w') => r' = r /\ P w'
  | None => False
  end ->
  exists w' : World, res = Some (r, w') /\ P w'.
Proof.
  destruct res as [[r' w']|]; [|contradiction].
  intros [-> HP]. eauto.
Qed.

(** C1 (as stated, refuted).  The hash ["0xh"] is ingested twice, both
    records landing in the same batch of two: the bulk insert is refused for
    the second of them, the whole batch is dropped, and the store ends with no
    row for that hash, not with exactly one. *)
Lemma duplicate_hash_in_one_batch_leaves_no_row :
  exists w' : World,
    consume Examples.sample_cfg 7 3
            (Examples.drained_world Examples.empty_db
               [Examples.transfer "0xh"; Examples.transfer "0xh"])
    = Some (Return tt, w')
    /\ length (hash_rows "0xh" (transactions (db w'))) = 0%nat
    /\ batch w' = [].
Proof. apply evaluated_run. vm_compute. auto. Qed.

(** C2.  The first statement of the store fails with an operational error
    while the sender of a dequeued transfer is resolved: the resolver returns
    [None], and the consumer builds the entity with that [None] as
    [from_address_id] and appends it to its batch; the final flush stores the
    row with no sender. *)
Theorem unresolved_address_is_batched :
  let tx := {| block_number := 80; time_stamp := 1700000000; hash := "0xh";
               from_address_id := None; to_address_id := Some 1; value := 5;
               gas := 21000; gas_used := 20000; is_error := 0 |} in
  (exists w1 : World,
      process_record Examples.sample_cfg 7 (Examples.transfer "0xh")
                     (Examples.drained_world Examples.failing_db [])
      = Some (Return tt, w1)
      /\ batch w1 = [tx])
  /\ (exists w2 : World,
        consume Examples.sample_cfg 7 2
                (Examples.drained_world Examples.failing_db [Examples.transfer "0xh"])
        = Some (Return tt, w2)
        /\ transactions (db w2) = [tx]
        /\ address_rows "0xa" (db w2) = []).
Proof.
  split; apply evaluated_run; vm_compute; auto.
Qed.

(** The resolver always returns or raises; it touches neither the channel nor
    the transactions nor the batch. *)
Lemma get_or_create_address_steady (a : string) :
  steady (fun w w' => same_channel w w' /\ same_rows w w')
         (get_or_create_address a).
Proof.
  apply SteadyFacts.steady_and;
    unfold get_or_create_address, find_or_insert, on_integrity_error,
      on_other_error, session_rollback, session_close, logger,
      query_address_one_or_none, insert_address, query_address_one.
  - steady_channel.
  - steady_rows.
Qed.

(** What is done with one record always returns or raises, and leaves the
    channel alone. *)
Lemma process_record_steady (cfg : Config) (thread_id : Z) (raw : RawRecord) :
  steady same_channel (process_record cfg thread_id raw).
Proof.
  pose proof (FlushFacts.flush_full_batch_steady thread_id) as Hflush.
  assert (Hresolve : forall a, steady same_channel (get_or_create_address a)).
  { intros a. apply (SteadyFacts.steady_weaken
                       (fun w w' => same_channel w w' /\ same_rows w w')).
    - tauto.
    - apply get_or_create_address_steady. }
  pose proof (FlushFacts.save_steady thread_id) as Hsave.
  unfold process_record, logger. steady_channel.
Qed.

(** Waiting on the empty queue: time moves on by at most [remaining]; the
    event is a latch; a record taken, or a timeout with events left, has used
    up part of the environment. *)
Lemma wait_for_item_spec (events : list EnvEvent) :
  forall (remaining : nat) (is_set : bool) (now : Z),
    let '(got, events', is_set', now') :=
      wait_for_item events remaining is_set now in
    (length events' <= length events)%nat
    /\ now <= now' <= now + Z.of_nat remaining
    /\ (is_set = true -> is_set' = true)
    /\ (is_set = true \/ SetDone ∈ events -> is_set' = true \/ SetDone ∈ events')
    /\ match got with
       | Some _ => (length events' < length events)%nat
       | None =>
           (0 < remaining)%nat ->
           events' = [] \/ (length events' < length events)%nat
       end.
Proof.
  induction events as [|ev rest IH]; intros remaining is_set now.
  - destruct remaining; cbn [wait_for_item]; repeat split; auto; lia.
  - destruct remaining as [|remaining']; cbn [wait_for_item];
      [repeat split; auto; lia|].
    destruct ev as [raw| |].
    + cbn [length]. repeat split; auto; try lia.
      intros [?|Hin]; [auto|]. apply elem_of_cons in Hin as [Hin|Hin];
        [discriminate | auto].
    + specialize (IH (S remaining') true now).
      destruct (wait_for_item rest (S remaining') true now)
        as [[[got events'] is_set'] now'].
      destruct IH as (Hlen & Hnow & Hset & Hsig & Hgot). cbn [length].
      repeat split; auto; try lia.
      destruct got; [lia|]. intros Hpos. destruct (Hgot Hpos); [auto|right; lia].
    + specialize (IH remaining' is_set (now + 1)).
      destruct (wait_for_item rest remaining' is_set (now + 1))
        as [[[got events'] is_set'] now'].
      destruct IH as (Hlen & Hnow & Hset & Hsig & Hgot). cbn [length].
      repeat split; auto; try lia.
      * intros [?|Hin]; [auto|]. apply elem_of_cons in Hin as [Hin|Hin];
          [discriminate | auto].
      * destruct got; [lia|]. intros _. right. lia.
Qed.

(** With the producers finished the wait times out, after exactly
    [remaining] units of time. *)
Lemma wait_for_item_no_puts (events : list EnvEvent) :
  no_more_puts events ->
  forall (remaining : nat) (is_set : bool) (now : Z),
  exists (events' : list EnvEvent) (is_set' : bool),
    wait_for_item events remaining is_set now
    = (None, events', is_set', now + Z.of_nat remaining)
    /\ no_more_puts events'.
Proof.
  induction events as [|ev rest IH]; intros Hputs remaining is_set now.
  - destruct remaining; cbn [wait_for_item];
      do 2 eexists; (split; [f_equal; lia | assumption]).
  - assert (Hrest : no_more_puts rest)
      by (intros raw Hin; apply (Hputs raw); now right).
    destruct remaining as [|remaining']; cbn [wait_for_item].
    + do 2 eexists. split; [f_equal; lia | assumption].
    + destruct ev as [raw| |].
      * exfalso. apply (Hputs raw). left.
      * apply (IH Hrest).
      * destruct (IH Hrest remaining' is_set (now + 1)) as (ev' & s' & -> & Hputs').
        do 2 eexists. split; [f_equal; lia | assumption].
Qed.

Lemma py_int_raises (s : string) (e : PyExn) :
  py_int s = Raise e -> e <> QueueEmpty.
Proof.
  unfold py_int.
  destruct (match strip s with
            | String "-"%char r => (true, r)
            | String "+"%char r => (false, r)
            | _ => (false, strip s)
            end) as [negative body].
  destruct (digits body 0 0 false) as [[n count]|];
    [destruct (count <=? int_max_str_digits)%nat|];
    intros H; inversion H; discriminate.
Qed.

Lemma int_field_raises (raw : RawRecord) (key : string) (e : PyExn) :
  int_field raw key = Raise e -> e <> QueueEmpty.
Proof.
  unfold int_field, getitem, obind. destruct (raw !! key) as [s|].
  - apply py_int_raises.
  - intros H; inversion H; discriminate.
Qed.

Lemma int_field_malformed (raw : RawRecord) (key s : string) (e : PyExn) :
  raw !! key = Some s -> py_int s = Raise e -> int_field raw key = Raise e.
Proof. intros Hkey Hint. unfold int_field, getitem, obind. now rewrite Hkey. Qed.

(** Whatever the addresses resolved to, no entity is built from a malformed
    record. *)
Lemma make_transaction_malformed (raw : RawRecord) (from_id to_id : option Z) :
  malformed raw ->
  exists e : PyExn,
    make_transaction raw from_id to_id = Raise e /\ e <> QueueEmpty.
Proof.
  intros (key & s & e & Hkey & Hraw & Hint).
  pose proof (int_field_malformed raw key s e Hraw Hint) as Hbad.
  unfold make_transaction, obind.
  destruct (int_field raw "blockNumber") as [bn|e1] eqn:H1;
    [|eauto using int_field_raises].
  destruct (int_field raw "timeStamp") as [ts|e2] eqn:H2;
    [|eauto using int_field_raises].
  destruct (fromtimestamp_utc ts) as [ts'|e3] eqn:H3.
  2:{ exists e3. split; [reflexivity|]. unfold fromtimestamp_utc in H3.
      destruct ((min_timestamp <=? ts) && (ts <=? max_timestamp));
        inversion H3; discriminate. }
  destruct (getitem raw "hash") as [h|e4] eqn:H4.
  2:{ exists e4. split; [reflexivity|]. unfold getitem in H4.
      destruct (raw !! "hash"); inversion H4; discriminate. }
  destruct (int_field raw "value") as [v|e5] eqn:H5;
    [|eauto using int_field_raises].
  destruct (int_field raw "gas") as [g|e6] eqn:H6;
    [|eauto using int_field_raises].
  destruct (int_field raw "gasUsed") as [gu|e7] eqn:H7;
    [|eauto using int_field_raises].
  destruct (int_field raw "isError") as [ie|e8] eqn:H8;
    [|eauto using int_field_raises].
  exfalso. unfold int_fields in Hkey.
  repeat (apply elem_of_cons in Hkey as [->|Hkey]; [congruence|]).
  inversion Hkey.
Qed.

Lemma make_transaction_raises (raw : RawRecord) (from_id to_id : option Z)
      (e : PyExn) :
  make_transaction raw from_id to_id = Raise e -> e <> QueueEmpty.
Proof.
  unfold make_transaction, obind.
  destruct (int_field raw "blockNumber") as [bn|e1] eqn:H1;
    [|intros H; inversion H; subst; now apply (int_field_raises raw "blockNumber")].
  destruct (int_field raw "timeStamp") as [ts|e2] eqn:H2;
    [|intros H; inversion H; subst; now apply (int_field_raises raw "timeStamp")].
  unfold fromtimestamp_utc.
  destruct ((min_timestamp <=? ts) && (ts <=? max_timestamp));
    [|intros H; inversion H; discriminate].
  unfold getitem at 1.
  destruct (raw !! "hash") as [h|]; [|intros H; inversion H; discriminate].
  destruct (int_field raw "value") as [v|e5] eqn:H5;
    [|intros H; inversion H; subst; now apply (int_field_raises raw "value")].
  destruct (int_field raw "gas") as [g|e6] eqn:H6;
    [|intros H; inversion H; subst; now apply (int_field_raises raw "gas")].
  destruct (int_field raw "gasUsed") as [gu|e7] eqn:H7;
    [|intros H; inversion H; subst; now apply (int_field_raises raw "gasUsed")].
  destruct (int_field raw "isError") as [ie|e8] eqn:H8;
    [|intros H; inversion H; subst; now apply (int_field_raises raw "isError")].
  intros H; inversion H.
Qed.

Section Loop.
Variable cfg : Config.
Variable thread_id : Z.

(** Whatever goes wrong with a record, it is not mistaken for a timeout. *)
Lemma process_record_raised (raw : RawRecord) :
  not_empty_raised (process_record cfg thread_id raw).
Proof.
  pose proof (FlushFacts.flush_full_batch_raised thread_id) as Hflush.
  pose proof (FlushFacts.save_raised thread_id) as Hsave.
  assert (Hresolve : forall a, not_empty_raised (get_or_create_address a))
    by (intros a w w' e; apply ResolverFacts.get_or_create_address_raises).
  unfold process_record, logger. repeat raised_step.
  - apply SteadyFacts.raised_lift. intros e. unfold getitem.
    destruct (raw !! "from"); intros H; inversion H; discriminate.
  - apply SteadyFacts.raised_lift. intros e. unfold getitem.
    destruct (raw !! "to"); intros H; inversion H; discriminate.
  - apply SteadyFacts.raised_lift. intros e. apply make_transaction_raises.
  - apply SteadyFacts.raised_execute. unfold count_transactions.
    apply SteadyFacts.statement_raises. intros d d' e H; inversion H.
Qed.

(** A malformed record makes its pass raise, before anything is appended to
    the batch or stored. *)
Lemma process_record_malformed (raw : RawRecord) (w : World) :
  malformed raw ->
  exists (e : PyExn) (w' : World),
    process_record cfg thread_id raw w = Some (Raise e, w')
    /\ e <> QueueEmpty /\ same_channel w w' /\ same_rows w w'.
Proof.
  intros Hbad. unfold process_record.
  unfold bind at 1, lift.
  destruct (getitem raw "from") as [from_address|e0] eqn:Hfrom.
  2:{ exists e0, w. split; [reflexivity|]. unfold getitem in Hfrom.
      destruct (raw !! "from"); inversion Hfrom.
      split; [discriminate|].
      split; [apply SteadyFacts.same_channel_refl | apply SteadyFacts.same_rows_refl]. }
  unfold bind at 1.
  destruct (get_or_create_address_steady from_address w)
    as (r1 & w1 & Hrun1 & Hch1 & Hrows1). rewrite Hrun1.
  destruct r1 as [from_id|e1].
  2:{ exists e1, w1. split; [reflexivity|].
      split; [now apply (ResolverFacts.get_or_create_address_raises _ _ _ _ Hrun1)|].
      now split. }
  unfold bind at 1, lift.
  destruct (getitem raw "to") as [to_address|e2] eqn:Hto.
  2:{ exists e2, w1. split; [reflexivity|]. unfold getitem in Hto.
      destruct (raw !! "to"); inversion Hto.
      split; [discriminate|]. now split. }
  unfold bind at 1.
  destruct (get_or_create_address_steady to_address w1)
    as (r2 & w2 & Hrun2 & Hch2 & Hrows2). rewrite Hrun2.
  assert (Hch : same_channel w w2)
    by (now apply (SteadyFacts.same_channel_trans w w1 w2)).
  assert (Hrows : same_rows w w2)
    by (now apply (SteadyFacts.same_rows_trans w w1 w2)).
  destruct r2 as [to_id|e3].
  2:{ exists e3, w2. split; [reflexivity|].
      split; [now apply (ResolverFacts.get_or_create_address_raises _ _ _ _ Hrun2)|].
      now split. }
  destruct (make_transaction_malformed raw from_id to_id Hbad) as (e & Hmake & Hne).
  unfold bind, lift. rewrite Hmake. exists e, w2. auto.
Qed.

Lemma on_exception_other (e : PyExn) (w : World) :
  e <> QueueEmpty -> on_exception thread_id e w = Some (Raise e, w).
Proof. intros Hne. destruct e; try reflexivity. congruence. Qed.

Lemma on_exception_steady (e : PyExn) :
  steady same_channel (on_exception thread_id e).
Proof. unfold on_exception, logger. steady_channel. Qed.

(** The pass that follows a pop: it ends with [Continue], [Break] or an
    exception, and the channel is as the pop left it. *)
Lemma loop_body_after_pop (w w1 : World) (raw : RawRecord) :
  queue_get queue_timeout w = Some (Return raw, w1) ->
  exists (r : Outcome Ctl) (w2 : World),
    loop_body cfg thread_id w = Some (r, w2) /\ same_channel w1 w2.
Proof.
  intros Hget. unfold loop_body, try_except, bind. rewrite Hget.
  destruct (process_record_steady cfg thread_id raw w1) as (r & w2 & -> & Hch).
  destruct r as [[]|e]; [unfold ret; eauto|].
  destruct (on_exception_steady e w2) as (r' & w3 & -> & Hch').
  do 2 eexists. split; [reflexivity|].
  now apply (SteadyFacts.same_channel_trans w1 w2 w3).
Qed.

(** The pass that follows a timeout: the event is looked at again. *)
Lemma loop_body_after_timeout (w w1 : World) :
  queue_get queue_timeout w = Some (Raise QueueEmpty, w1) ->
  loop_body cfg thread_id w
  = Some (Return (if done w1 then Break else Continue),
          add_log (if done w1 then ProducersFinished thread_id
                   else QueueEmptyWaiting thread_id) w1).
Proof.
  intros Hget. unfold loop_body, try_except, bind. rewrite Hget.
  unfold on_exception, bind, gets, logger, modify, ret.
  now destruct (done w1).
Qed.

(** [queue.get] returns a record or raises [queue.Empty], nothing else. *)
Lemma queue_get_cases (timeout : nat) (w : World) :
  exists w1 : World,
    (exists raw, queue_get timeout w = Some (Return raw, w1))
    \/ queue_get timeout w = Some (Raise QueueEmpty, w1).
Proof.
  unfold queue_get. destruct (queue w) as [|raw rest]; [|eauto].
  destruct (wait_for_item (env w) timeout (done w) (clock w))
    as [[[[raw|] events] is_set] now]; eauto.
Qed.

(** A pass that ends with [Continue] has taken something from the queue or
    from the environment, and the event is still set or coming. *)
Lemma loop_body_progress (w : World) :
  signal_coming w ->
  exists (r : Outcome Ctl) (w' : World),
    loop_body cfg thread_id w = Some (r, w')
    /\ (r = Return Continue ->
        signal_coming w'
        /\ (length (queue w') + length (env w')
            < length (queue w) + length (env w))%nat).
Proof.
  intros Hsignal.
  pose proof (wait_for_item_spec (env w) queue_timeout (done w) (clock w)) as Hwait.
  destruct (queue w) as [|raw rest] eqn:Hq.
  - destruct (wait_for_item (env w) queue_timeout (done w) (clock w))
      as [[[got events] is_set] now] eqn:Hw.
    destruct Hwait as (Hlen & _ & _ & Hsig & Hgot).
    destruct got as [raw|].
    + destruct (loop_body_after_pop w (set_channel [] is_set events now w) raw)
        as (r & w2 & Hrun & Hq2 & Hd2 & He2 & _).
      { unfold queue_get. now rewrite Hq, Hw. }
      exists r, w2. split; [assumption|]. intros _.
      unfold signal_coming. rewrite Hq2, Hd2, He2. cbn. split; [now apply Hsig | lia].
    + rewrite (loop_body_after_timeout w (set_channel [] is_set events now w))
        by (unfold queue_get; now rewrite Hq, Hw).
      do 2 eexists. split; [reflexivity|]. cbn.
      destruct is_set; [discriminate|]. intros _.
      destruct (Hsig Hsignal) as [?|Hin]; [discriminate|].
      split; [now right|].
      destruct Hgot as [->|?]; [unfold queue_timeout; lia | inversion Hin | lia].
  - destruct (loop_body_after_pop w (set_channel rest (done w) (env w) (clock w) w) raw)
      as (r & w2 & Hrun & Hq2 & Hd2 & He2 & _).
    { unfold queue_get. now rewrite Hq. }
    exists r, w2. split; [assumption|]. intros _.
    unfold signal_coming. rewrite Hq2, Hd2, He2. cbn. split; [assumption | lia].
Qed.

(** With the event set or coming, [drain_fuel] passes are enough for the loop
    to end. *)
Lemma consume_loop_terminates (fuel : nat) :
  forall w : World,
    signal_coming w ->
    (length (queue w) + length (env w) < fuel)%nat ->
    exists (r : Outcome unit) (w' : World),
      consume_loop cfg thread_id fuel w = Some (r, w').
Proof.
  induction fuel as [|fuel IH]; intros w Hsignal Hfuel; [lia|].
  cbn [consume_loop]. unfold bind at 1, gets.
  destruct (keep_running w); [|unfold ret; eauto].
  unfold bind.
  destruct (loop_body_progress w Hsignal) as (r & w' & -> & Hcontinue).
  destruct r as [[|]|e]; [|unfold ret; eauto|eauto].
  destruct (Hcontinue eq_refl) as [Hsignal' Hless].
  apply IH; [assumption | lia].
Qed.

Lemma queue_get_timeout_empty (timeout : nat) (w w1 : World) :
  queue_get timeout w = Some (Raise QueueEmpty, w1) ->
  queue w = [] /\ queue w1 = [].
Proof.
  unfold queue_get. destruct (queue w) as [|raw rest]; [|discriminate].
  destruct (wait_for_item (env w) timeout (done w) (clock w))
    as [[[[raw|] events] is_set] now]; intros H; inversion H. auto.
Qed.

Lemma queue_get_clock (timeout : nat) (w w1 : World) (r : Outcome RawRecord) :
  queue_get timeout w = Some (r, w1) ->
  clock w <= clock w1 <= clock w + Z.of_nat timeout.
Proof.
  unfold queue_get. destruct (queue w) as [|raw rest].
  - pose proof (wait_for_item_spec (env w) timeout (done w) (clock w)) as Hwait.
    destruct (wait_for_item (env w) timeout (done w) (clock w))
      as [[[[raw|] events] is_set] now];
      intros H; inversion H; subst; cbn; tauto.
  - intros H; inversion H; subst; cbn. lia.
Qed.

(** The loop is left by [break] only after a timeout that found the event
    set. *)
Lemma loop_body_break (w w1 : World) :
  loop_body cfg thread_id w = Some (Return Break, w1) ->
  done w1 = true /\ queue w1 = [].
Proof.
  destruct (queue_get_cases queue_timeout w) as (w0 & [[raw Hget]|Hget]).
  - unfold loop_body, try_except, bind. rewrite Hget.
    destruct (process_record cfg thread_id raw w0) as [[[[]|e] w2]|] eqn:Hrun;
      [intros H; inversion H | | discriminate].
    rewrite on_exception_other
      by (now apply (process_record_raised raw w0 w2)).
    intros H; inversion H.
  - rewrite (loop_body_after_timeout w w0 Hget).
    destruct (queue_get_timeout_empty _ _ _ Hget) as [_ Hq0].
    destruct (done w0) eqn:Hdone; intros H; inversion H; subst; cbn; auto.
Qed.

(** The loop ends normally only with the event set and the queue seen
    empty. *)
Lemma consume_loop_normal_exit (fuel : nat) :
  forall w w' : World,
    consume_loop cfg thread_id fuel w = Some (Return tt, w') ->
    done w' = true /\ queue w' = [].
Proof.
  assert (Hstop : forall w, keep_running w = false -> done w = true /\ queue w = []).
  { intros w. unfold keep_running. intros H.
    apply orb_false_elim in H as [Hd Hq].
    apply negb_false_iff in Hd, Hq. apply bool_decide_eq_true in Hq. auto. }
  induction fuel as [|fuel IH]; intros w w'; cbn [consume_loop];
    unfold bind at 1, gets; destruct (keep_running w) eqn:Hk;
    try discriminate;
    try (unfold ret; intros H; inversion H; subst; now apply Hstop).
  unfold bind. destruct (loop_body cfg thread_id w) as [[[[|]|e] w1]|] eqn:Hbody;
    try discriminate.
  - apply IH.
  - unfold ret. intros H; inversion H; subst. now apply loop_body_break in Hbody.
Qed.

Lemma wait_for_item_ticks (post : list EnvEvent) (k : nat) :
  forall (remaining : nat) (is_set : bool) (now : Z),
    (k < remaining)%nat ->
    wait_for_item (replicate k Tick ++ SetDone :: post) remaining is_set now
    = wait_for_item post (remaining - k) true (now + Z.of_nat k).
Proof.
  induction k as [|k IH]; intros remaining is_set now Hk;
    destruct remaining as [|remaining']; try lia; cbn [replicate app wait_for_item].
  - replace (now + Z.of_nat 0) with now by lia. reflexivity.
  - rewrite IH by lia. cbn [Nat.sub]. f_equal. lia.
Qed.

Lemma final_flush_steady : steady same_channel (final_flush thread_id).
Proof.
  pose proof (FlushFacts.save_steady thread_id) as Hsave.
  unfold final_flush, logger. steady_channel.
Qed.

Lemma consume_started (fuel : nat) (w : World) :
  consume cfg thread_id fuel w
  = consume_guarded cfg thread_id fuel (started_world thread_id w).
Proof. reflexivity. Qed.

(** The [try] statement once the loop has ended, one way or the other. *)
Lemma consume_guarded_after_loop (fuel : nat) (w w1 : World) (r : Outcome unit) :
  consume_loop cfg thread_id fuel w = Some (r, w1) ->
  consume_guarded cfg thread_id fuel w
  = match r with
    | Return _ =>
        match final_flush thread_id w1 with
        | Some (Return _, w2) => Some (Return tt, closed_world thread_id w2)
        | Some (Raise e, w2) =>
            Some (Return tt,
                  closed_world thread_id (add_log (ConsumerShuttingDown e) w2))
        | None => None
        end
    | Raise e =>
        Some (Return tt,
              closed_world thread_id (add_log (ConsumerShuttingDown e) w1))
    end.
Proof.
  intros Hloop. unfold consume_guarded, try_finally, try_except, bind.
  rewrite Hloop. destruct r as [[]|e]; [|reflexivity].
  destruct (final_flush thread_id w1) as [[[[]|e] w2]|]; reflexivity.
Qed.

Lemma consume_guarded_returns (fuel : nat) (w w' : World) (r : Outcome unit) :
  consume_guarded cfg thread_id fuel w = Some (r, w') ->
  r = Return tt /\ session_closed w' = true /\ pending w' = []
  /\ last (log w') = Some (SessionClosed thread_id).
Proof.
  unfold consume_guarded, try_finally, try_except, session_close, logger,
    modify.
  destruct ((exec consume_loop cfg thread_id fuel ; final_flush thread_id) w)
    as [[[[]|e] w1]|]; [| |discriminate];
    unfold bind; intros H; inversion H; subst; cbn;
    (repeat split; auto); apply last_snoc.
Qed.

(** A malformed record at the head of the queue ends the loop with its
    exception; nothing was stored or batched on the way. *)
Lemma consume_loop_malformed (fuel : nat) (w : World) (raw : RawRecord)
      (rest : list RawRecord) :
  queue w = raw :: rest -> malformed raw ->
  exists (e : PyExn) (w1 : World),
    consume_loop cfg thread_id (S fuel) w = Some (Raise e, w1)
    /\ same_rows w w1 /\ queue w1 = rest.
Proof.
  intros Hq Hbad.
  set (w0 := set_channel rest (done w) (env w) (clock w) w).
  destruct (process_record_malformed raw w0 Hbad)
    as (e & w1 & Hrun & Hne & (Hq1 & _) & Hrows).
  exists e, w1. split; [|split; [exact Hrows | exact Hq1]].
  cbn [consume_loop]. unfold bind at 1, gets, keep_running. rewrite Hq.
  rewrite orb_true_r. unfold bind at 1.
  unfold loop_body, try_except, bind, queue_get. rewrite Hq. fold w0.
  rewrite Hrun. now rewrite on_exception_other.
Qed.

(** An exception that leaves a pass is not [queue.Empty], which the pass
    handles itself. *)
Lemma loop_body_raised (w w1 : World) (e : PyExn) :
  loop_body cfg thread_id w = Some (Raise e, w1) -> e <> QueueEmpty.
Proof.
  destruct (queue_get_cases queue_timeout w) as (w0 & [[raw Hget]|Hget]).
  - unfold loop_body, try_except, bind. rewrite Hget.
    destruct (process_record cfg thread_id raw w0) as [[[[]|e'] w2]|] eqn:Hrun;
      [intros H; inversion H | | discriminate].
    pose proof (process_record_raised raw w0 w2 e' Hrun) as Hne.
    rewrite on_exception_other by assumption.
    intros H; inversion H; subst; assumption.
  - rewrite (loop_body_after_timeout w w0 Hget). intros H; inversion H.
Qed.

(** The loop is left in one of two ways: normally, with the event set and
    the queue seen empty, or by an exception that is not [queue.Empty]. *)
Lemma consume_loop_exits (fuel : nat) :
  forall (w w' : World) (r : Outcome unit),
    consume_loop cfg thread_id fuel w = Some (r, w') ->
    (r = Return tt /\ done w' = true /\ queue w' = [])
    \/ (exists e : PyExn, r = Raise e /\ e <> QueueEmpty).
Proof.
  intros w w' [[]|e] Hrun.
  - left. split; [reflexivity|]. now apply (consume_loop_normal_exit fuel w w').
  - right. exists e. split; [reflexivity|].
    revert w Hrun. induction fuel as [|fuel IH]; intros w; cbn [consume_loop];
      unfold bind at 1, gets; destruct (keep_running w); try discriminate.
    unfold bind.
    destruct (loop_body cfg thread_id w) as [[[[|]|e'] w1]|] eqn:Hbody;
      try discriminate.
    + apply IH.
    + intros H; inversion H; subst. now apply (loop_body_raised w w').
Qed.

(** A malformed record at the head of the queue ends the loop at once,
    whatever the event and the rest of the queue: no time passes, the event
    is as it was, and the records behind it stay in the queue. *)
Lemma consume_loop_error_exit (fuel : nat) (w : World) (raw : RawRecord)
      (rest : list RawRecord) :
  queue w = raw :: rest -> malformed raw ->
  exists (e : PyExn) (w1 : World),
    consume_loop cfg thread_id (S fuel) w = Some (Raise e, w1)
    /\ e <> QueueEmpty
    /\ queue w1 = rest /\ done w1 = done w /\ clock w1 = clock w.
Proof.
  intros Hq Hbad.
  set (w0 := set_channel rest (done w) (env w) (clock w) w).
  destruct (process_record_malformed raw w0 Hbad)
    as (e & w1 & Hrun & Hne & (Hq1 & Hd1 & _ & Hc1) & _).
  exists e, w1. split; [|auto].
  cbn [consume_loop]. unfold bind at 1, gets, keep_running. rewrite Hq.
  rewrite orb_true_r. unfold bind at 1.
  unfold loop_body, try_except, bind, queue_get. rewrite Hq. fold w0.
  rewrite Hrun. now rewrite on_exception_other.
Qed.

(** C10.  [consume] never hands an exception to its caller: whenever it ends
    it returns [None] with the session closed, and it does end, within
    [drain_fuel] passes, once the "producers done" event is set or coming.
    In particular a dequeued record with an integer field that does not parse
    ends the loop: the exception is logged, the session is closed, the call
    returns, and neither the record nor the batch held at that time has
    reached the store. *)
Theorem consume_never_raises (w : World) :
  (forall (fuel : nat) (r : Outcome unit) (w' : World),
      consume cfg thread_id fuel w = Some (r, w') ->
      r = Return tt /\ session_closed w' = true
      /\ last (log w') = Some (SessionClosed thread_id))
  /\ (signal_coming w ->
      forall fuel : nat,
        (drain_fuel w <= fuel)%nat ->
        exists w' : World, consume cfg thread_id fuel w = Some (Return tt, w'))
  /\ (forall (raw : RawRecord) (rest : list RawRecord) (fuel : nat),
        queue w = raw :: rest -> malformed raw ->
        exists (e : PyExn) (w' : World),
          consume_guarded cfg thread_id (S fuel) w = Some (Return tt, w')
          /\ In (ConsumerShuttingDown e) (log w')
          /\ transactions (db w') = transactions (db w)
          /\ batch w' = batch w /\ queue w' = rest
          /\ session_closed w' = true).
Proof.
  split; [|split].
  - intros fuel r w' Hrun. rewrite consume_started in Hrun.
    apply consume_guarded_returns in Hrun. tauto.
  - intros Hsignal fuel Hfuel. rewrite consume_started.
    destruct (consume_loop_terminates fuel (started_world thread_id w))
      as (r & w1 & Hloop); [exact Hsignal | unfold drain_fuel in Hfuel; cbn; lia|].
    rewrite (consume_guarded_after_loop _ _ _ _ Hloop).
    destruct r as [[]|e]; [|eauto].
    destruct (final_flush_steady w1) as ([[]|e] & w2 & -> & _); eauto.
  - intros raw rest fuel Hq Hbad.
    destruct (consume_loop_malformed fuel w raw rest Hq Hbad)
      as (e & w1 & Hloop & [Htx Hbatch] & Hq1).
    rewrite (consume_guarded_after_loop _ _ _ _ Hloop).
    exists e. eexists. split; [reflexivity|]. cbn.
    repeat split; auto. rewrite !in_app_iff; cbn; auto.
Qed.

(** C9 (amended).  When the loop ends normally the remaining batch, if any,
    is flushed by [__save], the function of the full flush (an exception
    leaving [__save] is logged like any other), and the session is closed;
    when an exception ends the loop it is logged and the session is closed,
    with no flush: the store is as the loop left it.  On every way out the
    session is closed by the [finally] clause, its last act. *)
Theorem final_flush_on_normal_exit_only (fuel : nat) (w : World) :
  (forall w1 : World,
      consume_loop cfg thread_id fuel w = Some (Return tt, w1) ->
      (batch w1 = [] ->
       consume_guarded cfg thread_id fuel w
       = Some (Return tt, closed_world thread_id w1))
      /\ (batch w1 <> [] ->
          forall w2 : World,
            save thread_id w1 = Some (Return tt, w2) ->
            consume_guarded cfg thread_id fuel w
            = Some (Return tt,
                    closed_world thread_id
                      (add_log (FinalBatchSaved (length (batch w2))) w2)))
      /\ (batch w1 <> [] ->
          forall (e : PyExn) (w2 : World),
            save thread_id w1 = Some (Raise e, w2) ->
            consume_guarded cfg thread_id fuel w
            = Some (Return tt,
                    closed_world thread_id
                      (add_log (ConsumerShuttingDown e) w2))))
  /\ (forall (e : PyExn) (w1 : World),
        consume_loop cfg thread_id fuel w = Some (Raise e, w1) ->
        consume_guarded cfg thread_id fuel w
        = Some (Return tt,
                closed_world thread_id (add_log (ConsumerShuttingDown e) w1)))
  /\ (forall (r : Outcome unit) (w' : World),
        consume_guarded cfg thread_id fuel w = Some (r, w') ->
        r = Return tt /\ session_closed w' = true /\ pending w' = []
        /\ last (log w') = Some (SessionClosed thread_id)).
Proof.
  split; [|split].
  - intros w1 Hloop. rewrite (consume_guarded_after_loop _ _ _ _ Hloop).
    unfold final_flush, bind, gets. split; [|split].
    + intros ->. reflexivity.
    + intros Hbatch w2 Hsave. destruct (batch w1) as [|tx rest]; [congruence|].
      now rewrite Hsave.
    + intros Hbatch e w2 Hsave. destruct (batch w1) as [|tx rest]; [congruence|].
      now rewrite Hsave.
  - intros e w1 Hloop. now rewrite (consume_guarded_after_loop _ _ _ _ Hloop).
  - intros r w'. apply consume_guarded_returns.
Qed.

(** C7 (amended).  Time is counted in the units that pass while a consumer
    is blocked in [queue.get].
    - A pop waits at most [queue_timeout = 5] units.
    - After a timeout the event is looked at again: set, the loop is left;
      not set, the consumer goes on waiting.
    - The loop goes on exactly while the event is unset or the queue is not
      empty, unless an exception ends it: it is left either normally, and
      then with the event set and the queue seen empty, or by an exception
      other than the timeout of the pop.
    - Such an exception ends the loop at once, whatever the event and the
      queue: a record that cannot be read stops the consumer with the event
      as it was and the records behind it still queued.
    - Once the event is set and the queue is empty, a consumer at the head of
      its loop leaves at once, and a consumer that was already waiting when
      the event was set (after [k < 5] units of its wait, the producers being
      finished) leaves when its wait of 5 units is over. *)
Theorem drain_completion (w : World) :
  queue_timeout = 5%nat
  /\ (forall (r : Outcome RawRecord) (w1 : World),
        queue_get queue_timeout w = Some (r, w1) ->
        clock w <= clock w1 <= clock w + 5)
  /\ (forall w1 : World,
        queue_get queue_timeout w = Some (Raise QueueEmpty, w1) ->
        loop_body cfg thread_id w
        = Some (Return (if done w1 then Break else Continue),
                add_log (if done w1 then ProducersFinished thread_id
                         else QueueEmptyWaiting thread_id) w1))
  /\ (keep_running w = false <-> done w = true /\ queue w = [])
  /\ (forall (fuel : nat) (r : Outcome unit) (w' : World),
        consume_loop cfg thread_id fuel w = Some (r, w') ->
        (r = Return tt /\ done w' = true /\ queue w' = [])
        \/ (exists e : PyExn, r = Raise e /\ e <> QueueEmpty))
  /\ (forall (raw : RawRecord) (rest : list RawRecord) (fuel : nat),
        queue w = raw :: rest -> malformed raw ->
        exists (e : PyExn) (w' : World),
          consume_loop cfg thread_id (S fuel) w = Some (Raise e, w')
          /\ e <> QueueEmpty
          /\ queue w' = rest /\ done w' = done w /\ clock w' = clock w)
  /\ (done w = true -> queue w = [] ->
      forall fuel : nat, consume_loop cfg thread_id fuel w = Some (Return tt, w))
  /\ (done w = false -> queue w = [] ->
      forall (k : nat) (post : list EnvEvent) (fuel : nat),
        env w = replicate k Tick ++ SetDone :: post ->
        (k < 5)%nat -> no_more_puts post ->
        exists w' : World,
          consume_loop cfg thread_id (S fuel) w = Some (Return tt, w')
          /\ clock w' = clock w + 5 /\ done w' = true /\ queue w' = []).
Proof.
  assert (Hhead : keep_running w = false <-> done w = true /\ queue w = []).
  { unfold keep_running. rewrite orb_false_iff, !negb_false_iff, bool_decide_eq_true.
    tauto. }
  split; [reflexivity|].
  split; [|split; [|split; [|split; [|split; [|split]]]]].
  - intros r w1 Hget. apply (queue_get_clock _ _ _ _ Hget).
  - apply loop_body_after_timeout.
  - exact Hhead.
  - intros fuel r w'. apply consume_loop_exits.
  - intros raw rest fuel. apply consume_loop_error_exit.
  - intros Hdone Hq fuel.
    assert (Hk : keep_running w = false) by (apply Hhead; auto).
    destruct fuel; cbn [consume_loop]; unfold bind, gets; now rewrite Hk.
  - intros Hdone Hq k post fuel Henv Hk Hputs.
    assert (Hrun : keep_running w = true)
      by (unfold keep_running; now rewrite Hdone).
    destruct (wait_for_item_no_puts post Hputs (queue_timeout - k) true
                                     (clock w + Z.of_nat k))
      as (events & is_set & Hwait & _).
    pose proof (wait_for_item_spec post (queue_timeout - k) true
                                   (clock w + Z.of_nat k)) as Hspec.
    rewrite Hwait in Hspec. destruct Hspec as (_ & _ & Hset & _).
    rewrite (Hset eq_refl) in Hwait.
    assert (Hget : queue_get queue_timeout w
                   = Some (Raise QueueEmpty,
                           set_channel [] true events (clock w + 5) w)).
    { unfold queue_get. rewrite Hq, Henv, Hdone.
      rewrite wait_for_item_ticks by (unfold queue_timeout; lia).
      rewrite Hwait. do 3 f_equal. unfold queue_timeout. lia. }
    eexists. split.
    + cbn [consume_loop]. unfold bind at 1, gets. rewrite Hrun.
      unfold bind. rewrite (loop_body_after_timeout w _ Hget). cbn. reflexivity.
    + cbn. auto.
Qed.

End Loop.

Lemma drain_completion_witness :
  exists w' : World,
    consume_loop Examples.sample_cfg 7 1
                 (Examples.waiting_world [Tick; Tick; SetDone; Tick; Tick; Tick; Tick])
    = Some (Return tt, w')
    /\ clock w' = 5 /\ done w' = true /\ queue w' = [].
Proof.
  apply (proj2 (proj2 (proj2 (proj2 (proj2 (proj2 (proj2
           (drain_completion Examples.sample_cfg 7
              (Examples.waiting_world
                 [Tick; Tick; SetDone; Tick; Tick; Tick; Tick]))))))))
           eq_refl eq_refl 2%nat [Tick; Tick; Tick; Tick] O eq_refl).
  - lia.
  - intros raw Hin. repeat (apply elem_of_cons in Hin as [Hin|Hin]; [discriminate|]).
    inversion Hin.
Defined.

(** C7 (as stated, refuted).  The producers are still at work: the event is
    not set, and the queue holds a malformed transfer with a good one behind
    it.  The consumer pops the first, its [ValueError] ends the loop, and
    [consume] returns at time 0, without having waited, with the event still
    unset and the good transfer still in the queue. *)
Lemma error_exit_before_signal :
  exists w' : World,
    consume Examples.sample_cfg 7 3
            (Examples.working_world
               [Examples.malformed_transfer "0xk"; Examples.transfer "0xh"])
    = Some (Return tt, w')
    /\ done w' = false
    /\ (fun raw : RawRecord => raw !! "hash") <$> queue w' = [Some "0xh"]
    /\ clock w' = 0
    /\ In (ConsumerShuttingDown
             (ValueError "invalid literal for int() with base 10: five"))
          (log w').
Proof. apply evaluated_run. vm_compute. repeat split; auto 10. Qed.

Lemma consume_never_raises_witness :
  exists w' : World,
    consume Examples.sample_cfg 7 3
            (Examples.drained_world Examples.empty_db
               [Examples.transfer "0xh"; Examples.malformed_transfer "0xk"])
    = Some (Return tt, w').
Proof.
  apply (proj1 (proj2 (consume_never_raises Examples.sample_cfg 7
                         (Examples.drained_world Examples.empty_db
                            [Examples.transfer "0xh"; Examples.malformed_transfer "0xk"])))).
  - left. reflexivity.
  - unfold drain_fuel, Examples.drained_world. cbn [queue env length]. lia.
Defined.

(** C9 (as stated, refuted).  The queue holds a good transfer and a
    malformed one.  The loop ends with the [ValueError] of the second while
    the first is waiting in the batch; [consume] returns with the store
    empty and the batch unflushed, although [__save] from that state would
    have stored the row. *)
Lemma error_exit_skips_final_flush :
  let w0 := Examples.drained_world Examples.empty_db
              [Examples.transfer "0xh"; Examples.malformed_transfer "0xk"] in
  exists w1 : World,
    consume_loop Examples.sample_cfg 7 3 w0
    = Some (Raise (ValueError "invalid literal for int() with base 10: five"), w1)
    /\ batch w1 = [Examples.stored_transfer "0xh"]
    /\ (exists w2 : World,
          save 7 w1 = Some (Return tt, w2)
          /\ transactions (db w2) = [Examples.stored_transfer "0xh"])
    /\ (exists w3 : World,
          consume Examples.sample_cfg 7 3 w0 = Some (Return tt, w3)
          /\ transactions (db w3) = []
          /\ batch w3 = [Examples.stored_transfer "0xh"]
          /\ session_closed w3 = true).
Proof.
  cbv zeta. apply evaluated_run. vm_compute.
  repeat split.
  - eexists. split; reflexivity.
  - eexists. repeat split.
Qed.

Lemma final_flush_on_normal_exit_only_witness :
  exists w' : World,
    consume_guarded Examples.sample_cfg 7 2
                    (Examples.drained_world Examples.empty_db [Examples.transfer "0xh"])
    = Some (Return tt, w')
    /\ transactions (db w') = [Examples.stored_transfer "0xh"]
    /\ session_closed w' = true.
Proof.
  destruct (evaluated_run
              (consume_loop Examples.sample_cfg 7 2
                 (Examples.drained_world Examples.empty_db [Examples.transfer "0xh"]))
              (Return tt)
              (fun w1 => batch w1 = [Examples.stored_transfer "0xh"]
                         /\ exists w2, save 7 w1 = Some (Return tt, w2)
                                       /\ transactions (db w2) = [Examples.stored_transfer "0xh"]))
    as (w1 & Hloop & Hbatch & w2 & Hsave & Htx).
  { vm_compute. repeat split. eexists. split; reflexivity. }
  destruct (final_flush_on_normal_exit_only
              Examples.sample_cfg 7 2
              (Examples.drained_world Examples.empty_db [Examples.transfer "0xh"]))
    as (Hnormal & _ & _).
  destruct (Hnormal w1 Hloop) as (_ & Hflush & _).
  eexists. split; [apply (Hflush ltac:(rewrite Hbatch; discriminate) w2 Hsave)|].
  cbn. auto.
Defined.

End ConsumerFacts.

(** * Further properties *)

(** ** The partitioner at the edges of its domain *)

Module PartitionerEdgeFacts.
Import Partitioner.

Lemma block_ranges_never_stops (end_ step : Z) (fuel : nat) :
  step <= 0 ->
  forall current : Z, current <= end_ -> block_ranges fuel current end_ step = None.
Proof.
  intros Hstep. induction fuel as [|fuel IH]; intros current Hin; [reflexivity|].
  cbn [block_ranges]. unfold block_ranges_next.
  destruct (Z.leb_spec current end_) as [_|]; [|lia].
  now rewrite IH by lia.
Qed.

(** X1.  [__block_ranges] outside [start <= end, step >= 1]: an empty span
    yields nothing, whatever the step; on a non-empty span a step that is
    zero or negative makes the generator yield for ever, the cursor never
    passing [end]. *)
Theorem block_ranges_edges (start end_ step : Z) :
  (end_ < start ->
   forall fuel : nat, block_ranges (S fuel) start end_ step = Some [])
  /\ (start <= end_ -> step <= 0 ->
      (forall fuel : nat, block_ranges fuel start end_ step = None)
      /\ (forall k : nat,
            block_ranges_next (start + Z.of_nat k * step) end_ step
            = Some ((start + Z.of_nat k * step,
                     Z.min (start + Z.of_nat k * step + step - 1) end_),
                    start + Z.of_nat (S k) * step))).
Proof.
  split.
  - intros Hempty fuel. cbn [block_ranges]. unfold block_ranges_next.
    destruct (Z.leb_spec start end_); [lia | reflexivity].
  - intros Hspan Hstep. split.
    + intros fuel. now apply block_ranges_never_stops.
    + intros k. unfold block_ranges_next.
      destruct (Z.leb_spec (start + Z.of_nat k * step) end_) as [_|Hout]; [|nia].
      do 2 f_equal. lia.
Qed.

Lemma block_ranges_edges_witness :
  (forall fuel : nat, block_ranges (S fuel) 10 9 100 = Some [])
  /\ (forall fuel : nat, block_ranges fuel 100 250 0 = None).
Proof.
  split.
  - apply (proj1 (block_ranges_edges 10 9 100)). lia.
  - apply (proj2 (block_ranges_edges 100 250 0)); lia.
Defined.

End PartitionerEdgeFacts.

(** ** The ledger client and the permit pool *)

Module LedgerPermitFacts.
Import Ledger Permits.

Lemma permits_held_app (e1 e2 : list Event) :
  forall p : Permit,
    permits_held (e1 ++ e2) p
    = match permits_held e1 p with
      | Some p' => permits_held e2 p'
      | None => None
      end.
Proof.
  induction e1 as [|ev rest IH]; intros p; [reflexivity|].
  destruct ev; cbn [app permits_held]; try apply IH;
    destruct p as [|[|[|sent]]]; auto.
Qed.

(** Traces the discipline rules out: a second permit taken while one is
    held, two requests under one permit, a request under no permit. *)
Lemma permits_held_strict (r : ApiRequest) :
  permits_held [SemAcquire; SemAcquire; HttpGet r; SemRelease; SemRelease] Free
  = None
  /\ permits_held [SemAcquire; HttpGet r; HttpGet r; SemRelease] Free = None
  /\ permits_held [HttpGet r] Free = None.
Proof. repeat split. Qed.

Lemma requests_sent_app (e1 e2 : list Event) :
  requests_sent (e1 ++ e2) = requests_sent e1 ++ requests_sent e2.
Proof.
  induction e1 as [|ev rest IH]; [reflexivity|].
  destruct ev; cbn [app requests_sent]; now rewrite ?IH.
Qed.

Section Discipline.
Variable cfg : Config.
Variable api : nat -> ApiRequest -> Outcome ApiData.
Variables (req : ApiRequest) (thread_id : option Z).

(** What a call leaves in the trace: some rate-limited attempts, then one
    last attempt or the error log. *)
Lemma call_etherscan_attempts_shape (attempts : nat) :
  forall (s s' : State) (r : Outcome ApiData),
    call_etherscan_attempts cfg api attempts req thread_id s = Some (r, s') ->
    exists (n : nat) (events : list Event),
      s' = advance n events s
      /\ (n <= attempts)%nat
      /\ permits_held events Free = Some Free
      /\ requests_sent events = replicate n req.
Proof.
  induction attempts as [|attempts IH]; intros s s' r Hrun.
  - cbn in Hrun. inversion Hrun; subst.
    exists O, [Log (ThreadError thread_id (req_startblock req) (req_endblock req))].
    repeat split; auto. unfold advance, emit; cbn. f_equal. lia.
  - cbn [call_etherscan_attempts] in Hrun. unfold bind at 1 in Hrun.
    destruct (api (calls s) req) as [data|e] eqn:Hapi.
    + rewrite (LedgerFacts.guarded_request_returns cfg api req thread_id s data Hapi)
        in Hrun.
      unfold bind, lift, data_result in Hrun.
      destruct (result data) as [res|].
      * destruct (is_rate_limited res).
        -- apply IH in Hrun as (n & events & -> & Hn & Hheld & Hsent).
           exists (S n), (completed_attempt cfg req thread_id ++ events).
           rewrite LedgerFacts.advance_advance.
           split; [reflexivity|]. split; [lia|].
           rewrite permits_held_app, requests_sent_app. cbn.
           split; [assumption | now rewrite Hsent].
        -- inversion Hrun; subst.
           exists 1%nat, (completed_attempt cfg req thread_id).
           repeat split; auto. lia.
      * inversion Hrun; subst.
        exists 1%nat, (completed_attempt cfg req thread_id).
        repeat split; auto. lia.
    + rewrite (LedgerFacts.guarded_request_raises cfg api req thread_id s e Hapi)
        in Hrun.
      inversion Hrun; subst.
      exists 1%nat, (failed_attempt req thread_id).
      repeat split; auto. lia.
Qed.

End Discipline.

(** X2.  Whatever the remote API answers, a call of [__call_etherscan] that
    has ended holds no permit, and in its trace every request was sent while
    the thread held exactly one permit: a permit is taken only when none is
    held, exactly one request is sent under it, and it is given back after
    that request, also when the request failed.  The call sent at most
    [retries] requests, all of them the same request (same address, block
    range, page size, sort order and key), and it touched nothing of the
    thread's state but the trace and the call counter. *)
Theorem call_etherscan_permit_discipline
        (cfg : Config) (api : nat -> ApiRequest -> Outcome ApiData)
        (address : string) (thread_id : option Z) (startblock endblock : Z)
        (sort : string) (retries : Z) (s s' : State) (r : Outcome ApiData) :
  call_etherscan_with cfg api address thread_id startblock endblock sort retries s
  = Some (r, s') ->
  exists (n : nat) (events : list Event),
    s' = advance n events s
    /\ (n <= Z.to_nat retries)%nat
    /\ permits_held events Free = Some Free
    /\ requests_sent events
       = replicate n (request cfg address startblock endblock sort).
Proof. apply call_etherscan_attempts_shape. Qed.

Lemma call_etherscan_permit_discipline_witness :
  exists (n : nat) (events : list Event),
    advance 4
      (concat (replicate 4
         (completed_attempt Examples.sample_cfg
            (request Examples.sample_cfg "0xTEST" 100 200 "asc") (Some 1)))
       ++ [Log (ThreadError (Some 1) 100 200)])
      Examples.idle_thread
    = advance n events Examples.idle_thread
    /\ (n <= Z.to_nat 4)%nat
    /\ permits_held events Free = Some Free
    /\ requests_sent events
       = replicate n (request Examples.sample_cfg "0xTEST" 100 200 "asc").
Proof.
  apply (call_etherscan_permit_discipline
           Examples.sample_cfg Examples.always_rate_limited "0xTEST" (Some 1)
           100 200 "asc" 4 Examples.idle_thread _
           (Raise (PlainException "Max rate limit reached after retrying"))).
  reflexivity.
Defined.

End LedgerPermitFacts.

(** ** Runs of the producer *)

Module ProducerRunFacts.
Import Ledger Builtins Producer Partitioner.

Section Runs.
Variable cfg : Config.
Variable api : nat -> ApiRequest -> Outcome ApiData.
Variables (address : string) (ending_block : Z) (thread_id : Z).

Let base := BASE_BLOCK_ATTEMPT cfg.
Let limit := RECORD_RETRIEVAL_LIMIT cfg.

Lemma call_etherscan_answer (s : State) (startblock endblock : Z)
      (data : ApiData) (r : ApiResult) :
  api (calls s) (request cfg address startblock endblock "asc") = Return data ->
  result data = Some r -> is_rate_limited r = false ->
  call_etherscan cfg api address (Some thread_id) startblock endblock s
  = Some (Return data,
          advance 1 (completed_attempt cfg
                       (request cfg address startblock endblock "asc")
                       (Some thread_id)) s).
Proof.
  intros Hapi Hres Hnot.
  unfold call_etherscan, call_etherscan_with, default_retries.
  change (Z.to_nat 4) with 4%nat.
  now apply (LedgerFacts.call_etherscan_attempts_answer cfg api _ _ 3 s data r).
Qed.

(** The overflow loop does nothing to a response below the page limit. *)
Lemma overflow_loop_below_limit (fuel : nat) (data : ApiData) (tentative_end : Z)
      (index : nat) (s : State) :
  get_result_len data < limit ->
  overflow_loop cfg api address ending_block thread_id fuel data tentative_end index s
  = Some (Return (data, tentative_end), s).
Proof.
  intros Hlen. destruct fuel; cbn [overflow_loop];
    (destruct (Z.geb_spec (get_result_len data) (RECORD_RETRIEVAL_LIMIT cfg));
     [subst limit; lia | reflexivity]).
Qed.

(** One pass of the outer loop over a window whose response fits in a page:
    the records the filter keeps are put on the queue and the cursor moves
    past the window, whether the response was empty or not. *)
Lemma produce_pass_below_limit (fuel : nat) (s : State) (records : list RawRecord) :
  current_block s <= ending_block ->
  api (calls s)
      (request cfg address (current_block s)
               (Z.min (current_block s + base) ending_block) "asc")
  = response_of records ->
  Z.of_nat (length records) < limit ->
  Forall well_formed records ->
  exists s1 : State,
    produce_loop cfg api address ending_block thread_id (S fuel) s
    = produce_loop cfg api address ending_block thread_id fuel s1
    /\ queue s1 = queue s ++ List.filter kept records
    /\ current_block s1 = Z.min (current_block s + base) ending_block + 1
    /\ calls s1 = S (calls s).
Proof.
  intros Hin Hapi Hlen Hwf.
  cbn [produce_loop]. unfold bind at 1, gets.
  destruct (Z.leb_spec (current_block s) ending_block) as [_|]; [|lia].
  unfold log. unfold bind at 1, modify. unfold bind at 1.
  rewrite (call_etherscan_answer _ _ _ {| result := Some (ResultList records) |}
                                 (ResultList records))
    by (cbn [calls emit]; auto).
  unfold bind at 1. cbn [lift data_result result].
  destruct records as [|tx rest].
  - cbn [truthy result_len length negb]. change (Z.of_nat 0 =? 0) with true.
    cbn [negb]. unfold bind at 1, modify. unfold bind at 1.
    eexists. split; [reflexivity|]. cbn.
    repeat split; auto; [now rewrite app_nil_r | lia].
  - assert (Htruthy : truthy (ResultList (tx :: rest)) = true).
    { unfold truthy, result_len.
      destruct (Z.eqb_spec (Z.of_nat (length (tx :: rest))) 0) as [H0|];
        [cbn [length] in H0; lia | reflexivity]. }
    rewrite Htruthy. cbn [negb]. unfold bind at 1.
    rewrite overflow_loop_below_limit by (cbn; assumption).
    unfold bind at 1. cbn [lift data_result result].
    unfold bind at 1, gets. unfold bind at 1, modify. unfold bind at 1.
    cbn [enqueue_result].
    rewrite (ProducerFacts.enqueue_records_well_formed _ Hwf).
    unfold bind at 1. rewrite Htruthy. unfold bind.
    eexists. split; [reflexivity|]. cbn. repeat split; auto. lia.
Qed.

(** One turn of the overflow loop on a full page. *)
Lemma overflow_loop_full (fuel : nat) (data : ApiData) (tentative_end : Z)
      (index : nat) (s : State) :
  limit <= get_result_len data ->
  overflow_loop cfg api address ending_block thread_id (S fuel) data
                tentative_end index s
  = match call_etherscan cfg api address (Some thread_id) (current_block s)
            (Z.min (current_block s + next_window cfg index) ending_block)
            (emit (Log (AdjustingRange (next_window cfg index)
                          (Z.min (current_block s + next_window cfg index)
                                 ending_block)))
                  (set_block_window_amount (next_window cfg index)
                     (emit (Log (TooManyRecords (block_window_amount s)
                                                (get_result_len data))) s)))
    with
    | Some (Return data', s') =>
        overflow_loop cfg api address ending_block thread_id fuel data'
          (Z.min (current_block s + next_window cfg index) ending_block)
          (S index) s'
    | Some (Raise e, s') => Some (Raise e, s')
    | None => None
    end.
Proof.
  intros Hfull. cbn [overflow_loop].
  destruct (Z.geb_spec (get_result_len data) (RECORD_RETRIEVAL_LIMIT cfg))
    as [_|]; [|subst limit; lia].
  reflexivity.
Qed.




End Runs.


Section Healthy.
Variable cfg : Config.
Variable api : nat -> ApiRequest -> Outcome ApiData.
Variables (address : string) (ending_block : Z) (thread_id : Z).
(** What the ledger holds between two blocks. *)
Variable held : Z -> Z -> list RawRecord.

Let base := BASE_BLOCK_ATTEMPT cfg.

Hypothesis base_not_negative : 0 <= base.
Hypothesis api_answers :
  forall (n : nat) (startblock endblock : Z),
    api n (request cfg address startblock endblock "asc")
    = response_of (held startblock endblock).
Hypothesis below_limit :
  forall startblock endblock : Z,
    Z.of_nat (length (held startblock endblock)) < RECORD_RETRIEVAL_LIMIT cfg.
Hypothesis records_well_formed :
  forall startblock endblock : Z, Forall well_formed (held startblock endblock).

Abbreviation kept_of := (ProducerRuns.kept_of held).

Lemma produce_loop_healthy (fuel : nat) :
  forall s : State,
    (Z.to_nat (ending_block - current_block s + 1) < fuel)%nat ->
    exists (s' : State) (rs : list (Z * Z)),
      produce_loop cfg api address ending_block thread_id fuel s
      = Some (Return tt, s')
      /\ block_ranges fuel (current_block s) ending_block (base + 1) = Some rs
      /\ queue s' = queue s ++ concat (kept_of <$> rs)
      /\ calls s' = (calls s + length rs)%nat
      /\ ending_block < current_block s'.
Proof.
  induction fuel as [|fuel IH]; intros s Hfuel; [lia|].
  destruct (Z.leb_spec (current_block s) ending_block) as [Hin|Hout].
  - destruct (produce_pass_below_limit cfg api address ending_block thread_id
                fuel s (held (current_block s)
                             (Z.min (current_block s + base) ending_block)))
      as (s1 & -> & Hq1 & Hc1 & Hn1); auto.
    destruct (IH s1) as (s' & rs & Hrun & Hrs & Hq & Hn & Hend); [lia|].
    unfold base in *. exists s'.
    exists ((current_block s, Z.min (current_block s + base) ending_block) :: rs).
    split; [assumption|]. split.
    + cbn [block_ranges]. unfold block_ranges_next.
      destruct (Z.leb_spec (current_block s) ending_block) as [_|]; [|lia].
      rewrite !Z.add_assoc, Z.add_simpl_r.
      destruct (Z.le_gt_cases (current_block s + BASE_BLOCK_ATTEMPT cfg)
                              ending_block) as [Hfull|Hclip].
      * rewrite Hc1, Z.min_l in Hrs by lia. now rewrite Hrs.
      * rewrite Hc1, Z.min_r in Hrs by lia.
        assert (Hnil : rs = []).
        { destruct fuel; [discriminate|]. cbn [block_ranges] in Hrs.
          unfold block_ranges_next in Hrs.
          destruct (Z.leb_spec (ending_block + 1) ending_block); [lia|].
          now inversion Hrs. }
        subst rs.
        assert (Hstop : block_ranges fuel
                          (current_block s + BASE_BLOCK_ATTEMPT cfg + 1)
                          ending_block (BASE_BLOCK_ATTEMPT cfg + 1) = Some []).
        { destruct fuel; [discriminate|]. cbn [block_ranges].
          unfold block_ranges_next.
          destruct (Z.leb_spec (current_block s + BASE_BLOCK_ATTEMPT cfg + 1)
                               ending_block); [lia | reflexivity]. }
        now rewrite Hstop.
    + rewrite Hq, Hq1, Hn, Hn1, fmap_cons. cbn [concat length].
      unfold ProducerRuns.kept_of at 2; cbn [fst snd].
      split; [now rewrite app_assoc|]. split; [lia | assumption].
  - exists s, []. cbn [produce_loop block_ranges]. unfold block_ranges_next, bind, gets.
    destruct (Z.leb_spec (current_block s) ending_block); [lia|].
    cbn. repeat split; auto; try lia. now rewrite app_nil_r.
Qed.

(** X3.  A worker on a ledger whose windows all fit in a page (well-formed
    records, fewer than the page limit in every window, a base window that
    is not negative) finishes.  It walks its sub-range in the ranges the
    partitioner would yield for the step [BASE_BLOCK_ATTEMPT + 1], sends
    one request per range, and puts on the queue, in block order, exactly
    the records of each range that the filter keeps. *)
Theorem producer_walks_its_range (starting_block : Z) (fuel : nat) (s : State) :
  (enough_fuel starting_block ending_block <= fuel)%nat ->
  exists (s' : State) (rs : list (Z * Z)),
    call_api_and_produce cfg api address ending_block thread_id fuel
                         starting_block s
    = Some (Return tt, s')
    /\ block_ranges (enough_fuel starting_block ending_block)
                    starting_block ending_block (base + 1) = Some rs
    /\ queue s' = queue s ++ concat (kept_of <$> rs)
    /\ calls s' = (calls s + length rs)%nat
    /\ ending_block < current_block s'.
Proof.
  intros Hfuel.
  set (s0 := set_block_window_amount
               (if negb (DEV_MODE cfg) then BASE_BLOCK_ATTEMPT cfg else DEV_STEP cfg)
               (set_current_block starting_block s)).
  destruct (produce_loop_healthy (enough_fuel starting_block ending_block) s0)
    as (s1 & rs & Hrun & Hrs & Hq & Hn & Hend);
    [unfold enough_fuel; cbn; lia|].
  destruct (produce_loop_healthy fuel s0)
    as (s' & rs' & Hrun' & Hrs' & Hq' & Hn' & Hend');
    [unfold enough_fuel in Hfuel; cbn; lia|].
  cbn [current_block s0 set_block_window_amount set_current_block] in Hrs, Hrs'.
  rewrite (PartitionerFacts.block_ranges_more_fuel _ _ _ _ _ _ Hrs Hfuel) in Hrs'.
  inversion Hrs'; subst rs'.
  unfold call_api_and_produce, bind, modify, try_finally, try_except.
  fold s0. rewrite Hrun'. unfold gets, log, modify.
  eexists. exists rs. split; [reflexivity|]. cbn. auto.
Qed.

End Healthy.

(** A ledger shorter than a page, of well-formed records, answers every
    window below the limit. *)
Lemma ledger_page_below_limit (limit : Z) (ledger : list (Z * RawRecord))
      (startblock endblock : Z) :
  Z.of_nat (length ledger) < limit ->
  Z.of_nat (length (Examples.ledger_page limit ledger startblock endblock)) < limit.
Proof.
  intros Hshort. unfold Examples.ledger_page.
  rewrite length_take, length_fmap.
  pose proof (List.filter_length_le
                (fun entry : Z * RawRecord =>
                   (startblock <=? fst entry) && (fst entry <=? endblock)) ledger).
  lia.
Qed.

Lemma ledger_page_well_formed (limit : Z) (ledger : list (Z * RawRecord))
      (startblock endblock : Z) :
  Forall (fun entry => well_formed (snd entry)) ledger ->
  Forall well_formed (Examples.ledger_page limit ledger startblock endblock).
Proof.
  intros Hwf. unfold Examples.ledger_page.
  apply Forall_take, Forall_fmap.
  rewrite Forall_forall in *. intros entry Hin.
  apply list_elem_of_In, filter_In in Hin as [Hin _].
  apply Hwf. now apply list_elem_of_In.
Qed.

Lemma producer_walks_its_range_witness :
  exists (s' : State) (rs : list (Z * Z)),
    call_api_and_produce Examples.sample_cfg
                         (Examples.ledger_api Examples.small_ledger)
                         "0xTEST" 300 0 302 0 Examples.idle_thread
    = Some (Return tt, s')
    /\ block_ranges (enough_fuel 0 300) 0 300 (100 + 1) = Some rs
    /\ queue s'
       = queue Examples.idle_thread
         ++ concat (ProducerRuns.kept_of
                      (Examples.ledger_page 10000 Examples.small_ledger) <$> rs)
    /\ calls s' = (calls Examples.idle_thread + length rs)%nat
    /\ 300 < current_block s'.
Proof.
  apply (producer_walks_its_range
           Examples.sample_cfg (Examples.ledger_api Examples.small_ledger)
           "0xTEST" 300 0
           (Examples.ledger_page 10000 Examples.small_ledger)).
  - cbn. lia.
  - intros n startblock endblock. reflexivity.
  - intros startblock endblock. apply ledger_page_below_limit. cbn. lia.
  - intros startblock endblock. apply ledger_page_well_formed.
    repeat constructor;
      [exists "5", "0", 5 | exists "0", "0", 0 | exists "5", "1", 5];
      repeat split; vm_compute; reflexivity.
  - unfold enough_fuel. cbn. lia.
Defined.

End ProducerRunFacts.

(** ** What no run of the producer does *)

Module ProducerSafetyFacts.
Import Ledger Builtins Producer ProducerRuns.

(** How a sequence of two steps ended. *)
Lemma bind_ended {S A B} (m : M S A) (k : A -> M S B) (s s' : S)
      (r : Outcome B) :
  bind m k s = Some (r, s') ->
  (exists (a : A) (s1 : S), m s = Some (Return a, s1) /\ k a s1 = Some (r, s'))
  \/ (exists e : PyExn, m s = Some (Raise e, s') /\ r = Raise e).
Proof.
  unfold bind. destruct (m s) as [[[a|e] s1]|]; [eauto | | discriminate].
  intros H; inversion H; subst. eauto.
Qed.

Lemma only_kept_added_refl (s : State) : only_kept_added s s.
Proof. exists []. now rewrite app_nil_r. Qed.

Lemma only_kept_added_trans (s1 s2 s3 : State) :
  only_kept_added s1 s2 -> only_kept_added s2 s3 -> only_kept_added s1 s3.
Proof.
  intros (a1 & H1 & F1) (a2 & H2 & F2). exists (a1 ++ a2).
  rewrite H2, H1, app_assoc. split; [reflexivity | now apply Forall_app].
Qed.

Lemma only_kept_added_same_queue (s s' : State) :
  queue s' = queue s -> only_kept_added s s'.
Proof. intros H. exists []. now rewrite app_nil_r. Qed.

Lemma enqueue_records_ended (records : list RawRecord) :
  forall (s s' : State) (r : Outcome unit),
    enqueue_records records s = Some (r, s') ->
    only_kept_added s s' /\ same_cursor s s'.
Proof.
  induction records as [|tx rest IH]; intros s s' r Hrun.
  - inversion Hrun; subst. split; [apply only_kept_added_refl | reflexivity].
  - cbn [enqueue_records] in Hrun. unfold filter_and_put in Hrun.
    apply bind_ended in Hrun as [(a & s1 & Hput & Hrest)|(e & Hput & ->)].
    + apply IH in Hrest as [Hq Hc].
      unfold bind, lift in Hput. destruct (keep tx) as [[|]|e] eqn:Hkeep;
        inversion Hput; subst.
      * split; [|exact Hc].
        eapply only_kept_added_trans; [|exact Hq].
        exists [tx]. split; [reflexivity|]. constructor; [|constructor].
        unfold kept. now rewrite Hkeep.
      * now split.
    + unfold bind, lift in Hput. destruct (keep tx) as [[|]|e'];
        inversion Hput; subst.
      split; [apply only_kept_added_refl | reflexivity].
Qed.

Lemma enqueue_result_ended (res : ApiResult) (s s' : State) (r : Outcome unit) :
  enqueue_result res s = Some (r, s') ->
  only_kept_added s s' /\ same_cursor s s'.
Proof.
  destruct res as [records|[|c m]]; cbn [enqueue_result].
  - apply enqueue_records_ended.
  - intros H; inversion H; subst. split; [apply only_kept_added_refl | reflexivity].
  - intros H; inversion H; subst. split; [apply only_kept_added_refl | reflexivity].
Qed.

Section Safety.
Variable cfg : Config.
Variable api : nat -> ApiRequest -> Outcome ApiData.
Variables (address : string) (ending_block : Z) (thread_id : Z).

Lemma call_etherscan_ended (startblock endblock : Z) (s s' : State)
      (r : Outcome ApiData) :
  call_etherscan cfg api address (Some thread_id) startblock endblock s
  = Some (r, s') ->
  queue s' = queue s /\ current_block s' = current_block s.
Proof.
  intros Hrun.
  apply LedgerPermitFacts.call_etherscan_attempts_shape
    in Hrun as (n & events & -> & _).
  split; reflexivity.
Qed.

Lemma overflow_loop_ended (fuel : nat) :
  forall (data : ApiData) (tentative_end : Z) (index : nat) (s s' : State)
         (r : Outcome (ApiData * Z)),
    overflow_loop cfg api address ending_block thread_id fuel data
                  tentative_end index s = Some (r, s') ->
    queue s' = queue s /\ current_block s' = current_block s.
Proof.
  induction fuel as [|fuel IH]; intros data tentative_end index s s' r Hrun;
    cbn [overflow_loop] in Hrun;
    destruct (get_result_len data >=? RECORD_RETRIEVAL_LIMIT cfg);
    try discriminate; try (inversion Hrun; subst; now split).
  unfold log in Hrun.
  unfold bind at 1, gets in Hrun. unfold bind at 1, modify in Hrun.
  unfold bind at 1 in Hrun. unfold bind at 1 in Hrun. unfold bind at 1 in Hrun.
  apply bind_ended in Hrun as [(data' & s1 & Hcall & Hrest)|(e & Hcall & ->)].
  - apply call_etherscan_ended in Hcall as [Hq Hc].
    apply IH in Hrest as [Hq' Hc']. cbn in Hq, Hc. split; congruence.
  - apply call_etherscan_ended in Hcall as [Hq Hc]. cbn in Hq, Hc. now split.
Qed.

(** An ended run of the outer loop: the queue grew by kept records only, and
    a normal end leaves the cursor past the last block. *)
Lemma produce_loop_ended (fuel : nat) :
  forall (s s' : State) (r : Outcome unit),
    produce_loop cfg api address ending_block thread_id fuel s = Some (r, s') ->
    only_kept_added s s'
    /\ (r = Return tt -> ending_block < current_block s').
Proof.
  induction fuel as [|fuel IH]; intros s s' r Hrun;
    cbn [produce_loop] in Hrun; unfold bind at 1, gets in Hrun;
    destruct (Z.leb_spec (current_block s) ending_block) as [Hin|Hout];
    try discriminate;
    try (inversion Hrun; subst; split; [apply only_kept_added_refl | auto]).
  unfold log in Hrun. unfold bind at 1, modify in Hrun.
  apply bind_ended in Hrun as [(data & s1 & Hcall & Hrun)|(e & Hcall & ->)];
    apply call_etherscan_ended in Hcall as [Hq1 Hc1]; cbn in Hq1, Hc1;
    [|split; [now apply only_kept_added_same_queue | discriminate]].
  apply bind_ended in Hrun as [(res & s2 & Hres & Hrun)|(e & Hres & ->)];
    unfold lift in Hres; inversion Hres; subst;
    [|split; [now apply only_kept_added_same_queue | discriminate]].
  destruct (negb (truthy res)).
  - unfold bind at 1, modify in Hrun. unfold bind at 1 in Hrun.
    apply IH in Hrun as [Hq Hend]. split; [|exact Hend].
    eapply only_kept_added_trans; [|exact Hq].
    now apply only_kept_added_same_queue.
  - apply bind_ended in Hrun as [([data' te] & s3 & Hover & Hrun)|(e & Hover & ->)];
      apply overflow_loop_ended in Hover as [Hq3 Hc3];
      [|split; [apply only_kept_added_same_queue; congruence | discriminate]].
    apply bind_ended in Hrun as [(res' & s4 & Hres' & Hrun)|(e & Hres' & ->)];
      unfold lift in Hres'; inversion Hres'; subst;
      [|split; [apply only_kept_added_same_queue; congruence | discriminate]].
    unfold bind at 1, gets in Hrun. unfold bind at 1, modify in Hrun.
    assert (Hgrown : forall s5 : State,
               only_kept_added (emit (Log (ApiCallSuccess (result_len res')
                                             (block_window_amount s4))) s4) s5 ->
               only_kept_added s s5).
    { intros s5 Hq5. eapply only_kept_added_trans; [|exact Hq5].
      apply only_kept_added_same_queue; cbn; congruence. }
    apply bind_ended in Hrun as [(u & s5 & Hput & Hrun)|(e & Hput & ->)];
      apply enqueue_result_ended in Hput as [Hq5 Hc5]; apply Hgrown in Hq5;
      [|split; [assumption | discriminate]].
    clear Hgrown. rename Hq5 into Hgrown.
    apply bind_ended in Hrun as [(u' & s6 & Hmove & Hrun)|(e & Hmove & ->)].
    + apply IH in Hrun as [Hq Hend]. split; [|exact Hend].
      eapply only_kept_added_trans; [exact Hgrown|].
      eapply only_kept_added_trans; [|exact Hq].
      apply only_kept_added_same_queue.
      destruct (truthy res'); inversion Hmove; subst; reflexivity.
    + destruct (truthy res'); inversion Hmove.
Qed.

(** X5.  Whatever the remote API answers, a run of [call_api_and_produce]
    that has ended put on the queue only records that pass the filter, after
    the ones that were there, and its last log line is the one of the
    [finally] clause.  If it returned, the cursor is past the ending block;
    if it raised, the exception was logged just before and is the one it
    raises. *)
Theorem producer_run_safety (fuel : nat) (starting_block : Z) (s s' : State)
        (r : Outcome unit) :
  call_api_and_produce cfg api address ending_block thread_id fuel
                       starting_block s = Some (r, s') ->
  only_kept_added s s'
  /\ last (trace s')
     = Some (Log (ReachedEndblock (current_block s') ending_block))
  /\ match r with
     | Return _ => ending_block < current_block s'
     | Raise e =>
         exists t : list Event,
           trace s' = t ++ [Log (ProduceFailed e);
                            Log (ReachedEndblock (current_block s') ending_block)]
     end.
Proof.
  unfold call_api_and_produce, try_finally, try_except.
  unfold bind at 1, modify. unfold bind at 1.
  match goal with
  | |- context [produce_loop _ _ _ _ _ _ ?s0] =>
      destruct (produce_loop cfg api address ending_block thread_id fuel s0)
        as [[[[] | e] s1]|] eqn:Hloop; [| |discriminate];
      apply produce_loop_ended in Hloop as [Hq Hend]
  end.
  - intros H. unfold bind, gets, log, modify in H. inversion H; subst.
    cbn [current_block queue trace emit].
    split; [exact Hq|]. split; [now rewrite last_snoc | auto].
  - intros H. unfold bind, gets, log, modify, raise in H. inversion H; subst.
    cbn [current_block queue trace emit].
    split; [exact Hq|]. split; [now rewrite last_snoc|].
    exists (trace s1). now rewrite <- app_assoc.
Qed.

End Safety.

Lemma producer_run_safety_witness :
  exists s' : State,
    call_api_and_produce Examples.sample_cfg Examples.always_rate_limited
                         "0xTEST" 1000 0 1 0 Examples.idle_thread
    = Some (Raise (PlainException "Max rate limit reached after retrying"), s')
    /\ only_kept_added Examples.idle_thread s'
    /\ last (trace s') = Some (Log (ReachedEndblock (current_block s') 1000)).
Proof.
  eexists. split; [reflexivity|].
  match goal with
  | |- only_kept_added _ ?s1 /\ _ =>
      pose proof (producer_run_safety
                    Examples.sample_cfg Examples.always_rate_limited "0xTEST"
                    1000 0 1 0 Examples.idle_thread s1
                    (Raise (PlainException "Max rate limit reached after retrying"))
                    eq_refl) as (Hq & Hlast & _)
  end.
  split; assumption.
Defined.

End ProducerSafetyFacts.

(** ** The filter, seen from a run *)

Module FilterFacts.
Import Ledger Builtins Producer ProducerRuns.



Section Runs.
Variable cfg : Config.
Variable api : nat -> ApiRequest -> Outcome ApiData.
Variables (address : string) (ending_block : Z) (thread_id : Z).

Let limit := RECORD_RETRIEVAL_LIMIT cfg.




End Runs.



End FilterFacts.

(** ** Answers the producer cannot digest *)

Module ProducerFailureFacts.
Import Ledger Builtins Producer ProducerRuns.

Lemma truthy_message (c : ascii) (msg : string) :
  truthy (ResultMessage (String c msg)) = true.
Proof.
  unfold truthy, result_len. cbn [String.length].
  destruct (Z.eqb_spec (Z.of_nat (S (String.length msg))) 0); [lia | reflexivity].
Qed.

Lemma truthy_full_page (limit : Z) (page : list RawRecord) :
  0 < limit -> limit <= Z.of_nat (length page) ->
  truthy (ResultList page) = true.
Proof.
  intros Hpos Hfull. unfold truthy, result_len.
  destruct (Z.eqb_spec (Z.of_nat (length page)) 0); [lia | reflexivity].
Qed.

Section Message.
Variable cfg : Config.
Variable api : nat -> ApiRequest -> Outcome ApiData.
Variables (address : string) (ending_block : Z) (thread_id : Z).

(** X6.  An error body other than the rate limit (a non-empty string under
    [result], shorter than the page limit) passes for a page of records: the
    worker logs a success with the length of the string, then fails with a
    [TypeError] on the first character it takes for a record.  Nothing was
    put on the queue and the cursor is still at the start of the window. *)
Theorem message_result_aborts_worker (c : ascii) (msg : string) (fuel : nat)
        (starting_block : Z) (s : State) :
  let body := String c msg in
  let tentative_end := Z.min (starting_block + BASE_BLOCK_ATTEMPT cfg)
                             ending_block in
  starting_block <= ending_block ->
  body <> rate_limit_message ->
  Z.of_nat (String.length body) < RECORD_RETRIEVAL_LIMIT cfg ->
  api (calls s) (request cfg address starting_block tentative_end "asc")
  = Return {| result := Some (ResultMessage body) |} ->
  exists (s' : State) (window : Z),
    call_api_and_produce cfg api address ending_block thread_id (S fuel)
                         starting_block s
    = Some (Raise (TypeError "string indices must be integers"), s')
    /\ queue s' = queue s /\ current_block s' = starting_block
    /\ calls s' = S (calls s)
    /\ trace s'
       = trace s
         ++ Log (NewLoop (Some thread_id) starting_block ending_block)
         :: completed_attempt cfg
              (request cfg address starting_block tentative_end "asc")
              (Some thread_id)
         ++ [Log (ApiCallSuccess (Z.of_nat (String.length body)) window);
             Log (ProduceFailed (TypeError "string indices must be integers"));
             Log (ReachedEndblock starting_block ending_block)].
Proof.
  intros body tentative_end Hin Hnot Hshort Hapi.
  assert (Hlimited : is_rate_limited (ResultMessage body) = false).
  { cbn [is_rate_limited]. now apply String.eqb_neq. }
  unfold call_api_and_produce, try_finally, try_except.
  unfold bind at 1, modify. unfold bind at 1.
  cbn [produce_loop]. unfold bind at 1, gets.
  cbn [current_block set_current_block set_block_window_amount].
  destruct (Z.leb_spec starting_block ending_block) as [_|]; [|lia].
  unfold log. unfold bind at 1, modify. unfold bind at 1.
  rewrite (ProducerRunFacts.call_etherscan_answer
             cfg api address thread_id _ _ _
             {| result := Some (ResultMessage body) |} (ResultMessage body))
    by (cbn [calls emit set_current_block set_block_window_amount]; auto).
  unfold bind at 1. cbn [lift data_result result].
  subst body. rewrite truthy_message. cbn [negb]. unfold bind at 1.
  rewrite ProducerRunFacts.overflow_loop_below_limit by (cbn; assumption).
  unfold bind at 1. cbn [lift data_result result].
  unfold bind at 1, gets. unfold bind at 1, modify. unfold bind at 1.
  cbn [enqueue_result]. unfold raise, bind, gets, modify.
  eexists. eexists. split; [reflexivity|]. cbn.
  repeat split; auto; [lia|]. rewrite <- !app_assoc. reflexivity.
Qed.

End Message.

Lemma message_result_aborts_worker_witness :
  exists (s' : State) (window : Z),
    call_api_and_produce
      Examples.sample_cfg
      (fun _ _ => Return {| result := Some (ResultMessage "Invalid API Key") |})
      "0xTEST" 1000 0 1 0 Examples.idle_thread
    = Some (Raise (TypeError "string indices must be integers"), s')
    /\ queue s' = [] /\ current_block s' = 0 /\ calls s' = 1%nat
    /\ trace s'
       = Log (NewLoop (Some 0) 0 1000)
         :: completed_attempt Examples.sample_cfg
              (request Examples.sample_cfg "0xTEST" 0 100 "asc") (Some 0)
         ++ [Log (ApiCallSuccess 15 window);
             Log (ProduceFailed (TypeError "string indices must be integers"));
             Log (ReachedEndblock 0 1000)].
Proof.
  apply (message_result_aborts_worker
           Examples.sample_cfg
           (fun _ _ => Return {| result := Some (ResultMessage "Invalid API Key") |})
           "0xTEST" 1000 0 "I"%char "nvalid API Key" 0 0 Examples.idle_thread).
  - lia.
  - discriminate.
  - cbn. lia.
  - reflexivity.
Defined.

Section Overflow.
Variable cfg : Config.
Variable api : nat -> ApiRequest -> Outcome ApiData.
Variables (address : string) (ending_block : Z) (thread_id : Z).
Variable current : Z.
Variable page : list RawRecord.

Hypothesis in_range : current <= ending_block.
Hypothesis limit_positive : 0 < RECORD_RETRIEVAL_LIMIT cfg.
Hypothesis page_full : RECORD_RETRIEVAL_LIMIT cfg <= Z.of_nat (length page).
Hypothesis every_window_overflows :
  forall (n : nat) (endblock : Z),
    api n (request cfg address current endblock "asc") = response_of page.

Lemma overflow_loop_never_ends (fuel : nat) :
  forall (tentative_end : Z) (index : nat) (s : State),
    current_block s = current ->
    overflow_loop cfg api address ending_block thread_id fuel
                  {| result := Some (ResultList page) |} tentative_end index s
    = None.
Proof.
  induction fuel as [|fuel IH]; intros tentative_end index s Hcur.
  - cbn [overflow_loop get_result_len result result_len].
    destruct (Z.geb_spec (Z.of_nat (length page)) (RECORD_RETRIEVAL_LIMIT cfg));
      [reflexivity | lia].
  - rewrite ProducerRunFacts.overflow_loop_full by (cbn; assumption).
    rewrite Hcur.
    rewrite (ProducerRunFacts.call_etherscan_answer
               cfg api address thread_id _ _ _
               {| result := Some (ResultList page) |} (ResultList page))
      by (cbn [calls emit set_block_window_amount]; auto).
    apply IH. cbn. assumption.
Qed.

(** X7.  The inner loop has no way out but an answer below the page limit:
    when every window that starts at the cursor answers with a full page,
    the worker asks again and again and never ends, and from the end of
    [BLOCK_ATTEMPTS] on it asks for the same window of 20 blocks. *)
Theorem producer_never_leaves_overflow_loop (fuel : nat) (s : State) :
  call_api_and_produce cfg api address ending_block thread_id fuel current s
  = None
  /\ forall index : nat,
      (length (BLOCK_ATTEMPTS cfg) <= index)%nat -> next_window cfg index = 20.
Proof.
  split.
  - unfold call_api_and_produce, try_finally, try_except.
    unfold bind at 1, modify. unfold bind at 1.
    match goal with
    | |- context [produce_loop _ _ _ _ _ _ ?s0] =>
        assert (Hloop : produce_loop cfg api address ending_block thread_id
                                     fuel s0 = None); [|now rewrite Hloop]
    end.
    destruct fuel as [|fuel]; cbn [produce_loop]; unfold bind at 1, gets;
      cbn [current_block set_current_block set_block_window_amount];
      (destruct (Z.leb_spec current ending_block) as [_|]; [|lia]);
      [reflexivity|].
    unfold log. unfold bind at 1, modify. unfold bind at 1.
    rewrite (ProducerRunFacts.call_etherscan_answer
               cfg api address thread_id _ _ _
               {| result := Some (ResultList page) |} (ResultList page))
      by (cbn [calls emit set_current_block set_block_window_amount]; auto).
    unfold bind at 1. cbn [lift data_result result].
    rewrite (truthy_full_page _ _ limit_positive page_full). cbn [negb].
    unfold bind at 1. now rewrite overflow_loop_never_ends.
  - intros index Hlong. unfold next_window.
    now rewrite (lookup_ge_None_2 _ _ Hlong).
Qed.

End Overflow.

Lemma producer_never_leaves_overflow_loop_witness :
  call_api_and_produce
    Examples.sample_cfg
    (fun _ _ => response_of
                  (replicate (Z.to_nat 10000) (Examples.transfer "0xh")))
    "0xTEST" 1000 0 1000 80 Examples.idle_thread
  = None.
Proof.
  apply (producer_never_leaves_overflow_loop
           Examples.sample_cfg
           (fun _ _ => response_of
                         (replicate (Z.to_nat 10000) (Examples.transfer "0xh")))
           "0xTEST" 1000 0 80
           (replicate (Z.to_nat 10000) (Examples.transfer "0xh"))).
  - lia.
  - cbn. lia.
  - rewrite length_replicate. cbn. lia.
  - reflexivity.
Defined.

(** X8.  The loop over a page stops at the first record the filter cannot
    read, with the records before it already on the queue.  A record
    without [value] or with a value that is no integer literal cannot be
    read; [isError] is looked at only when the value is positive, so a record
    with a value of zero or less is dropped without it. *)
Theorem enqueue_stops_at_unreadable_record
        (good : list RawRecord) (bad : RawRecord) (rest : list RawRecord)
        (e : PyExn) (s : State) :
  Forall well_formed good -> keep bad = Raise e ->
  enqueue_records (good ++ bad :: rest) s
  = Some (Raise e, set_queue (queue s ++ List.filter kept good) s)
  /\ (forall tx : RawRecord,
        tx !! "value" = None -> keep tx = Raise (KeyError "value"))
  /\ (forall (tx : RawRecord) (value : string) (v : Z),
        tx !! "value" = Some value -> py_int value = Return v -> v <= 0 ->
        keep tx = Return false)
  /\ (forall (tx : RawRecord) (value : string) (v : Z),
        tx !! "value" = Some value -> py_int value = Return v -> 0 < v ->
        tx !! "isError" = None -> keep tx = Raise (KeyError "isError")).
Proof.
  intros Hgood Hbad. split; [|split; [|split]].
  - revert s. induction Hgood as [|tx good Htx Hgood IH]; intros s.
    + cbn [app enqueue_records List.filter]. unfold filter_and_put, bind, lift.
      rewrite Hbad, app_nil_r. now rewrite ProducerFacts.set_queue_queue.
    + change ((tx :: good) ++ bad :: rest) with (tx :: (good ++ bad :: rest)).
      cbn [enqueue_records List.filter]. unfold bind at 1.
      destruct Htx as (value & is_error & v & Hvalue & Hint & Hflag).
      unfold filter_and_put, bind, lift, kept.
      rewrite (ProducerFacts.keep_well_formed tx value is_error v) by assumption.
      destruct ((v >? 0) && negb (String.eqb is_error "1")).
      * unfold modify. rewrite IH. cbn. now rewrite <- app_assoc.
      * unfold ret. rewrite IH. reflexivity.
  - intros tx Hvalue. unfold keep, getitem, obind. now rewrite Hvalue.
  - intros tx value v Hvalue Hint Hle. unfold keep, getitem, obind.
    rewrite Hvalue, Hint.
    destruct (Z.gtb_spec v 0); [lia | reflexivity].
  - intros tx value v Hvalue Hint Hpos Hflag. unfold keep, getitem, obind.
    rewrite Hvalue, Hint.
    destruct (Z.gtb_spec v 0); [|lia]. now rewrite Hflag.
Qed.

Lemma enqueue_stops_at_unreadable_record_witness :
  enqueue_records
    ([Examples.transfer "0xh"] ++ Examples.malformed_transfer "0xi"
                               :: [Examples.transfer "0xj"])
    Examples.idle_thread
  = Some (Raise (ValueError "invalid literal for int() with base 10: five"),
          set_queue (queue Examples.idle_thread
                     ++ List.filter kept [Examples.transfer "0xh"])
                    Examples.idle_thread).
Proof.
  apply (enqueue_stops_at_unreadable_record
           [Examples.transfer "0xh"] (Examples.malformed_transfer "0xi")
           [Examples.transfer "0xj"]
           (ValueError "invalid literal for int() with base 10: five")
           Examples.idle_thread).
  - repeat constructor. exists "5", "0", 5. repeat split; vm_compute; reflexivity.
  - vm_compute. reflexivity.
Defined.

End ProducerFailureFacts.

(** ** The conflict report and the failures [__save] does not expect *)

Module FlushFailureFacts.
Import Store Env Flush FlushRuns.

Lemma append_cons (c : ascii) (s t : string) :
  (String c s ++ t)%string = String c (s ++ t)%string.
Proof. reflexivity. Qed.

Lemma until_close_label (h post : string) :
  plain_label h -> until_close (h ++ String ")" post)%string = Some h.
Proof.
  induction h as [|c h IH]; intros Hplain; [reflexivity|].
  rewrite append_cons. cbn [until_close].
  destruct (Hplain c ltac:(now left)) as [Hclose Hline].
  apply Ascii.eqb_neq in Hclose, Hline. rewrite Hclose, Hline.
  rewrite IH; [reflexivity|].
  intros c' Hc'. apply Hplain. now right.
Qed.

Lemma prefix_append (p s : string) : String.prefix p (p ++ s)%string = true.
Proof.
  induction p as [|c p IH]; [now destruct s|].
  rewrite append_cons. cbn [String.prefix].
  destruct (ascii_dec c c); [exact IH | congruence].
Qed.

Lemma search_hash_here (s g : string) :
  String.prefix "(hash)=(" s = true ->
  until_close (string_drop 8 s) = Some g ->
  search_hash s = Some g.
Proof.
  intros Hprefix Hgroup. destruct s as [|c s]; [discriminate|].
  cbn [search_hash]. now rewrite Hprefix, Hgroup.
Qed.

Lemma search_hash_after_plain_text (h : string) (Hplain : plain_label h) :
  forall pre post : string,
    ~ In "("%char (list_ascii_of_string pre) ->
    search_hash (pre ++ "(hash)=(" ++ h ++ String ")" post)%string = Some h.
Proof.
  intros pre post. induction pre as [|c pre IH]; intros Hno.
  - apply search_hash_here; [apply (prefix_append "(hash)=(")|].
    now apply until_close_label.
  - rewrite append_cons. cbn [search_hash String.prefix].
    destruct (ascii_dec "(" c) as [<-|_]; [exfalso; apply Hno; now left|].
    apply IH. intros Hin. apply Hno. now right.
Qed.

Lemma search_hash_violation (h : string) :
  plain_label h ->
  search_hash (detail_of (unique_violation "hash" h)) = Some h.
Proof.
  intros Hplain.
  apply (search_hash_after_plain_text
           h Hplain "duplicate key value violates unique constraint. Key "%string
           " already exists."%string).
  cbn. intros H.
  repeat (destruct H as [H|H]; [discriminate H|]). exact H.
Qed.

(** X9.  The pattern of line 94 reads back the key of a unique violation:
    in a text without an earlier opening parenthesis, the group is what
    stands between [(hash)=(] and the first closing parenthesis after it.
    In particular the detail of a violation of the hash constraint gives
    back the hash. *)
Theorem search_hash_reads_key (pre h post : string) :
  ~ In "("%char (list_ascii_of_string pre) -> plain_label h ->
  search_hash (pre ++ "(hash)=(" ++ h ++ String ")" post)%string = Some h
  /\ search_hash (detail_of (unique_violation "hash" h)) = Some h.
Proof.
  intros Hpre Hplain. split.
  - now apply search_hash_after_plain_text.
  - now apply search_hash_violation.
Qed.

Lemma search_hash_reads_key_witness :
  search_hash ("Key " ++ "(hash)=(" ++ "0xh" ++ String ")" " already exists.")%string
  = Some "0xh"%string
  /\ search_hash (detail_of (unique_violation "hash" "0xh")) = Some "0xh"%string.
Proof.
  apply (search_hash_reads_key "Key " "0xh" " already exists.").
  - cbn. intros H. repeat (destruct H as [H|H]; [discriminate H|]). exact H.
  - intros c H. cbn in H.
    repeat (destruct H as [<-|H]; [split; discriminate|]). destruct H.
Defined.

Ltac save_norm :=
  cbn [db log queue done env clock pending session_closed batch
       add_log add_logs set_db set_channel set_pending set_session_closed
       set_batch faults transactions addresses next_address_id
       set_transactions set_addresses fst snd fault_exn].

(** X10.  A failure of the store that is not an integrity error, at the
    insert or at the commit: [__save] rolls back, logs the error and
    returns, with nothing stored and the batch as it was.  The flush of a
    full batch then empties the batch: its records are neither stored nor
    tried again. *)
Theorem save_survives_connection_failure
        (thread_id : Z) (w : World) (msg : string)
        (rest : list (option DbFault)) :
  pending w = [] ->
  faults (db w) = Some (ConnectionFault msg) :: rest
  \/ (faults (db w) = None :: Some (ConnectionFault msg) :: rest
      /\ has_conflict (batch w) (transactions (db w)) = false) ->
  exists w' : World,
    save thread_id w = Some (Return tt, w')
    /\ batch w' = batch w
    /\ transactions (db w') = transactions (db w)
    /\ pending w' = [] /\ faults (db w') = rest
    /\ log w'
       = log w ++ [AboutToSave (length (batch w)) thread_id;
                   UnexpectedSaveError (OperationalError msg) thread_id]
    /\ flush_full_batch thread_id w = Some (Return tt, set_batch [] w').
Proof.
  intros Hp [Hf|[Hf Hok]].
  - unfold flush_full_batch, save, bulk_save_objects, session_commit,
      session_rollback, logger, execute, statement, pop_fault,
      try_except, bind, gets, modify, lift, ret.
    save_norm. rewrite Hf. save_norm.
    eexists. split; [reflexivity|]. save_norm.
    repeat split; auto. now rewrite <- app_assoc.
  - unfold has_conflict in Hok.
    unfold flush_full_batch, save, bulk_save_objects, session_commit,
      session_rollback, logger, execute, statement, pop_fault,
      try_except, bind, gets, modify, lift, ret.
    save_norm. rewrite Hf, Hp. save_norm.
    destruct (insert_rows (batch w) (transactions (db w)) []) as [[[]|e] p];
      [|discriminate].
    save_norm.
    eexists. split; [reflexivity|]. save_norm.
    repeat split; auto. now rewrite <- app_assoc.
Qed.

Lemma save_survives_connection_failure_witness :
  exists w' : World,
    save 7 (set_batch [Examples.stored_transfer "0xk"]
                      (Examples.drained_world Examples.failing_db []))
    = Some (Return tt, w')
    /\ batch w' = [Examples.stored_transfer "0xk"]
    /\ transactions (db w') = []
    /\ flush_full_batch 7 (set_batch [Examples.stored_transfer "0xk"]
                             (Examples.drained_world Examples.failing_db []))
       = Some (Return tt, set_batch [] w').
Proof.
  destruct (save_survives_connection_failure
              7 (set_batch [Examples.stored_transfer "0xk"]
                           (Examples.drained_world Examples.failing_db []))
              "server closed the connection" [] eq_refl (or_introl eq_refl))
    as (w' & Hsave & Hbatch & Hrows & _ & _ & _ & Hflush).
  exists w'. repeat split; assumption.
Defined.

(** X11.  The lookup of line 101 runs inside the handler of the integrity
    error, so its own failure is handled by no clause of [__save]: when the
    insert is refused for a duplicate hash and the lookup of the conflicting
    row fails, [__save] raises that failure, whatever its class, and the
    [clear()] that follows the flush of a full batch is not reached. *)
Theorem conflict_lookup_failure_escapes
        (thread_id : Z) (w : World) (f : DbFault)
        (rest : list (option DbFault)) :
  faults (db w) = None :: Some f :: rest -> pending w = [] ->
  has_conflict (batch w) (transactions (db w)) = true ->
  (forall h : string, h ∈ hash <$> batch w -> plain_label h) ->
  exists w' : World,
    save thread_id w = Some (Raise (fault_exn f), w')
    /\ flush_full_batch thread_id w = Some (Raise (fault_exn f), w')
    /\ batch w' = batch w
    /\ transactions (db w') = transactions (db w)
    /\ pending w' = [] /\ faults (db w') = rest.
Proof.
  intros Hf Hp Hbad Hplain. unfold has_conflict in Hbad.
  assert (Hsave : exists w' : World,
             save thread_id w = Some (Raise (fault_exn f), w')
             /\ batch w' = batch w
             /\ transactions (db w') = transactions (db w)
             /\ pending w' = [] /\ faults (db w') = rest).
  { unfold save, bulk_save_objects, session_commit,
      session_rollback, logger, execute, statement, pop_fault,
      try_except, bind, gets, modify, lift, ret.
    save_norm. rewrite Hf, Hp. save_norm.
    destruct (insert_rows (batch w) (transactions (db w)) [])
      as [[[]|e] p] eqn:Hins; [discriminate|].
    save_norm.
    destruct (FlushFacts.insert_rows_refused _ _ _ _ _ Hins) as (h & -> & Hin).
    pose proof (search_hash_violation h (Hplain h Hin)) as Hfound.
    unfold unique_violation, detail_of in Hfound.
    unfold unique_violation at 1. rewrite Hfound.
    rewrite FlushFacts.log_conflicting_logs.
    unfold query_transaction_first, statement, pop_fault.
    save_norm.
    eexists. split; [reflexivity|]. save_norm. repeat split; auto. }
  destruct Hsave as (w' & Hsave & Hrest). exists w'.
  split; [assumption|]. split; [|assumption].
  unfold flush_full_batch, bind. now rewrite Hsave.
Qed.

Lemma conflict_lookup_failure_escapes_witness :
  exists w' : World,
    save 7 (set_batch [Examples.stored_transfer "0xh"]
              (Examples.drained_world
                 (set_faults [None; Some (ConnectionFault "gone")]
                             Examples.stored_db) []))
    = Some (Raise (OperationalError "gone"), w')
    /\ batch w' = [Examples.stored_transfer "0xh"]
    /\ transactions (db w') = [Examples.stored_transfer "0xh"].
Proof.
  destruct (conflict_lookup_failure_escapes
              7 (set_batch [Examples.stored_transfer "0xh"]
                   (Examples.drained_world
                      (set_faults [None; Some (ConnectionFault "gone")]
                                  Examples.stored_db) []))
              (ConnectionFault "gone") [] eq_refl eq_refl eq_refl)
    as (w' & Hsave & _ & Hbatch & Hrows & _).
  - intros h Hin c Hc. cbn in Hin. apply list_elem_of_singleton in Hin. subst h.
    cbn in Hc. repeat (destruct Hc as [<-|Hc]; [split; discriminate|]).
    destruct Hc.
  - exists w'. repeat split; assumption.
Defined.

End FlushFailureFacts.

(** ** The resolver on a store that fails *)

Module ResolverFaultFacts.
Import Store Env Resolver.

Lemma unique_addresses_insert (a : string) (d : Db) (id : Z) :
  unique_addresses d -> address_rows a d = [] ->
  NoDup (address <$> addresses d ++ [{| address_id := id; address := a |}]).
Proof.
  intros Hunique Hnone. rewrite fmap_app. apply NoDup_app.
  split; [exact Hunique|]. split; [|apply NoDup_singleton].
  intros x Hx Hin. cbn in Hin. apply list_elem_of_singleton in Hin. subst x.
  now apply (TableFacts.key_rows_nil address a (addresses d)) in Hnone.
Qed.

Lemma address_rows_member (a : string) (d : Db) (row : Address) :
  address_rows a d = [row] -> row ∈ addresses d /\ address row = a.
Proof.
  intros Hrow.
  assert (Hin : row ∈ address_rows a d) by (rewrite Hrow; apply list_elem_of_here).
  unfold address_rows in Hin. now apply list_elem_of_filter in Hin as [? ?].
Qed.

Ltac resolver_case :=
  first
    [ now left
    | right; now (eexists (ConstraintFault _))
    | right; now (eexists (ConnectionFault _))
    | eexists; split; [reflexivity|]; split; [discriminate | reflexivity]
    | eexists; split;
      [apply elem_of_app; right; apply list_elem_of_here
      |split; reflexivity]
    | eexists; split; [eassumption | split; [assumption | reflexivity]] ].

(** X12.  [__get_or_create_address] on a store that keeps addresses unique
    and may fail any of its statements.  The call always ends with the
    session closed and nothing pending; it adds at most one row, for the
    address asked and only when there was none, and addresses stay unique.
    An identifier it returns is the one of a row of that address.  It returns
    [None] only after logging an error that is not an integrity error, and
    it raises only out of the second query, with no row added. *)
Theorem resolver_sound_under_faults (a : string) (w : World) :
  unique_addresses (db w) ->
  exists (r : Outcome (option Z)) (w' : World),
    get_or_create_address a w = Some (r, w')
    /\ session_closed w' = true /\ pending w' = []
    /\ transactions (db w') = transactions (db w)
    /\ unique_addresses (db w')
    /\ (addresses (db w') = addresses (db w)
        \/ (address_rows a (db w) = []
            /\ addresses (db w')
               = addresses (db w)
                 ++ [{| address_id := next_address_id (db w); address := a |}]))
    /\ match r with
       | Return (Some id) =>
           exists row : Address,
             row ∈ addresses (db w') /\ address row = a /\ address_id row = id
       | Return None =>
           exists e : PyExn,
             log w' = log w ++ [ResolverError e]
             /\ (forall detail : string, e <> IntegrityError detail)
             /\ addresses (db w') = addresses (db w)
       | Raise e =>
           addresses (db w') = addresses (db w)
           /\ (e = NoResultFound \/ exists f : DbFault, e = fault_exn f)
       end.
Proof.
  intros Hunique.
  destruct (ResolverFacts.address_rows_unique a (db w) Hunique)
    as [Hnone|[row Hone]].
  - pose proof (unique_addresses_insert a (db w) (next_address_id (db w))
                  Hunique Hnone) as Hfresh.
    destruct w as [[rows next txs plan] lg q dn ev ck pd closed bt].
    unfold address_rows, unique_addresses in *. cbn in Hnone, Hfresh, Hunique.
    unfold get_or_create_address, find_or_insert, on_integrity_error,
      on_other_error, try_finally, try_except, bind, execute,
      query_address_one_or_none, query_address_one, insert_address, statement,
      pop_fault, session_rollback, session_close, logger, modify, ret,
      address_rows.
    destruct plan as [|[[d1|m1]|] [|[[d2|m2]|] [|[[d3|m3]|] plan]]];
      cbn; rewrite ?Hnone; cbn; rewrite ?Hnone; cbn;
      do 2 eexists; (split; [reflexivity|]); cbn;
      repeat split; auto; resolver_case.
  - destruct (address_rows_member a (db w) row Hone) as [Hin Haddr].
    destruct w as [[rows next txs plan] lg q dn ev ck pd closed bt].
    unfold address_rows, unique_addresses in *. cbn in Hone, Hin, Hunique.
    unfold get_or_create_address, find_or_insert, on_integrity_error,
      on_other_error, try_finally, try_except, bind, execute,
      query_address_one_or_none, query_address_one, insert_address, statement,
      pop_fault, session_rollback, session_close, logger, modify, ret,
      address_rows.
    destruct plan as [|[[d1|m1]|] [|[[d2|m2]|] [|[[d3|m3]|] plan]]];
      cbn; rewrite ?Hone; cbn; rewrite ?Hone; cbn;
      do 2 eexists; (split; [reflexivity|]); cbn;
      repeat split; auto; resolver_case.
Qed.

Lemma resolver_sound_under_faults_witness :
  exists (r : Outcome (option Z)) (w' : World),
    get_or_create_address "0xa" (Examples.drained_world Examples.failing_db [])
    = Some (r, w')
    /\ session_closed w' = true /\ pending w' = []
    /\ unique_addresses (db w').
Proof.
  destruct (resolver_sound_under_faults
              "0xa" (Examples.drained_world Examples.failing_db []))
    as (r & w' & Hrun & Hclosed & Hpending & _ & Hunique & _).
  - apply NoDup_nil_2.
  - exists r, w'. auto.
Defined.

End ResolverFaultFacts.

(** ** A consumer that is never told to stop *)

Module ConsumerWaitFacts.
Import Store Env Consumer.

Lemma wait_for_item_only_ticks (events : list EnvEvent) :
  Forall (fun ev => ev = Tick) events ->
  forall (remaining : nat) (is_set : bool) (now : Z),
  exists events' : list EnvEvent,
    wait_for_item events remaining is_set now
    = (None, events', is_set, now + Z.of_nat remaining)
    /\ Forall (fun ev => ev = Tick) events'.
Proof.
  induction 1 as [|ev rest Hev Hrest IH]; intros remaining is_set now.
  - destruct remaining; cbn [wait_for_item];
      eexists; (split; [f_equal; lia | constructor]).
  - subst ev. destruct remaining as [|remaining']; cbn [wait_for_item].
    + eexists. split; [f_equal; lia | now constructor].
    + destruct (IH remaining' is_set (now + 1)) as (events' & -> & Hticks).
      eexists. split; [f_equal; lia | assumption].
Qed.

Section Waiting.
Variable cfg : Config.
Variable thread_id : Z.

Lemma loop_body_waiting (w : World) :
  done w = false -> queue w = [] -> Forall (fun ev => ev = Tick) (env w) ->
  exists events' : list EnvEvent,
    loop_body cfg thread_id w
    = Some (Return Continue,
            add_log (QueueEmptyWaiting thread_id)
                    (set_channel [] false events' (clock w + 5) w))
    /\ Forall (fun ev => ev = Tick) events'.
Proof.
  intros Hdone Hq Hticks.
  destruct (wait_for_item_only_ticks (env w) Hticks queue_timeout false (clock w))
    as (events' & Hwait & Hticks').
  exists events'. split; [|assumption].
  rewrite (ConsumerFacts.loop_body_after_timeout
             cfg thread_id w (set_channel [] false events' (clock w + 5) w)).
  - reflexivity.
  - unfold queue_get. now rewrite Hq, Hdone, Hwait.
Qed.

Lemma consume_loop_waiting (fuel : nat) :
  forall w : World,
    done w = false -> queue w = [] -> Forall (fun ev => ev = Tick) (env w) ->
    consume_loop cfg thread_id fuel w = None.
Proof.
  induction fuel as [|fuel IH]; intros w Hdone Hq Hticks;
    cbn [consume_loop]; unfold bind at 1, gets; unfold keep_running;
    rewrite Hdone; cbn [negb orb]; [reflexivity|].
  destruct (loop_body_waiting w Hdone Hq Hticks) as (events' & Hbody & Hticks').
  unfold bind. rewrite Hbody. now apply IH.
Qed.

(** X13.  Only the event ends an idle consumer.  While the event is not set
    and nothing is put on the queue, every pass of the loop waits its five
    units of time, logs that the queue is empty and goes round again, so
    neither the loop nor [consume] ends: the session stays open. *)
Theorem consumer_waits_for_the_signal (w : World) :
  done w = false -> queue w = [] -> Forall (fun ev => ev = Tick) (env w) ->
  (exists events' : list EnvEvent,
      loop_body cfg thread_id w
      = Some (Return Continue,
              add_log (QueueEmptyWaiting thread_id)
                      (set_channel [] false events' (clock w + 5) w)))
  /\ (forall fuel : nat, consume_loop cfg thread_id fuel w = None)
  /\ (forall fuel : nat, consume cfg thread_id fuel w = None).
Proof.
  intros Hdone Hq Hticks. split; [|split].
  - destruct (loop_body_waiting w Hdone Hq Hticks) as (events' & Hbody & _).
    now exists events'.
  - intros fuel. now apply consume_loop_waiting.
  - intros fuel. rewrite ConsumerFacts.consume_started.
    unfold consume_guarded, try_finally, try_except, bind.
    now rewrite consume_loop_waiting.
Qed.

End Waiting.

Lemma consumer_waits_for_the_signal_witness :
  consume Examples.sample_cfg 7 1000 (Examples.waiting_world [Tick; Tick])
  = None.
Proof.
  apply (consumer_waits_for_the_signal
           Examples.sample_cfg 7 (Examples.waiting_world [Tick; Tick]));
    [reflexivity | reflexivity | repeat constructor].
Defined.

End ConsumerWaitFacts.

(** ** The consumer on a store that works *)

Module ConsumerRunFacts.
Import Store Env Builtins Resolver Flush Consumer ConsumerRuns.

Lemma bind_returns {S A B} (m : M S A) (k : A -> M S B) (s s1 : S) (a : A) :
  m s = Some (Return a, s1) -> bind m k s = k a s1.
Proof. intros H. unfold bind. now rewrite H. Qed.

Lemma bind_lift_return {S A B} (o : Outcome A) (k : A -> M S B) (s : S) (a : A) :
  o = Return a -> bind (lift o) k s = k a s.
Proof. intros ->. reflexivity. Qed.

Lemma bind_gets {S A B} (f : S -> A) (k : A -> M S B) (s : S) :
  bind (gets f) k s = k (f s) s.
Proof. reflexivity. Qed.

Lemma bind_modify {S B} (f : S -> S) (k : unit -> M S B) (s : S) :
  bind (modify f) k s = k tt (f s).
Proof. reflexivity. Qed.

(** The entity of a record does not depend on the resolved identifiers but
    for the two fields that hold them. *)
Lemma make_transaction_ids (raw : RawRecord) (tx0 : Transaction)
      (from_id to_id : option Z) :
  make_transaction raw None None = Return tx0 ->
  exists tx : Transaction,
    make_transaction raw from_id to_id = Return tx
    /\ hash tx = record_hash raw.
Proof.
  unfold make_transaction, obind.
  repeat match goal with
         | |- context [match ?x with Return _ => _ | Raise _ => _ end] =>
             destruct x eqn:?; try discriminate
         end.
  intros _. eexists. split; [reflexivity|]. cbn [hash].
  unfold record_hash.
  match goal with
  | H : getitem raw "hash" = Return _ |- _ =>
      unfold getitem in H; destruct (raw !! "hash"); inversion H; reflexivity
  end.
Qed.

Lemma insert_rows_fresh (rows : list Transaction) :
  forall committed pending : list Transaction,
    NoDup (hash <$> (committed ++ pending) ++ rows) ->
    insert_rows rows committed pending = (Return tt, pending ++ rows).
Proof.
  induction rows as [|row rest IH]; intros committed pending Hfresh.
  - cbn. now rewrite app_nil_r.
  - cbn [insert_rows].
    assert (Hnew : hash_rows (hash row) (committed ++ pending) = []).
    { apply FlushFacts.hash_rows_nil. intros Hin.
      rewrite fmap_app in Hfresh. apply NoDup_app in Hfresh as (_ & Hsep & _).
      apply (Hsep _ Hin). rewrite fmap_cons. apply list_elem_of_here. }
    rewrite Hnew, IH.
    + now rewrite <- app_assoc.
    + now rewrite <- !app_assoc in *.
Qed.

Lemma stored_as_grows (d d' : Db) (new : list Address) (raw : RawRecord)
      (tx : Transaction) :
  addresses d' = addresses d ++ new -> stored_as d raw tx -> stored_as d' raw tx.
Proof.
  intros Hgrow (sender & receiver & Hs & Hr & Hrest).
  exists sender, receiver. rewrite Hgrow.
  split; [apply elem_of_app; now left|].
  split; [apply elem_of_app; now left | assumption].
Qed.

(** The resolver on a healthy store: it returns the row of the address,
    which it has added at the end of the table if there was none. *)
Lemma get_or_create_address_healthy (a : string) (w : World) :
  faults (db w) = [] -> unique_addresses (db w) ->
  exists (row : Address) (w' : World),
    get_or_create_address a w = Some (Return (Some (address_id row)), w')
    /\ row ∈ addresses (db w') /\ address row = a
    /\ healthy w'
    /\ (exists new : list Address,
          addresses (db w') = addresses (db w) ++ new /\ (length new <= 1)%nat)
    /\ transactions (db w') = transactions (db w)
    /\ batch w' = batch w /\ queue w' = queue w /\ done w' = done w
    /\ env w' = env w.
Proof.
  intros Hf Hunique.
  destruct (ResolverFacts.address_rows_unique a (db w) Hunique)
    as [Hnone|[row Hone]].
  - pose proof (ResolverFaultFacts.unique_addresses_insert
                  a (db w) (next_address_id (db w)) Hunique Hnone) as Hfresh.
    destruct w as [[rows next txs plan] lg q dn ev ck pd closed bt].
    unfold healthy, address_rows, unique_addresses in *.
    cbn in Hnone, Hfresh, Hunique, Hf. subst plan.
    unfold get_or_create_address, find_or_insert, on_integrity_error,
      on_other_error, try_finally, try_except, bind, execute,
      query_address_one_or_none, query_address_one, insert_address, statement,
      pop_fault, session_rollback, session_close, logger, modify, ret,
      address_rows.
    cbn. rewrite Hnone. cbn. rewrite ?Hnone. cbn.
    exists {| address_id := next; address := a |}. eexists.
    split; [reflexivity|]. cbn.
    split; [apply elem_of_app; right; apply list_elem_of_here|].
    repeat split; auto. eexists. split; [reflexivity | cbn; lia].
  - destruct (ResolverFaultFacts.address_rows_member a (db w) row Hone)
      as [Hin Haddr].
    destruct w as [[rows next txs plan] lg q dn ev ck pd closed bt].
    unfold healthy, address_rows, unique_addresses in *.
    cbn in Hone, Hin, Hunique, Hf. subst plan.
    unfold get_or_create_address, find_or_insert, on_integrity_error,
      on_other_error, try_finally, try_except, bind, execute,
      query_address_one_or_none, query_address_one, insert_address, statement,
      pop_fault, session_rollback, session_close, logger, modify, ret,
      address_rows.
    cbn. rewrite Hone. cbn. rewrite ?Hone. cbn.
    exists row. eexists. split; [reflexivity|]. cbn.
    repeat split; auto. exists []. split; [now rewrite app_nil_r | cbn; lia].
Qed.

Section Healthy.
Variable cfg : Config.
Variable thread_id : Z.

(** What is done with one readable record whose hash is new. *)
Lemma process_record_healthy (raw : RawRecord) (w : World) :
  healthy w -> readable raw ->
  NoDup ((hash <$> transactions (db w) ++ batch w) ++ [record_hash raw]) ->
  exists (w' : World) (tx : Transaction),
    process_record cfg thread_id raw w = Some (Return tt, w')
    /\ stored_as (db w') raw tx /\ hash tx = record_hash raw
    /\ transactions (db w') ++ batch w'
       = (transactions (db w) ++ batch w) ++ [tx]
    /\ healthy w'
    /\ (exists new : list Address,
          addresses (db w') = addresses (db w) ++ new /\ (length new <= 2)%nat)
    /\ queue w' = queue w /\ done w' = done w /\ env w' = env w.
Proof.
  intros (Hf & Hp & Hunique) (sender & receiver & tx0 & Hfrom & Hto & Hmake) Hfresh.
  destruct (get_or_create_address_healthy sender w Hf Hunique)
    as (frow & w1 & Hrun1 & Hin1 & Haddr1 & (Hf1 & Hp1 & Hu1)
        & (new1 & Hgrow1 & Hnew1)
        & Htx1 & Hb1 & Hq1 & Hd1 & He1).
  destruct (get_or_create_address_healthy receiver w1 Hf1 Hu1)
    as (trow & w2 & Hrun2 & Hin2 & Haddr2 & (Hf2 & Hp2 & Hu2)
        & (new2 & Hgrow2 & Hnew2)
        & Htx2 & Hb2 & Hq2 & Hd2 & He2).
  destruct (make_transaction_ids raw tx0 (Some (address_id frow))
                                 (Some (address_id trow)) Hmake)
    as (tx & Htx & Hhash).
  assert (Hstored : stored_as (db w2) raw tx).
  { exists frow, trow. rewrite Haddr1, Haddr2.
    split; [rewrite Hgrow2; apply elem_of_app; now left|]. auto. }
  assert (Hgrow : exists new : list Address,
             addresses (db w2) = addresses (db w) ++ new
             /\ (length new <= 2)%nat).
  { exists (new1 ++ new2). rewrite Hgrow2, Hgrow1, app_assoc, length_app.
    split; [reflexivity | lia]. }
  unfold process_record.
  rewrite (bind_lift_return (getitem raw "from") _ _ sender)
    by (unfold getitem; now rewrite Hfrom).
  rewrite (bind_returns _ _ _ _ _ Hrun1).
  rewrite (bind_lift_return (getitem raw "to") _ _ receiver)
    by (unfold getitem; now rewrite Hto).
  rewrite (bind_returns _ _ _ _ _ Hrun2).
  rewrite (bind_lift_return _ _ _ _ Htx).
  rewrite bind_gets, bind_modify, bind_gets. cbn [batch set_batch].
  destruct (Z.of_nat (length (batch w2 ++ [tx])) >=? SAVE_BATCH_LIMIT cfg).
  - destruct (FlushFacts.save_without_failure
                thread_id (set_batch (batch w2 ++ [tx]) w2) Hf2 Hp2)
      as (w3 & Hsave & Hp3 & Hf3 & Ha3 & Hq3 & Hd3 & He3 & _ & Hok & _).
    cbn [batch set_batch db transactions queue done env] in Hok, Ha3, Hq3, Hd3, He3.
    destruct Hok as [Hrows3 Hb3].
    { unfold has_conflict. rewrite insert_rows_fresh; [reflexivity|].
      rewrite app_nil_r, Htx2, Htx1, Hb2, Hb1, app_assoc, fmap_app.
      cbn [fmap list_fmap]. now rewrite Hhash. }
    rewrite (bind_returns _ _ _ _ _ Hsave).
    rewrite bind_modify, bind_gets.
    unfold bind, execute, count_transactions, statement, pop_fault, logger, modify.
    cbn [db set_batch]. rewrite Hf3.
    eexists. exists tx. split; [reflexivity|]. FlushFacts.world_norm.
    split; [eapply stored_as_grows; [|exact Hstored]; now rewrite Ha3, app_nil_r|].
    split; [assumption|].
    split; [rewrite Hrows3, Htx2, Htx1, Hb2, Hb1;
            now rewrite app_nil_r, !app_assoc|].
    split; [unfold healthy, unique_addresses; cbn; now rewrite Ha3|].
    split; [now rewrite Ha3|]. repeat split; congruence.
  - unfold ret. eexists. exists tx. split; [reflexivity|]. FlushFacts.world_norm.
    split; [assumption|]. split; [assumption|].
    split; [now rewrite Htx2, Htx1, Hb2, Hb1, !app_assoc|].
    split; [now unfold healthy|]. split; [assumption|].
    repeat split; congruence.
Qed.

Lemma consume_loop_healthy (q : list RawRecord) :
  forall (w : World) (fuel : nat),
    queue w = q -> done w = true -> healthy w -> Forall readable q ->
    NoDup ((hash <$> transactions (db w) ++ batch w) ++ (record_hash <$> q)) ->
    (length q < fuel)%nat ->
    exists (w' : World) (txs : list Transaction),
      consume_loop cfg thread_id fuel w = Some (Return tt, w')
      /\ transactions (db w') ++ batch w'
         = (transactions (db w) ++ batch w) ++ txs
      /\ Forall2 (stored_as (db w')) q txs
      /\ hash <$> txs = record_hash <$> q
      /\ healthy w'
      /\ (exists new : list Address,
            addresses (db w') = addresses (db w) ++ new
            /\ (length new <= 2 * length q)%nat)
      /\ queue w' = [] /\ env w' = env w.
Proof.
  induction q as [|raw rest IH]; intros w fuel Hq Hdone Hw Hread Hfresh Hfuel;
    (destruct fuel as [|fuel]; [cbn in Hfuel; lia|]);
    cbn [consume_loop]; rewrite bind_gets; unfold keep_running;
    rewrite Hdone, Hq; cbn [negb orb].
  - rewrite bool_decide_eq_true_2 by reflexivity. cbn [negb].
    exists w, []. split; [reflexivity|]. rewrite app_nil_r.
    split; [reflexivity|]. split; [constructor|]. split; [reflexivity|].
    split; [assumption|]. split; [|auto].
    exists []. split; [now rewrite app_nil_r | cbn; lia].
  - rewrite bool_decide_eq_false_2 by discriminate. cbn [negb].
    inversion Hread as [|? ? Hraw Hrest]; subst.
    set (w0 := set_channel rest (done w) (env w) (clock w) w).
    destruct (process_record_healthy raw w0) as
      (w1 & tx & Hrun & Hstored & Hhash & Hrows & Hw1 & (new & Hgrow & Hnew)
       & Hq1 & Hd1 & He1);
      [exact Hw | exact Hraw | |].
    { cbn [w0 db set_channel batch]. rewrite fmap_cons in Hfresh.
      apply NoDup_app in Hfresh as (Hleft & Hsep & Hright).
      apply NoDup_app. split; [assumption|]. split.
      - intros x Hx Hin. apply list_elem_of_singleton in Hin. subst x.
        apply (Hsep _ Hx). apply list_elem_of_here.
      - apply NoDup_singleton. }
    assert (Hbody : loop_body cfg thread_id w = Some (Return Continue, w1)).
    { unfold loop_body, try_except, bind, queue_get. rewrite Hq. fold w0.
      now rewrite Hrun. }
    rewrite (bind_returns _ _ _ _ _ Hbody).
    cbn [w0 queue set_channel done env db batch] in Hq1, Hd1, He1, Hrows, Hgrow.
    destruct (IH w1 fuel) as
      (w' & txs & Hloop & Hrows' & Hall & Hhashes & Hw' & (new' & Hgrow' & Hnew')
       & Hq' & He');
      [assumption | congruence | assumption | assumption | |cbn in Hfuel; lia|].
    { rewrite Hrows, fmap_app. cbn [fmap list_fmap]. rewrite Hhash.
      rewrite fmap_cons in Hfresh. now rewrite <- app_assoc. }
    exists w', (tx :: txs). split; [assumption|].
    split; [rewrite Hrows', Hrows; now rewrite <- app_assoc|].
    split; [constructor; [|assumption];
            eapply stored_as_grows; [exact Hgrow'|exact Hstored]|].
    split; [rewrite !fmap_cons; congruence|].
    split; [assumption|].
    split; [exists (new ++ new'); rewrite Hgrow', Hgrow, app_assoc, length_app;
            split; [reflexivity | cbn [length]; lia]|].
    split; congruence.
Qed.

(** X14.  A consumer started once the producers are done, on a store that
    works: it ends normally after one pass per queued record.  If every
    record is readable and the hashes, queued and stored, are all different,
    every record is stored exactly once, in queue order, after the rows that
    were there, each pointing at the rows of its two addresses; the queue
    and the batch end empty and the session closed. *)
Theorem consume_stores_every_record (w : World) (fuel : nat) :
  done w = true -> healthy w -> Forall readable (queue w) ->
  NoDup ((hash <$> transactions (db w)) ++ (record_hash <$> queue w)) ->
  (length (queue w) < fuel)%nat ->
  exists (w' : World) (txs : list Transaction),
    consume cfg thread_id fuel w = Some (Return tt, w')
    /\ transactions (db w') = transactions (db w) ++ txs
    /\ Forall2 (stored_as (db w')) (queue w) txs
    /\ hash <$> txs = record_hash <$> queue w
    /\ unique_hashes (db w') /\ unique_addresses (db w')
    /\ (length (addresses (db w'))
        <= length (addresses (db w)) + 2 * length (queue w))%nat
    /\ queue w' = [] /\ batch w' = [] /\ session_closed w' = true.
Proof.
  intros Hdone Hw Hread Hfresh Hfuel.
  rewrite ConsumerFacts.consume_started.
  destruct (consume_loop_healthy (queue w) (started_world thread_id w) fuel)
    as (w1 & txs & Hloop & Hrows & Hall & Hhashes & (Hf1 & Hp1 & Hu1)
        & (new & Hgrow & Hnew) & Hq1 & _);
    try assumption; try reflexivity.
  { cbn. now rewrite app_nil_r. }
  cbn [started_world db set_batch set_session_closed add_log add_logs batch
       transactions queue] in Hrows, Hgrow, Hnew.
  rewrite app_nil_r in Hrows.
  assert (Hcount : (length (addresses (db w1))
                    <= length (addresses (db w)) + 2 * length (queue w))%nat)
    by (rewrite Hgrow, length_app; lia).
  rewrite (ConsumerFacts.consume_guarded_after_loop _ _ _ _ _ _ Hloop).
  assert (Hdistinct : NoDup (hash <$> transactions (db w1) ++ batch w1)).
  { rewrite Hrows, fmap_app, Hhashes. exact Hfresh. }
  unfold final_flush. rewrite bind_gets.
  destruct (batch w1) as [|tx0 b] eqn:Hbatch.
  - unfold ret. rewrite app_nil_r in Hrows, Hdistinct.
    exists (closed_world thread_id w1), txs. split; [reflexivity|]. cbn.
    repeat split; auto.
  - destruct (FlushFacts.save_without_failure thread_id w1 Hf1 Hp1)
      as (w2 & Hsave & Hp2 & Hf2 & Ha2 & Hq2 & _ & _ & _ & Hok & _).
    destruct Hok as [Hrows2 Hb2].
    { unfold has_conflict. rewrite insert_rows_fresh; [reflexivity|].
      now rewrite app_nil_r, Hbatch. }
    rewrite (bind_returns _ _ _ _ _ Hsave). rewrite bind_gets.
    unfold logger, modify.
    exists (closed_world thread_id
              (add_log (FinalBatchSaved (length (batch w2))) w2)), txs.
    split; [reflexivity|]. cbn.
    rewrite Hbatch in Hrows2. rewrite Hrows2, Hrows.
    split; [reflexivity|].
    split; [eapply Forall2_impl; [exact Hall|];
            intros raw tx; apply (stored_as_grows _ _ []);
            now rewrite Ha2, app_nil_r|].
    split; [assumption|].
    split; [unfold unique_hashes; rewrite Hrows2; exact Hdistinct|].
    split; [unfold unique_addresses; now rewrite Ha2|].
    split; [now rewrite Ha2|].
    repeat split; congruence.
Qed.

End Healthy.

Lemma transfer_readable (h : string) : readable (Examples.transfer h).
Proof.
  exists "0xa", "0xb",
    {| block_number := 80; time_stamp := 1700000000; hash := h;
       from_address_id := None; to_address_id := None; value := 5;
       gas := 21000; gas_used := 20000; is_error := 0 |}.
  repeat split.
Qed.

Lemma consume_stores_every_record_witness :
  exists (w' : World) (txs : list Transaction),
    consume Examples.sample_cfg 7 4
            (Examples.drained_world
               Examples.empty_db
               [Examples.transfer "0xh"; Examples.transfer "0xi";
                Examples.transfer "0xj"])
    = Some (Return tt, w')
    /\ transactions (db w') = txs
    /\ hash <$> txs = ["0xh"; "0xi"; "0xj"]
    /\ queue w' = [] /\ batch w' = [] /\ session_closed w' = true.
Proof.
  destruct (consume_stores_every_record
              Examples.sample_cfg 7
              (Examples.drained_world
                 Examples.empty_db
                 [Examples.transfer "0xh"; Examples.transfer "0xi";
                  Examples.transfer "0xj"]) 4)
    as (w' & txs & Hrun & Hrows & _ & Hhashes & _ & _ & _ & Hq & Hb & Hclosed).
  - reflexivity.
  - repeat split. apply NoDup_nil_2.
  - repeat constructor; apply transfer_readable.
  - apply (bool_decide_unpack _). vm_compute. exact I.
  - cbn. lia.
  - exists w', txs. repeat split; assumption.
Defined.

End ConsumerRunFacts.

(** ** The dispatch of producers *)

Module CoordinatorFacts.
Import Partitioner Coordinator.

Lemma remove_future_member (future : Z) (fs : list Z) :
  future ∈ fs -> length fs = S (length (remove_future future fs)).
Proof.
  induction fs as [|f fs IH]; intros Hin; [inversion Hin|].
  cbn [remove_future]. destruct (Z.eqb_spec f future) as [->|Hne]; [reflexivity|].
  cbn [length]. f_equal. apply IH.
  apply elem_of_cons in Hin as [->|Hin]; [congruence | assumption].
Qed.

Lemma remove_future_subset (future : Z) (fs : list Z) (g : Z) :
  g ∈ remove_future future fs -> g ∈ fs.
Proof.
  induction fs as [|f fs IH]; [auto|].
  cbn [remove_future]. destruct (Z.eqb_spec f future) as [->|Hne]; intros Hin.
  - now apply list_elem_of_further.
  - apply elem_of_cons in Hin as [->|Hin];
      [apply list_elem_of_here | apply list_elem_of_further; auto].
Qed.

Lemma remove_future_other (future : Z) (fs : list Z) (g : Z) :
  g ∈ fs -> g <> future -> g ∈ remove_future future fs.
Proof.
  induction fs as [|f fs IH]; intros Hin Hne; [inversion Hin|].
  cbn [remove_future]. destruct (Z.eqb_spec f future) as [->|Hf].
  - apply elem_of_cons in Hin as [->|Hin]; [congruence | assumption].
  - apply elem_of_cons in Hin as [->|Hin];
      [apply list_elem_of_here | apply list_elem_of_further; auto].
Qed.

Lemma remove_future_NoDup (future : Z) (fs : list Z) :
  NoDup fs -> NoDup (remove_future future fs).
Proof.
  induction 1 as [|f fs Hf Hfs IH]; [constructor|].
  cbn [remove_future]. destruct (Z.eqb_spec f future); [assumption|].
  constructor; [|assumption].
  intros Hin. apply Hf. eapply remove_future_subset, Hin.
Qed.

Section Ranges.
Variables (ending_block step : Z).
Hypothesis step_positive : 1 <= step.

Lemma pending_ranges_exist (c : Z) :
  exists rest : list (Z * Z), pending_ranges ending_block step c rest.
Proof.
  destruct (PartitionerFacts.block_ranges_from
              ending_block step step_positive
              (S (Z.to_nat (ending_block - c + 1))) c ltac:(lia))
    as (rest & Hrest & _).
  exists rest. intros fuel Hfuel.
  apply (PartitionerFacts.block_ranges_more_fuel _ _ _ _ _ _ Hrest). lia.
Qed.

Lemma pending_ranges_unique (c : Z) (rest rest' : list (Z * Z)) :
  pending_ranges ending_block step c rest ->
  pending_ranges ending_block step c rest' -> rest = rest'.
Proof.
  intros H H'.
  specialize (H (S (Z.to_nat (ending_block - c + 1))) ltac:(lia)).
  specialize (H' (S (Z.to_nat (ending_block - c + 1))) ltac:(lia)).
  congruence.
Qed.

(** The generator yields the pending ranges one by one. *)
Lemma pending_ranges_next (c : Z) (rest : list (Z * Z)) :
  pending_ranges ending_block step c rest ->
  match rest with
  | [] => block_ranges_next c ending_block step = None
  | r :: rest' =>
      exists c' : Z,
        block_ranges_next c ending_block step = Some (r, c')
        /\ pending_ranges ending_block step c' rest'
  end.
Proof.
  intros Hrest.
  pose proof (Hrest (S (Z.to_nat (ending_block - c + 1))) ltac:(lia)) as Hrun.
  cbn [block_ranges] in Hrun.
  destruct (block_ranges_next c ending_block step) as [[r0 c0]|] eqn:Hnext.
  - destruct (pending_ranges_exist c0) as (rest0 & Hrest0).
    assert (Hc0 : c0 = c + step /\ c <= ending_block).
    { unfold block_ranges_next in Hnext.
      destruct (Z.leb_spec c ending_block); inversion Hnext; auto. }
    rewrite (Hrest0 (Z.to_nat (ending_block - c + 1)) ltac:(lia)) in Hrun.
    inversion Hrun; subst rest. eauto.
  - now inversion Hrun.
Qed.

End Ranges.

Section Dispatch.
Variable cfg : Config.
Variable ending_block : Z.
Variable producer_thread_count : nat.
Variable as_completed : list Z -> list Z.
Variable all : list (Z * Z).

Hypothesis step_positive : 1 <= generator_step cfg.

Abbreviation handed_out := (handed_out ending_block (generator_step cfg) all).
Abbreviation submit_next := (submit_next cfg ending_block).

Lemma handed_out_length (rest : list (Z * Z)) (d : Dispatch) :
  handed_out rest d -> (length (submitted d) + length rest = length all)%nat.
Proof.
  intros (_ & Hall & _). rewrite <- Hall, length_app, length_fmap. lia.
Qed.

(** The body of the [for] loop after the completed future is taken off the
    list: a producer for the next range, or the way out. *)
Lemma submit_next_handed_out (rest : list (Z * Z)) (d : Dispatch) :
  pending_ranges ending_block (generator_step cfg) (cursor d) rest ->
  (snd <$> submitted d) ++ rest = all ->
  fst <$> submitted d = seqZ 0 (thread_id d) ->
  0 <= thread_id d -> NoDup (futures d) ->
  Forall (fun f => f < thread_id d) (futures d) ->
  match rest with
  | [] => submit_next d = None
  | r :: rest' =>
      exists d' : Dispatch,
        submit_next d = Some d' /\ handed_out rest' d'
        /\ futures d' = futures d ++ [thread_id d]
        /\ submitted d' = submitted d ++ [(thread_id d, r)]
        /\ thread_id d' = thread_id d + 1
  end.
Proof.
  intros Hpending Hall Hids Hpos Hdistinct Hbelow.
  pose proof (pending_ranges_next ending_block (generator_step cfg)
                step_positive (cursor d) rest Hpending) as Hnext.
  unfold Coordinator.submit_next. destruct rest as [|r rest'].
  - now rewrite Hnext.
  - destruct Hnext as (c' & -> & Hpending').
    eexists. split; [reflexivity|]. cbn [futures submitted cursor thread_id].
    split; [|auto]. unfold Coordinator.handed_out.
    cbn [futures submitted cursor thread_id].
    split; [assumption|].
    split; [rewrite fmap_app, <- app_assoc; exact Hall|].
    split.
    { rewrite fmap_app, Hids. cbn [fmap list_fmap fst].
      replace (thread_id d + 1) with (thread_id d + 1 - 0) by lia.
      rewrite <- (Z2Nat.id (thread_id d)) at 3 by assumption.
      replace (Z.of_nat (Z.to_nat (thread_id d)) + 1 - 0)
        with (Z.of_nat (S (Z.to_nat (thread_id d)))) by lia.
      rewrite seqZ_S, Z2Nat.id by assumption. reflexivity. }
    split; [lia|].
    split.
    { apply NoDup_app. split; [assumption|]. split; [|apply NoDup_singleton].
      intros f Hf Hin. apply list_elem_of_singleton in Hin. subst f.
      rewrite Forall_forall in Hbelow. specialize (Hbelow _ Hf). lia. }
    split.
    { apply Forall_app. split.
      - eapply Forall_impl; [exact Hbelow|]. cbn. intros; lia.
      - repeat constructor. lia. }
    intros Hnil. destruct (futures d); discriminate Hnil.
Qed.

(** Lines 279-288 start a producer for each of the first ranges, as many
    as [PRODUCER_THREAD_COUNT] allows. *)
Lemma initial_fill_handed_out (n : nat) :
  forall (rest : list (Z * Z)) (d : Dispatch),
    pending_ranges ending_block (generator_step cfg) (cursor d) rest ->
    (snd <$> submitted d) ++ rest = all ->
    fst <$> submitted d = seqZ 0 (thread_id d) ->
    0 <= thread_id d -> NoDup (futures d) ->
    Forall (fun f => f < thread_id d) (futures d) ->
    (futures d = [] -> rest = [] \/ (1 <= n)%nat) ->
    exists rest' : list (Z * Z),
      handed_out rest' (initial_fill cfg ending_block n d)
      /\ futures (initial_fill cfg ending_block n d)
         = futures d ++ seqZ (thread_id d) (Z.of_nat (n `min` length rest)).
Proof.
  induction n as [|n IH];
    intros rest d Hpending Hall Hids Hpos Hdistinct Hbelow Hsome.
  - exists rest. cbn [initial_fill]. split.
    + repeat (split; [assumption|]). intros Hnil.
      destruct (Hsome Hnil) as [?|?]; [assumption | lia].
    + cbn. now rewrite app_nil_r.
  - pose proof (submit_next_handed_out rest d Hpending Hall Hids Hpos
                                       Hdistinct Hbelow) as Hnext.
    cbn [initial_fill]. destruct rest as [|r rest'].
    + rewrite Hnext. exists []. split.
      * repeat (split; [assumption|]). auto.
      * cbn. now rewrite app_nil_r.
    + destruct Hnext as (d' & -> & Hd' & Hfutures & _ & Htid).
      pose proof Hd' as (Hp' & Ha' & Hi' & Hpos' & Hn' & Hb' & _).
      destruct (IH rest' d' Hp' Ha' Hi' Hpos' Hn' Hb') as (rest'' & Hfill & Hfs).
      { intros Hnil. rewrite Hfutures in Hnil.
        destruct (futures d); discriminate Hnil. }
      exists rest''. split; [assumption|].
      rewrite Hfs, Hfutures, <- app_assoc. f_equal.
      rewrite Htid. cbn [length Nat.min].
      rewrite (seqZ_cons (thread_id d)) by lia. cbn [app]. do 2 f_equal; lia.
Qed.

(** The [for] loop over the futures that complete: each makes room for one
    more producer, so the number in flight does not grow and the work left
    shrinks with every future taken. *)
Lemma replace_completed_handed_out (completed : list Z) :
  forall (rest : list (Z * Z)) (d : Dispatch),
    handed_out rest d -> NoDup completed ->
    (forall f : Z, f ∈ completed -> f ∈ futures d) ->
    exists (rest' : list (Z * Z)) (d' : Dispatch) (broke : bool),
      replace_completed cfg ending_block completed d = (d', broke)
      /\ handed_out rest' d'
      /\ (length (futures d') <= length (futures d))%nat
      /\ (work_left all d' <= work_left all d)%nat
      /\ (completed <> [] -> work_left all d' < work_left all d)%nat.
Proof.
  induction completed as [|f cs IH]; intros rest d Hd Hdistinct Hmember.
  - exists rest, d, false. split; [reflexivity|]. split; [assumption|].
    split; [lia|]. split; [lia|]. congruence.
  - pose proof (handed_out_length rest d Hd) as Hlen.
    destruct Hd as (Hpending & Hall & Hids & Hpos & Hnodup & Hbelow & Hlast).
    pose proof (remove_future_member f (futures d)
                  (Hmember f (list_elem_of_here _ _))) as Hshorter.
    pose proof (submit_next_handed_out rest (forget f d) Hpending Hall Hids Hpos
                  (remove_future_NoDup f _ Hnodup)) as Hnext.
    cbn [replace_completed].
    destruct rest as [|r rest'].
    + rewrite Hnext.
      2:{ cbn. rewrite Forall_forall in *. intros g Hg.
          apply Hbelow. eapply remove_future_subset, Hg. }
      exists [], (forget f d), true. split; [reflexivity|].
      unfold Coordinator.handed_out, work_left. cbn [forget futures submitted
        cursor thread_id].
      split.
      { repeat (split; [assumption|]).
        split; [now apply remove_future_NoDup|].
        split; [|auto]. rewrite Forall_forall in *. intros g Hg.
        apply Hbelow. eapply remove_future_subset, Hg. }
      repeat split; intros; lia.
    + destruct Hnext as (d2 & -> & Hd2 & Hfutures & Hsubmitted & _).
      { cbn. rewrite Forall_forall in *. intros g Hg.
        apply Hbelow. eapply remove_future_subset, Hg. }
      apply NoDup_cons in Hdistinct as [Hfresh Hdistinct].
      destruct (IH rest' d2 Hd2 Hdistinct)
        as (rest'' & d' & broke & Hrun & Hd' & Hflight & Hwork & _).
      { intros g Hg. rewrite Hfutures. apply elem_of_app. left.
        cbn [forget futures]. apply remove_future_other.
        - apply Hmember. now apply list_elem_of_further.
        - intros ->. contradiction. }
      exists rest'', d', broke. split; [assumption|]. split; [assumption|].
      cbn [forget futures submitted] in Hfutures, Hsubmitted.
      unfold work_left in *.
      rewrite Hfutures, Hsubmitted, !length_app in *. cbn [length] in *.
      repeat split; intros; lia.
Qed.

Lemma for_as_completed_handed_out (rest : list (Z * Z)) (d : Dispatch) :
  handed_out rest d -> futures d <> [] ->
  as_completed (futures d) ≡ₚ futures d ->
  exists (rest' : list (Z * Z)) (d' : Dispatch),
    for_as_completed cfg ending_block as_completed d = Some d'
    /\ handed_out rest' d'
    /\ (length (futures d') <= length (futures d))%nat
    /\ (work_left all d' < work_left all d)%nat.
Proof.
  intros Hd Hsome Hperm.
  destruct (replace_completed_handed_out (as_completed (futures d)) rest d Hd)
    as (rest' & d' & broke & Hrun & Hd' & Hflight & _ & Hwork).
  - rewrite Hperm. apply Hd.
  - intros f Hf. now rewrite <- Hperm.
  - exists rest', d'. unfold for_as_completed. rewrite Hrun.
    assert (Hless : (work_left all d' < work_left all d)%nat).
    { apply Hwork. intros Hnil. rewrite Hnil in Hperm.
      apply Permutation_nil_l in Hperm. auto. }
    destruct broke; [auto|].
    rewrite (Permutation_length Hperm), Nat.ltb_irrefl. auto.
Qed.

Lemma drain_handed_out (completes : forall fs, as_completed fs ≡ₚ fs)
      (fuel : nat) :
  forall (rest : list (Z * Z)) (d : Dispatch),
    handed_out rest d -> (work_left all d < fuel)%nat ->
    exists d' : Dispatch,
      drain cfg ending_block as_completed fuel d = Some d'
      /\ handed_out [] d' /\ futures d' = [].
Proof.
  induction fuel as [|fuel IH]; intros rest d Hd Hfuel; [lia|].
  cbn [drain]. destruct (futures d) as [|f fs] eqn:Hfs.
  - exists d. split; [reflexivity|]. split; [|assumption].
    destruct Hd as (Hpending & Hall & Hids & Hpos & Hnodup & Hbelow & Hlast).
    rewrite (Hlast Hfs) in *. unfold Coordinator.handed_out. auto 10.
  - destruct (for_as_completed_handed_out rest d Hd)
      as (rest' & d' & -> & Hd' & _ & Hless);
      [rewrite Hfs; discriminate | apply completes |].
    apply (IH rest' d' Hd'). lia.
Qed.

(** X15.  The dispatch loop of [start], when every producer completes: in
    whatever order they do, each range of the partition is handed to exactly
    one producer, in partition order, and the producers are numbered from 0
    in that order.  The loop ends with no producer in flight once it has
    run at most once per range. *)
Theorem dispatch_hands_out_every_range (starting_block : Z) (fuel : nat) :
  (1 <= producer_thread_count)%nat ->
  (forall fs : list Z, as_completed fs ≡ₚ fs) ->
  block_ranges (enough_fuel starting_block ending_block) starting_block
               ending_block (generator_step cfg) = Some all ->
  (producer_thread_count + length all < fuel)%nat ->
  exists d : Dispatch,
    dispatch cfg ending_block producer_thread_count as_completed fuel
             starting_block = Some d
    /\ futures d = []
    /\ submitted d = zip (seqZ 0 (Z.of_nat (length all))) all.
Proof.
  intros Hpool Hcompletes Hranges Hfuel.
  assert (Hpending : pending_ranges ending_block (generator_step cfg)
                                    starting_block all).
  { destruct (pending_ranges_exist ending_block (generator_step cfg)
                step_positive starting_block) as (rest & Hrest).
    pose proof (Hrest (enough_fuel starting_block ending_block)
                      ltac:(unfold enough_fuel; lia)) as Hsame.
    rewrite Hranges in Hsame. now inversion Hsame. }
  unfold dispatch.
  match goal with
  | |- context [initial_fill _ _ _ ?d0] =>
      destruct (initial_fill_handed_out producer_thread_count all d0)
        as (rest & Hfill & Hflight); cbn; auto; try lia; [constructor|]
  end.
  cbn [futures thread_id app] in Hflight.
  destruct (drain_handed_out Hcompletes fuel rest _ Hfill)
    as (d & Hrun & (_ & Hall & Hids & Hpos & _) & Hnone).
  { unfold work_left. rewrite Hflight, length_seqZ. lia. }
  exists d. split; [assumption|]. split; [assumption|].
  rewrite app_nil_r in Hall.
  assert (Hcount : thread_id d = Z.of_nat (length all)).
  { pose proof (f_equal length Hids) as Hcount.
    rewrite length_fmap, length_seqZ in Hcount.
    rewrite <- Hall, length_fmap, Hcount. lia. }
  rewrite <- Hcount, <- Hids, <- Hall. symmetry. apply zip_fst_snd.
Qed.

Lemma replace_completed_keeps (stalled : Z) (completed : list Z) :
  forall d : Dispatch,
    stalled ∉ completed -> stalled ∈ futures d ->
    stalled ∈ futures (fst (replace_completed cfg ending_block completed d)).
Proof.
  induction completed as [|f cs IH]; intros d Hout Hin; [assumption|].
  apply not_elem_of_cons in Hout as [Hne Hout].
  cbn [replace_completed]. unfold Coordinator.submit_next.
  destruct (block_ranges_next (cursor (forget f d)) ending_block
                              (generator_step cfg)) as [[r c]|].
  - apply IH; [assumption|]. cbn [futures forget].
    apply elem_of_app. left. now apply remove_future_other.
  - cbn [fst futures forget]. now apply remove_future_other.
Qed.

Lemma drain_blocked (stalled : Z) (fuel : nat) :
  (forall fs : list Z, stalled ∉ as_completed fs) ->
  forall d : Dispatch,
    stalled ∈ futures d ->
    drain cfg ending_block as_completed fuel d = None.
Proof.
  intros Hstalled. induction fuel as [|fuel IH]; intros d Hin;
    cbn [drain]; destruct (futures d) as [|f fs] eqn:Hfs;
    try (now inversion Hin).
  unfold for_as_completed.
  rewrite <- Hfs in Hin.
  pose proof (replace_completed_keeps
                stalled (as_completed (futures d)) d (Hstalled _) Hin) as Hkept.
  destruct (replace_completed cfg ending_block (as_completed (futures d)) d)
    as [d' [|]]; cbn [fst] in Hkept.
  - now apply IH.
  - destruct (length (as_completed (futures d)) <? length (futures d))%nat;
      [reflexivity | now apply IH].
Qed.

(** X16.  The dispatch loop waits for every producer it started.  When one
    of the producers of the first round never completes, the loop never
    ends, whatever the others do: [producers_all_done_event.set()] is not
    reached. *)
Theorem dispatch_waits_for_a_stalled_producer
        (starting_block : Z) (stalled : Z) :
  block_ranges (enough_fuel starting_block ending_block) starting_block
               ending_block (generator_step cfg) = Some all ->
  0 <= stalled < Z.of_nat (producer_thread_count `min` length all) ->
  (forall fs : list Z, stalled ∉ as_completed fs) ->
  forall fuel : nat,
    dispatch cfg ending_block producer_thread_count as_completed fuel
             starting_block = None.
Proof.
  intros Hranges Hfirst Hstalled fuel.
  assert (Hpending : pending_ranges ending_block (generator_step cfg)
                                    starting_block all).
  { destruct (pending_ranges_exist ending_block (generator_step cfg)
                step_positive starting_block) as (rest & Hrest).
    pose proof (Hrest (enough_fuel starting_block ending_block)
                      ltac:(unfold enough_fuel; lia)) as Hsame.
    rewrite Hranges in Hsame. now inversion Hsame. }
  unfold dispatch. apply (drain_blocked stalled fuel Hstalled).
  match goal with
  | |- context [initial_fill _ _ _ ?d0] =>
      destruct (initial_fill_handed_out producer_thread_count all d0)
        as (rest & _ & ->); cbn; auto; try lia; [constructor|]
  end.
  apply elem_of_seqZ. lia.
Qed.

(** X17.  At most [PRODUCER_THREAD_COUNT] producers are in flight: the first
    loop starts one for each of the first ranges, as many as the count
    allows, and every later producer takes the place of one that has
    completed. *)
Theorem producers_in_flight_bounded (starting_block : Z) (d : Dispatch) :
  (forall fs : list Z, as_completed fs ≡ₚ fs) ->
  block_ranges (enough_fuel starting_block ending_block) starting_block
               ending_block (generator_step cfg) = Some all ->
  visited cfg ending_block producer_thread_count as_completed starting_block d ->
  (length (futures d) <= producer_thread_count `min` length all)%nat
  /\ futures (initial_fill cfg ending_block producer_thread_count
                           {| cursor := starting_block; futures := [];
                              thread_id := 0; submitted := [] |})
     = seqZ 0 (Z.of_nat (producer_thread_count `min` length all)).
Proof.
  intros Hcompletes Hranges Hvisited.
  assert (Hpending : pending_ranges ending_block (generator_step cfg)
                                    starting_block all).
  { destruct (pending_ranges_exist ending_block (generator_step cfg)
                step_positive starting_block) as (rest & Hrest).
    pose proof (Hrest (enough_fuel starting_block ending_block)
                      ltac:(unfold enough_fuel; lia)) as Hsame.
    rewrite Hranges in Hsame. now inversion Hsame. }
  assert (Hfill : forall d0 : Dispatch,
             d0 = {| cursor := starting_block; futures := [];
                     thread_id := 0; submitted := [] |} ->
             exists rest : list (Z * Z),
               (handed_out rest
                  (initial_fill cfg ending_block producer_thread_count d0)
                \/ producer_thread_count = O)
               /\ futures (initial_fill cfg ending_block producer_thread_count d0)
                  = seqZ 0 (Z.of_nat (producer_thread_count `min` length all))).
  { intros d0 ->. destruct producer_thread_count as [|n] eqn:Hcount.
    - exists all. split; [now right | reflexivity].
    - match goal with
      | |- context [initial_fill _ _ _ ?d0] =>
          destruct (initial_fill_handed_out (S n) all d0)
            as (rest & Hd & Hfs); cbn; auto; try lia; [constructor|]
      end.
      exists rest. split; [now left | exact Hfs]. }
  split; [|destruct (Hfill _ eq_refl) as (rest & _ & Hfs); exact Hfs].
  assert (Hinv : (exists rest : list (Z * Z), handed_out rest d
                                              \/ producer_thread_count = O)
                 /\ (length (futures d)
                     <= producer_thread_count `min` length all)%nat).
  { induction Hvisited as [|d completed later Hvisited IH Hyield].
    - destruct (Hfill _ eq_refl) as (rest & Hd & Hfs).
      split; [eauto|]. rewrite Hfs, length_seqZ. lia.
    - destruct IH as [[rest [Hd|Hzero]] Hbound].
      + pose proof (Hcompletes (futures d)) as Hperm. rewrite Hyield in Hperm.
        destruct (replace_completed_handed_out completed rest d Hd)
          as (rest' & d' & broke & Hrun & Hd' & Hflight & _).
        * assert (Hdistinct : NoDup (completed ++ later))
            by (rewrite Hperm; apply Hd).
          now apply NoDup_app in Hdistinct as [? _].
        * intros f Hf. rewrite <- Hperm. apply elem_of_app. now left.
        * rewrite Hrun. cbn [fst]. split; [eauto | lia].
      + assert (Hnone : futures d = []).
        { destruct (futures d); [reflexivity|]. cbn in Hbound.
          rewrite Hzero in Hbound. cbn in Hbound. lia. }
        pose proof (Hcompletes (futures d)) as Hperm.
        rewrite Hyield, Hnone in Hperm. apply Permutation_nil_r in Hperm.
        apply app_eq_nil in Hperm as [-> _]. cbn [replace_completed fst].
        split; [exists all; now right | assumption]. }
  apply Hinv.
Qed.

End Dispatch.

Lemma dispatch_hands_out_every_range_witness :
  exists d : Dispatch,
    dispatch Examples.sample_cfg 350 1 (@rev Z) 5 100 = Some d
    /\ futures d = []
    /\ submitted d = zip (seqZ 0 (Z.of_nat 3)) [(100, 199); (200, 299); (300, 350)].
Proof.
  apply (dispatch_hands_out_every_range
           Examples.sample_cfg 350 1 (@rev Z) [(100, 199); (200, 299); (300, 350)]).
  - cbn. lia.
  - lia.
  - intros fs. symmetry. apply Permutation_rev.
  - reflexivity.
  - cbn. lia.
Defined.

Lemma dispatch_waits_for_a_stalled_producer_witness :
  dispatch Examples.sample_cfg 350 2 (List.filter (fun f => negb (f =? 0)))
           1000 100 = None.
Proof.
  apply (dispatch_waits_for_a_stalled_producer
           Examples.sample_cfg 350 2 (List.filter (fun f => negb (f =? 0)))
           [(100, 199); (200, 299); (300, 350)] ltac:(cbn; lia) 100 0).
  - reflexivity.
  - cbn. lia.
  - intros fs Hin. apply list_elem_of_In, filter_In in Hin as [_ Hin].
    discriminate Hin.
Defined.

Lemma producers_in_flight_bounded_witness :
  (length (futures (initial_fill Examples.sample_cfg 350 2
                      {| cursor := 100; futures := []; thread_id := 0;
                         submitted := [] |}))
   <= 2 `min` length [(100, 199); (200, 299); (300, 350)])%nat
  /\ futures (initial_fill Examples.sample_cfg 350 2
                 {| cursor := 100; futures := []; thread_id := 0;
                    submitted := [] |})
     = seqZ 0 (Z.of_nat (2 `min` length [(100, 199); (200, 299); (300, 350)])).
Proof.
  apply (producers_in_flight_bounded
           Examples.sample_cfg 350 2 (@rev Z)
           [(100, 199); (200, 299); (300, 350)] ltac:(cbn; lia) 100).
  - intros fs. symmetry. apply Permutation_rev.
  - reflexivity.
  - apply visited_after_fill.
Defined.

End CoordinatorFacts.

(** ** Partitioner, coordinator and producer together *)

Module HandoverFacts.
Import Ledger Builtins Producer Partitioner Coordinator.

Section Handover.
Variable cfg : Config.
Variable api : nat -> ApiRequest -> Outcome ApiData.
Variable address : string.
Variable held : Z -> Z -> list RawRecord.

Hypothesis not_dev_mode : DEV_MODE cfg = false.
Hypothesis base_positive : 1 <= BASE_BLOCK_ATTEMPT cfg.
Hypothesis api_answers :
  forall (n : nat) (startblock endblock : Z),
    api n (request cfg address startblock endblock "asc")
    = response_of (held startblock endblock).
Hypothesis below_limit :
  forall startblock endblock : Z,
    Z.of_nat (length (held startblock endblock)) < RECORD_RETRIEVAL_LIMIT cfg.
Hypothesis records_well_formed :
  forall startblock endblock : Z, Forall well_formed (held startblock endblock).

(** X18.  Outside dev mode the generator's step is the producer's base
    window, so a range handed out by the coordinator is never wider than the
    first window of the producer that gets it: on a ledger whose answers fit
    in a page, that producer sends one request, for exactly its range, puts
    the kept records of the range on the queue and returns. *)
Theorem handed_out_range_takes_one_request
        (starting_block ending_block : Z) (rs : list (Z * Z)) (k : nat)
        (r : Z * Z) (thread_id : Z) (fuel : nat) (s : State) :
  block_ranges (enough_fuel starting_block ending_block) starting_block
               ending_block (generator_step cfg) = Some rs ->
  rs !! k = Some r ->
  fst r <= snd r < fst r + BASE_BLOCK_ATTEMPT cfg
  /\ exists s' : State,
      call_api_and_produce cfg api address (snd r) thread_id (S fuel) (fst r) s
      = Some (Return tt, s')
      /\ queue s' = queue s ++ ProducerRuns.kept_of held r
      /\ calls s' = S (calls s)
      /\ current_block s' = snd r + 1.
Proof.
  intros Hranges Hk.
  assert (Hstep : generator_step cfg = BASE_BLOCK_ATTEMPT cfg)
    by (unfold generator_step; now rewrite not_dev_mode).
  rewrite Hstep in Hranges.
  destruct (PartitionerFacts.block_ranges_from
              ending_block (BASE_BLOCK_ATTEMPT cfg) base_positive
              (enough_fuel starting_block ending_block) starting_block
              ltac:(unfold enough_fuel; lia))
    as (rs' & Hrs' & Hshape & _).
  rewrite Hranges in Hrs'. inversion Hrs'; subst rs'.
  destruct (Hshape k r Hk) as [-> Hin]. cbn [fst snd].
  set (a := starting_block + Z.of_nat k * BASE_BLOCK_ATTEMPT cfg) in *.
  set (b := Z.min (a + BASE_BLOCK_ATTEMPT cfg - 1) ending_block).
  assert (Hwidth : a <= b < a + BASE_BLOCK_ATTEMPT cfg) by (subst b; lia).
  split; [exact Hwidth|].
  set (s0 := set_block_window_amount
               (if negb (DEV_MODE cfg) then BASE_BLOCK_ATTEMPT cfg
                else DEV_STEP cfg)
               (set_current_block a s)).
  destruct (ProducerRunFacts.produce_pass_below_limit
              cfg api address b thread_id fuel s0
              (held a (Z.min (a + BASE_BLOCK_ATTEMPT cfg) b)))
    as (s1 & Hpass & Hq & Hc & Hn);
    [cbn; lia | apply api_answers | apply below_limit
     | apply records_well_formed |].
  cbn [current_block queue calls s0 set_block_window_amount set_current_block]
    in Hq, Hc, Hn.
  rewrite Z.min_r in Hq, Hc by lia.
  assert (Hstop : produce_loop cfg api address b thread_id fuel s1
                  = Some (Return tt, s1)).
  { destruct fuel; cbn [produce_loop]; unfold bind, gets; rewrite Hc;
      (destruct (Z.leb_spec (b + 1) b); [lia | reflexivity]). }
  unfold call_api_and_produce, try_finally, try_except.
  unfold bind at 1, modify. unfold bind at 1. fold s0.
  rewrite Hpass, Hstop. unfold bind, gets, log, modify.
  eexists. split; [reflexivity|]. cbn [queue calls current_block emit].
  repeat split; assumption.
Qed.

End Handover.

Lemma handed_out_range_takes_one_request_witness :
  100 <= 199 < 100 + 100
  /\ exists s' : State,
      call_api_and_produce Examples.sample_cfg
                           (Examples.ledger_api Examples.small_ledger)
                           "0xTEST" 199 0 1 100 Examples.idle_thread
      = Some (Return tt, s')
      /\ queue s'
         = queue Examples.idle_thread
           ++ ProducerRuns.kept_of
                (Examples.ledger_page 10000 Examples.small_ledger) (100, 199)
      /\ calls s' = 1%nat
      /\ current_block s' = 199 + 1.
Proof.
  apply (handed_out_range_takes_one_request
           Examples.sample_cfg (Examples.ledger_api Examples.small_ledger)
           "0xTEST" (Examples.ledger_page 10000 Examples.small_ledger)
           eq_refl ltac:(cbn; lia)
           ltac:(reflexivity)
           ltac:(intros; apply ProducerRunFacts.ledger_page_below_limit; cbn; lia)
           ltac:(intros; apply ProducerRunFacts.ledger_page_well_formed;
                 repeat constructor;
                 [exists "5", "0", 5 | exists "0", "0", 0 | exists "5", "1", 5];
                 repeat split; vm_compute; reflexivity)
           100 350 [(100, 199); (200, 299); (300, 350)] 0 (100, 199) 0 0
           Examples.idle_thread).
  - reflexivity.
  - reflexivity.
Defined.

End HandoverFacts.

(** ** The size of the batch *)

Module BatchFacts.
Import Store Env Builtins Resolver Flush Consumer ConsumerRuns.

Lemma batch_kept_or_cleared_refl (w : World) : batch_kept_or_cleared w w.
Proof. now left. Qed.

Lemma batch_kept_or_cleared_trans (w1 w2 w3 : World) :
  batch_kept_or_cleared w1 w2 -> batch_kept_or_cleared w2 w3 ->
  batch_kept_or_cleared w1 w3.
Proof. unfold batch_kept_or_cleared. intros [?|?] [?|?]; intuition congruence. Qed.

Ltac steady_batch :=
  repeat first
    [ assumption
    | apply (SteadyFacts.steady_ret _ batch_kept_or_cleared_refl)
    | apply (SteadyFacts.steady_raise _ batch_kept_or_cleared_refl)
    | apply (SteadyFacts.steady_lift _ batch_kept_or_cleared_refl)
    | apply (SteadyFacts.steady_gets _ batch_kept_or_cleared_refl)
    | apply SteadyFacts.steady_modify;
      intros; unfold batch_kept_or_cleared; cbn; tauto
    | apply SteadyFacts.steady_execute;
      intros; unfold batch_kept_or_cleared; cbn; tauto
    | match goal with
      | |- Env.steady _ (try_except _ _) =>
          apply (SteadyFacts.steady_try_except _ batch_kept_or_cleared_trans)
      | |- Env.steady _ (bind _ _) =>
          apply (SteadyFacts.steady_bind _ batch_kept_or_cleared_trans)
      | |- Env.steady _ (match ?x with _ => _ end) => destruct x
      | |- forall _ : _, Env.steady _ _ => intro
      | H : forall _, Env.steady _ _ |- Env.steady _ _ => apply H
      end ].

Lemma log_conflicting_batch (rows : list Transaction) :
  steady batch_kept_or_cleared (log_conflicting rows).
Proof.
  intros w. rewrite FlushFacts.log_conflicting_logs. do 2 eexists.
  split; [reflexivity|]. now left.
Qed.

(** [__save] touches the batch only to empty it. *)
Lemma save_batch (thread_id : Z) :
  steady batch_kept_or_cleared (save thread_id).
Proof.
  pose proof log_conflicting_batch as Hlog.
  unfold save, bulk_save_objects, session_commit, session_rollback, logger.
  steady_batch.
Qed.

Lemma steady_run {A} (R : World -> World -> Prop) (m : M World A)
      (w w' : World) (r : Outcome A) :
  steady R m -> m w = Some (r, w') -> R w w'.
Proof.
  intros Hm Hrun. destruct (Hm w) as (r0 & w0 & Hrun0 & HR). congruence.
Qed.

Section Bound.
Variable cfg : Config.
Variable thread_id : Z.

Abbreviation below w := (Z.of_nat (length (batch w)) < batch_bound cfg).
Abbreviation within w := (Z.of_nat (length (batch w)) <= batch_bound cfg).

Lemma process_record_batch (raw : RawRecord) (w w' : World)
      (r : Outcome unit) :
  process_record cfg thread_id raw w = Some (r, w') -> below w ->
  within w' /\ (r = Return tt -> below w').
Proof.
  intros Hrun Hbelow. unfold process_record in Hrun.
  assert (Hresolve : forall (a : string) (w1 w2 : World) (r1 : Outcome (option Z)),
             get_or_create_address a w1 = Some (r1, w2) -> batch w2 = batch w1).
  { intros a w1 w2 r1 Hr.
    now destruct (steady_run _ _ _ _ _
                    (ConsumerFacts.get_or_create_address_steady a) Hr)
      as [_ [_ ?]]. }
  apply ProducerSafetyFacts.bind_ended in Hrun
    as [(sender & w1 & Hsender & Hrun)|(e & Hsender & ->)];
    unfold lift in Hsender; inversion Hsender; subst;
    [|split; [lia | discriminate]].
  apply ProducerSafetyFacts.bind_ended in Hrun
    as [(from_id & w2 & Hfrom & Hrun)|(e & Hfrom & ->)];
    apply Hresolve in Hfrom; rewrite <- Hfrom in Hbelow;
    [|split; [lia | discriminate]].
  apply ProducerSafetyFacts.bind_ended in Hrun
    as [(receiver & w3 & Hreceiver & Hrun)|(e & Hreceiver & ->)];
    unfold lift in Hreceiver; inversion Hreceiver; subst;
    [|split; [lia | discriminate]].
  apply ProducerSafetyFacts.bind_ended in Hrun
    as [(to_id & w4 & Hto & Hrun)|(e & Hto & ->)];
    apply Hresolve in Hto; rewrite <- Hto in Hbelow;
    [|split; [lia | discriminate]].
  apply ProducerSafetyFacts.bind_ended in Hrun
    as [(tx & w5 & Hmade & Hrun)|(e & Hmade & ->)];
    unfold lift in Hmade; inversion Hmade; subst;
    [|split; [lia | discriminate]].
  rewrite ConsumerRunFacts.bind_gets, ConsumerRunFacts.bind_modify,
    ConsumerRunFacts.bind_gets in Hrun.
  cbn [batch set_batch] in Hrun.
  unfold batch_bound in *.
  destruct (Z.geb_spec (Z.of_nat (length (batch w5 ++ [tx])))
                       (SAVE_BATCH_LIMIT cfg)) as [Hfull|Hroom].
  - apply ProducerSafetyFacts.bind_ended in Hrun
      as [(u & w6 & Hsave & Hrun)|(e & Hsave & ->)];
      apply (steady_run _ _ _ _ _ (save_batch thread_id)) in Hsave;
      unfold batch_kept_or_cleared in Hsave; cbn [batch set_batch] in Hsave.
    + rewrite ConsumerRunFacts.bind_modify, ConsumerRunFacts.bind_gets in Hrun.
      unfold bind, execute, logger, modify in Hrun.
      destruct (count_transactions (db (set_batch [] w6))) as [[n|e] d];
        inversion Hrun; subst; cbn; split; intros; lia.
    + rewrite length_app in *. cbn [length] in *.
      destruct Hsave as [->| ->]; [rewrite length_app|];
        cbn [length]; split; (discriminate || lia).
  - unfold ret in Hrun. inversion Hrun; subst. cbn [batch set_batch].
    rewrite length_app in *. cbn [length] in *. split; intros; lia.
Qed.

Lemma queue_get_batch (timeout : nat) (w w1 : World) (r : Outcome RawRecord) :
  queue_get timeout w = Some (r, w1) -> batch w1 = batch w.
Proof.
  unfold queue_get. destruct (queue w).
  - destruct (wait_for_item (env w) timeout (done w) (clock w))
      as [[[[got|] events] is_set] now]; intros H; inversion H; reflexivity.
  - intros H; inversion H; reflexivity.
Qed.

Lemma loop_body_batch (w w' : World) (r : Outcome Ctl) :
  loop_body cfg thread_id w = Some (r, w') -> below w ->
  within w' /\ (forall c : Ctl, r = Return c -> below w').
Proof.
  intros Hrun Hbelow. unfold loop_body, try_except, bind in Hrun.
  destruct (ConsumerFacts.queue_get_cases queue_timeout w)
    as (w1 & [[raw Hget]|Hget]);
    pose proof (queue_get_batch _ _ _ _ Hget) as Hsame;
    rewrite <- Hsame in Hbelow; rewrite Hget in Hrun.
  - destruct (process_record cfg thread_id raw w1) as [[[[]|e] w2]|] eqn:Hrec;
      [| |discriminate];
      destruct (process_record_batch raw w1 w2 _ Hrec Hbelow)
        as [Hwithin Hreturn].
    + inversion Hrun; subst. split; [assumption|]. intros c _. now apply Hreturn.
    + rewrite ConsumerFacts.on_exception_other in Hrun
        by (eapply ConsumerFacts.process_record_raised, Hrec).
      inversion Hrun; subst. split; [assumption | discriminate].
  - cbn [on_exception] in Hrun. unfold bind, gets, logger, modify, ret in Hrun.
    destruct (done w1); inversion Hrun; subst; cbn;
      (split; [lia | intros; assumption]).
Qed.

(** X19.  The batch stays small.  Between two records the consumer's batch
    holds fewer than [SAVE_BATCH_LIMIT] entities (fewer than one when the
    limit is zero or less), whatever the store and the records do; the loop
    can be left by an exception with one more. *)
Theorem batch_stays_below_limit (fuel : nat) :
  forall (w w' : World) (r : Outcome unit),
    consume_loop cfg thread_id fuel w = Some (r, w') ->
    Z.of_nat (length (batch w)) < batch_bound cfg ->
    Z.of_nat (length (batch w')) <= batch_bound cfg
    /\ (r = Return tt -> Z.of_nat (length (batch w')) < batch_bound cfg).
Proof.
  induction fuel as [|fuel IH]; intros w w' r Hrun Hbelow;
    cbn [consume_loop] in Hrun; rewrite ConsumerRunFacts.bind_gets in Hrun;
    destruct (keep_running w);
    try discriminate;
    try (unfold ret in Hrun; inversion Hrun; subst;
         split; [apply Z.lt_le_incl; assumption | auto]).
  apply ProducerSafetyFacts.bind_ended in Hrun
    as [(c & w1 & Hbody & Hrun)|(e & Hbody & ->)];
    destruct (loop_body_batch _ _ _ Hbody Hbelow) as [Hwithin Hreturn].
  - specialize (Hreturn c eq_refl).
    destruct c; [now apply IH in Hrun|].
    unfold ret in Hrun. inversion Hrun; subst. split; [assumption | auto].
  - split; [assumption | discriminate].
Qed.

End Bound.

Lemma batch_stays_below_limit_witness :
  exists w' : World,
    consume_loop Examples.sample_cfg 7 4
                 (Examples.drained_world
                    Examples.empty_db
                    [Examples.transfer "0xh"; Examples.transfer "0xi";
                     Examples.transfer "0xj"])
    = Some (Return tt, w')
    /\ Z.of_nat (length (batch w')) < batch_bound Examples.sample_cfg.
Proof.
  destruct (consume_loop Examples.sample_cfg 7 4
              (Examples.drained_world
                 Examples.empty_db
                 [Examples.transfer "0xh"; Examples.transfer "0xi";
                  Examples.transfer "0xj"])) as [[r w']|] eqn:Hrun.
  - destruct (batch_stays_below_limit
                Examples.sample_cfg 7 4 _ w' r Hrun eq_refl) as [_ Hbelow].
    assert (Hr : r = Return tt)
      by (vm_compute in Hrun; now inversion Hrun).
    subst r. exists w'. split; [reflexivity | now apply Hbelow].
  - vm_compute in Hrun. discriminate Hrun.
Defined.

End BatchFacts.

(** ** Consumers and producers in one pool *)

Module ExecutorFacts.
Import Partitioner Coordinator Executor.

(** Submitting to a pool: the first free workers take the first tasks. *)
Lemma submit_all (tasks : list Task) :
  forall p : Pool,
    (length (running p) <= max_workers p)%nat ->
    let free := (max_workers p - length (running p))%nat in
    running (foldl submit p tasks) = running p ++ take free tasks
    /\ waiting (foldl submit p tasks) = waiting p ++ drop free tasks
    /\ max_workers (foldl submit p tasks) = max_workers p.
Proof.
  induction tasks as [|t tasks IH]; intros p Hroom free; subst free.
  - cbn. now rewrite take_nil, drop_nil, !app_nil_r.
  - cbn [foldl]. unfold submit at 2 4 6.
    destruct (Nat.ltb_spec (length (running p)) (max_workers p)) as [Hfree|Hfull].
    + match goal with
      | |- context [foldl submit ?p1 tasks] =>
          destruct (IH p1) as (Hr & Hw & Hm);
          [cbn; rewrite length_app; cbn; lia|]
      end.
      cbn [running waiting max_workers] in Hr, Hw, Hm.
      rewrite Hr, Hw, Hm, length_app. cbn [length].
      replace (max_workers p - length (running p))%nat
        with (S (max_workers p - (length (running p) + 1)))%nat by lia.
      cbn [take drop]. now rewrite <- app_assoc.
    + match goal with
      | |- context [foldl submit ?p1 tasks] =>
          destruct (IH p1) as (Hr & Hw & Hm); [cbn; lia|]
      end.
      cbn [running waiting max_workers] in Hr, Hw, Hm.
      rewrite Hr, Hw, Hm.
      replace (max_workers p - length (running p))%nat with O by lia.
      cbn [take drop]. rewrite take_0, drop_0, <- app_assoc. auto.
Qed.

Section Start.
Variable cfg : Config.
Variable ending_block : Z.
Variables (producer_thread_count dev_producer_thread_count
           consumer_thread_count : nat).
Variable as_completed : list Z -> list Z.

Lemma initial_fill_futures (n : nat) :
  forall d : Dispatch,
    futures d = fst <$> submitted d ->
    futures (initial_fill cfg ending_block n d)
    = fst <$> submitted (initial_fill cfg ending_block n d).
Proof.
  induction n as [|n IH]; intros d Hd; [assumption|].
  cbn [initial_fill]. unfold submit_next.
  destruct (block_ranges_next (cursor d) ending_block (generator_step cfg))
    as [[r c]|]; [|assumption].
  apply IH. cbn. now rewrite fmap_app, Hd.
Qed.

Lemma initial_fill_keeps (f : Z) (n : nat) :
  forall d : Dispatch,
    f ∈ futures d -> f ∈ futures (initial_fill cfg ending_block n d).
Proof.
  induction n as [|n IH]; intros d Hin; [assumption|].
  cbn [initial_fill]. unfold submit_next.
  destruct (block_ranges_next (cursor d) ending_block (generator_step cfg))
    as [[r c]|]; [|assumption].
  apply IH. cbn. apply elem_of_app. now left.
Qed.

(** X20.  Consumers and producers share one pool of
    [PRODUCER_THREAD_COUNT] workers ([DEV_PRODUCER_THREAD_COUNT] in dev
    mode), and the consumers are submitted first.  When there are at least
    as many consumers as workers, every worker runs a consumer and every
    producer of the first round waits for a worker.  A consumer does not end
    before the event is set, so if only a producer that runs can complete,
    the dispatch loop never ends and the event is never set. *)
Theorem consumers_take_every_worker (starting_block : Z) :
  (pool_size cfg producer_thread_count dev_producer_thread_count
   <= consumer_thread_count)%nat ->
  let p := started_pool cfg ending_block producer_thread_count
                        dev_producer_thread_count consumer_thread_count
                        starting_block in
  (forall t : Task, t ∈ running p -> exists c : Z, t = ConsumerTask c)
  /\ (forall f : Z,
        f ∈ futures (first_round cfg ending_block producer_thread_count
                                 starting_block) ->
        ProducerTask f ∈ waiting p)
  /\ ((forall (fs : list Z) (f : Z),
         f ∈ as_completed fs -> ProducerTask f ∈ running p) ->
      starting_block <= ending_block -> (1 <= producer_thread_count)%nat ->
      forall fuel : nat,
        dispatch cfg ending_block producer_thread_count as_completed fuel
                 starting_block = None).
Proof.
  intros Hsize p.
  set (size := pool_size cfg producer_thread_count dev_producer_thread_count)
    in *.
  set (consumers := ConsumerTask <$> seqZ 0 (Z.of_nat consumer_thread_count)).
  set (producers := ProducerTask
                      <$> (fst <$> submitted
                                     (first_round cfg ending_block
                                                  producer_thread_count
                                                  starting_block))).
  destruct (submit_all (consumers ++ producers) (new_pool size))
    as (Hr & Hw & _); [cbn; lia|].
  cbn [running waiting max_workers new_pool length app] in Hr, Hw.
  rewrite Nat.sub_0_r in Hr, Hw.
  assert (Hcount : length consumers = consumer_thread_count)
    by (unfold consumers; rewrite length_fmap, length_seqZ; lia).
  assert (Hrunning : running p = take size consumers).
  { unfold p, started_pool. fold size consumers producers. rewrite Hr.
    rewrite take_app_le by lia. reflexivity. }
  assert (Hwaiting : waiting p = drop size consumers ++ producers).
  { unfold p, started_pool. fold size consumers producers. rewrite Hw.
    rewrite drop_app_le by lia. reflexivity. }
  assert (Honly : forall t : Task, t ∈ running p -> exists c : Z, t = ConsumerTask c).
  { intros t Hin. rewrite Hrunning in Hin.
    apply elem_of_take in Hin as (i & Hin & _).
    unfold consumers in Hin. rewrite list_lookup_fmap in Hin.
    destruct (seqZ 0 (Z.of_nat consumer_thread_count) !! i) as [c|];
      inversion Hin. eauto. }
  split; [exact Honly|]. split.
  - intros f Hin. rewrite Hwaiting. apply elem_of_app. right.
    unfold producers. apply list_elem_of_fmap_2.
    unfold first_round in *. rewrite <- initial_fill_futures; auto.
  - intros Hruns Hspan Hpool fuel.
    unfold dispatch.
    apply (CoordinatorFacts.drain_blocked cfg ending_block as_completed 0 fuel).
    + intros fs Hin. destruct (Honly _ (Hruns _ _ Hin)) as [c Hc]. discriminate Hc.
    + destruct producer_thread_count as [|n]; [lia|].
      cbn [initial_fill]. unfold submit_next, block_ranges_next.
      cbn [cursor].
      destruct (Z.leb_spec starting_block ending_block); [|lia].
      apply initial_fill_keeps. cbn. apply list_elem_of_here.
Qed.

End Start.

Lemma consumers_take_every_worker_witness :
  (forall t : Task,
      t ∈ running (started_pool Examples.sample_cfg 1099 2 2 2 1000) ->
      exists c : Z, t = ConsumerTask c)
  /\ (forall f : Z,
        f ∈ futures (first_round Examples.sample_cfg 1099 2 1000) ->
        ProducerTask f ∈ waiting (started_pool Examples.sample_cfg 1099 2 2 2 1000))
  /\ dispatch Examples.sample_cfg 1099 2 (fun _ => []) 1000 1000 = None.
Proof.
  destruct (consumers_take_every_worker
              Examples.sample_cfg 1099 2 2 2 (fun _ => []) 1000)
    as (Hrunning & Hwaiting & Hblocked).
  - cbn. lia.
  - split; [assumption|]. split; [assumption|].
    apply Hblocked; [|lia|lia]. intros fs f Hin. inversion Hin.
Defined.

End ExecutorFacts.

(** ** No hash is stored twice *)

Module HashInvariantFacts.
Import Store Env Builtins Resolver Flush Consumer ConsumerRuns.

Lemma keeps_hashes_distinct_refl (w : World) : keeps_hashes_distinct w w.
Proof. now intros H. Qed.

Lemma keeps_hashes_distinct_trans (w1 w2 w3 : World) :
  keeps_hashes_distinct w1 w2 -> keeps_hashes_distinct w2 w3 ->
  keeps_hashes_distinct w1 w3.
Proof. unfold keeps_hashes_distinct. auto. Qed.

Lemma distinct_hashes_committed (rows pending : list Transaction) :
  NoDup (hash <$> rows ++ pending) -> NoDup (hash <$> rows ++ []).
Proof.
  rewrite app_nil_r, fmap_app. intros H. now apply NoDup_app in H as [? _].
Qed.

(** The insert of a batch, accepted or refused, leaves the hashes distinct. *)
Lemma insert_rows_distinct (rows : list Transaction) :
  forall (committed pending p : list Transaction) (o : Outcome unit),
    insert_rows rows committed pending = (o, p) ->
    NoDup (hash <$> committed ++ pending) -> NoDup (hash <$> committed ++ p).
Proof.
  induction rows as [|row rest IH]; intros committed pending p o Hins Hbefore;
    cbn [insert_rows] in Hins.
  - now inversion Hins; subst.
  - destruct (hash_rows (hash row) (committed ++ pending)) as [|x xs] eqn:Hfresh;
      [|now inversion Hins; subst].
    apply (IH _ _ _ _ Hins).
    rewrite app_assoc, fmap_app. cbn [fmap list_fmap].
    apply NoDup_app. split; [assumption|]. split; [|apply NoDup_singleton].
    intros h Hin Hnew. apply list_elem_of_singleton in Hnew. subst h.
    now apply FlushFacts.hash_rows_nil in Hfresh.
Qed.

Lemma pop_fault_transactions (d : Db) :
  transactions (snd (pop_fault d)) = transactions d.
Proof. unfold pop_fault. now destruct (faults d). Qed.

Lemma steady_execute_hashes {A} (stmt : Db -> Outcome A * Db) :
  (forall d, transactions (snd (stmt d)) = transactions d) ->
  steady keeps_hashes_distinct (execute stmt).
Proof.
  intros Hstmt w. unfold execute. specialize (Hstmt (db w)).
  destruct (stmt (db w)) as [r d]. do 2 eexists. split; [reflexivity|].
  unfold keeps_hashes_distinct, distinct_hashes. cbn in *. now rewrite Hstmt.
Qed.

Lemma bulk_save_objects_hashes (rows : list Transaction) :
  steady keeps_hashes_distinct (bulk_save_objects rows).
Proof.
  intros w. unfold bulk_save_objects, bind, gets, execute, statement, modify, lift.
  pose proof (pop_fault_transactions (db w)) as Hsame.
  destruct (pop_fault (db w)) as [[f|] d1]; cbn [snd] in Hsame.
  - do 2 eexists. split; [reflexivity|].
    unfold keeps_hashes_distinct, distinct_hashes. cbn. now rewrite Hsame.
  - destruct (insert_rows rows (transactions d1) (pending w)) as [o p] eqn:Hins.
    cbn [fst snd].
    assert (Hkept : distinct_hashes w ->
                    NoDup (hash <$> transactions d1 ++ p)).
    { unfold distinct_hashes. rewrite <- Hsame.
      apply (insert_rows_distinct _ _ _ _ _ Hins). }
    destruct o as [[]|e]; do 2 eexists; (split; [reflexivity|]);
      unfold keeps_hashes_distinct; intros H; apply Hkept in H; exact H.
Qed.

Lemma session_commit_hashes : steady keeps_hashes_distinct session_commit.
Proof.
  intros w. unfold session_commit, bind, gets, execute, statement, modify.
  pose proof (pop_fault_transactions (db w)) as Hsame.
  destruct (pop_fault (db w)) as [[f|] d1]; cbn [snd] in Hsame;
    do 2 eexists; (split; [reflexivity|]);
    unfold keeps_hashes_distinct, distinct_hashes; cbn; rewrite Hsame.
  - auto.
  - now rewrite app_nil_r.
Qed.

Ltac steady_hashes :=
  repeat first
    [ assumption
    | match goal with
      | H : forall _, Env.steady _ _ |- Env.steady _ _ => apply H
      end
    | apply (SteadyFacts.steady_ret _ keeps_hashes_distinct_refl)
    | apply (SteadyFacts.steady_raise _ keeps_hashes_distinct_refl)
    | apply (SteadyFacts.steady_lift _ keeps_hashes_distinct_refl)
    | apply (SteadyFacts.steady_gets _ keeps_hashes_distinct_refl)
    | apply SteadyFacts.steady_modify;
      intros ? ?; unfold distinct_hashes in *; cbn;
      first [assumption | eapply distinct_hashes_committed; eassumption]
    | apply steady_execute_hashes;
      apply SteadyFacts.statement_transactions; intros;
      repeat match goal with
             | |- context [match ?x with _ => _ end] => destruct x
             end; reflexivity
    | match goal with
      | |- Env.steady _ (try_except _ _) =>
          apply (SteadyFacts.steady_try_except _ keeps_hashes_distinct_trans)
      | |- Env.steady _ (try_finally _ _) =>
          apply (SteadyFacts.steady_try_finally _ keeps_hashes_distinct_trans)
      | |- Env.steady _ (bind _ _) =>
          apply (SteadyFacts.steady_bind _ keeps_hashes_distinct_trans)
      | |- Env.steady _ (match ?x with _ => _ end) => destruct x
      | |- Env.steady _ (if ?x then _ else _) => destruct x
      | |- forall _ : _, Env.steady _ _ => intro
      end ].

Lemma log_conflicting_hashes (rows : list Transaction) :
  steady keeps_hashes_distinct (log_conflicting rows).
Proof.
  intros w. rewrite FlushFacts.log_conflicting_logs. do 2 eexists.
  split; [reflexivity|]. now intros H.
Qed.

Lemma save_hashes (thread_id : Z) :
  steady keeps_hashes_distinct (save thread_id).
Proof.
  pose proof bulk_save_objects_hashes as Hinsert.
  pose proof session_commit_hashes as Hcommit.
  pose proof log_conflicting_hashes as Hlog.
  unfold save, session_rollback, logger, query_transaction_first.
  steady_hashes.
Qed.

Lemma get_or_create_address_hashes (a : string) :
  steady keeps_hashes_distinct (get_or_create_address a).
Proof.
  unfold get_or_create_address, find_or_insert, on_integrity_error,
    on_other_error, session_rollback, session_close, logger,
    query_address_one_or_none, insert_address, query_address_one.
  steady_hashes.
Qed.

Lemma queue_get_hashes (timeout : nat) :
  steady keeps_hashes_distinct (queue_get timeout).
Proof.
  intros w. unfold queue_get. destruct (queue w).
  - destruct (wait_for_item (env w) timeout (done w) (clock w))
      as [[[[got|] events] is_set] now];
      do 2 eexists; (split; [reflexivity|]); now intros H.
  - do 2 eexists. split; [reflexivity|]. now intros H.
Qed.

Section Loop.
Variable cfg : Config.
Variable thread_id : Z.

Lemma loop_body_hashes : steady keeps_hashes_distinct (loop_body cfg thread_id).
Proof.
  pose proof (save_hashes thread_id) as Hsave.
  pose proof get_or_create_address_hashes as Hresolve.
  pose proof (queue_get_hashes queue_timeout) as Hget.
  unfold loop_body, process_record, on_exception, logger, count_transactions.
  steady_hashes.
Qed.

Lemma final_flush_hashes : steady keeps_hashes_distinct (final_flush thread_id).
Proof.
  pose proof (save_hashes thread_id) as Hsave.
  unfold final_flush, logger. steady_hashes.
Qed.

Lemma consume_loop_hashes (fuel : nat) :
  forall (w w' : World) (r : Outcome unit),
    consume_loop cfg thread_id fuel w = Some (r, w') ->
    keeps_hashes_distinct w w'.
Proof.
  induction fuel as [|fuel IH]; intros w w' r Hrun;
    cbn [consume_loop] in Hrun; rewrite ConsumerRunFacts.bind_gets in Hrun;
    destruct (keep_running w); try discriminate;
    try (unfold ret in Hrun; inversion Hrun; subst; now intros H).
  apply ProducerSafetyFacts.bind_ended in Hrun
    as [(c & w1 & Hbody & Hrun)|(e & Hbody & ->)];
    apply (BatchFacts.steady_run _ _ _ _ _ loop_body_hashes) in Hbody;
    [|assumption].
  destruct c.
  - eapply keeps_hashes_distinct_trans; [exact Hbody | eapply IH, Hrun].
  - unfold ret in Hrun. now inversion Hrun; subst.
Qed.

(** X21.  No run of the consumer stores a hash twice.  Whatever the records
    on the queue are and whichever statements the store fails, if the stored
    hashes are distinct when [consume] starts with nothing pending in its
    session, they are distinct when it ends. *)
Theorem consume_never_duplicates_a_hash (fuel : nat) (w w' : World)
        (r : Outcome unit) :
  consume cfg thread_id fuel w = Some (r, w') ->
  unique_hashes (db w) -> pending w = [] ->
  unique_hashes (db w') /\ pending w' = [].
Proof.
  intros Hrun Hunique Hpending.
  rewrite ConsumerFacts.consume_started in Hrun.
  assert (Hstart : distinct_hashes (started_world thread_id w)).
  { unfold distinct_hashes. cbn. now rewrite Hpending, app_nil_r. }
  assert (Hend : distinct_hashes w').
  { unfold consume_guarded, try_finally in Hrun.
    fold (consume_guarded cfg thread_id fuel) in Hrun.
    unfold try_except, bind in Hrun.
    destruct (consume_loop cfg thread_id fuel (started_world thread_id w))
      as [[[[]|e] w1]|] eqn:Hloop; [| |discriminate];
      apply consume_loop_hashes in Hloop; apply Hloop in Hstart.
    - destruct (final_flush_hashes w1) as (r2 & w2 & Hflush & Hkeeps).
      rewrite Hflush in Hrun. apply Hkeeps in Hstart.
      unfold session_close, logger, modify in Hrun.
      destruct r2 as [[]|e]; cbn in Hrun; inversion Hrun; subst;
        unfold distinct_hashes in *; cbn;
        eapply distinct_hashes_committed; eassumption.
    - unfold session_close, logger, modify in Hrun. cbn in Hrun.
      inversion Hrun; subst. unfold distinct_hashes in *. cbn.
      eapply distinct_hashes_committed; eassumption. }
  destruct (ConsumerFacts.consume_guarded_returns cfg thread_id fuel _ _ _ Hrun)
    as (_ & _ & Hnone & _).
  split; [|assumption].
  unfold distinct_hashes in Hend. rewrite Hnone, app_nil_r in Hend. exact Hend.
Qed.

End Loop.

Lemma consume_never_duplicates_a_hash_witness :
  exists w' : World,
    consume Examples.sample_cfg 7 3
            (Examples.drained_world
               Examples.stored_db
               [Examples.transfer "0xh"; Examples.transfer "0xk"])
    = Some (Return tt, w')
    /\ unique_hashes (db w') /\ pending w' = [].
Proof.
  destruct (consume Examples.sample_cfg 7 3
              (Examples.drained_world
                 Examples.stored_db
                 [Examples.transfer "0xh"; Examples.transfer "0xk"]))
    as [[r w']|] eqn:Hrun.
  - destruct (consume_never_duplicates_a_hash
                Examples.sample_cfg 7 3 _ w' r Hrun) as [Hunique Hpending].
    + apply NoDup_singleton.
    + reflexivity.
    + assert (Hr : r = Return tt)
        by (vm_compute in Hrun; now inversion Hrun).
      subst r. exists w'. auto.
  - vm_compute in Hrun. discriminate Hrun.
Defined.

End HashInvariantFacts.
